(** * pyqueue: a durable broadcast queue

    A shallow embedding of the storage engine of pyqueue
    ([pyqueue/storage/log.py], [offsets.py], [queue.py]) and of the
    command parser ([pyqueue/broker/protocol.py]), with the properties the
    specification states about them.

    Layout: Part I holds the definitions, one module per source file (plus
    the pieces of the Python runtime they call: [struct], the UTF-8 codec,
    [json], [str] methods).  Part II holds the lemmas and theorems. *)

From Stdlib Require Import String.
From Stdlib Require Import List ZArith NArith Lia Bool Ascii.
From Stdlib Require Import Strings.Byte.
Import ListNotations.

(* ================================================================== *)
(** * Part I.  Definitions                                             *)
(* ================================================================== *)

(** ** Python values *)

(** [bytes] objects. *)
Definition bytes := list byte.

(** A [str] is a sequence of code points; a well-formed one has every
    element in [0, 0x10FFFF] ([is_str]).  Surrogate code points can occur
    in a [str]; text that came through a UTF-8 decoder has none
    ([is_text]). *)
Definition pystr := list Z.

Definition is_code_point (c : Z) : bool := (0 <=? c)%Z && (c <=? 0x10FFFF)%Z.
Definition is_surrogate (c : Z) : bool := (0xD800 <=? c)%Z && (c <=? 0xDFFF)%Z.
Definition is_scalar (c : Z) : bool := is_code_point c && negb (is_surrogate c).

Definition is_str (s : pystr) : bool := forallb is_code_point s.
Definition is_text (s : pystr) : bool := forallb is_scalar s.

Definition is_high_surrogate (c : Z) : bool := (0xD800 <=? c)%Z && (c <=? 0xDBFF)%Z.
Definition is_low_surrogate (c : Z) : bool := (0xDC00 <=? c)%Z && (c <=? 0xDFFF)%Z.

(** No high surrogate of [s] is immediately followed by a low one. *)
Fixpoint no_surrogate_pair (s : pystr) : bool :=
  match s with
  | c :: s' =>
      negb (is_high_surrogate c
            && match s' with
               | c' :: _ => is_low_surrogate c'
               | [] => false
               end)
      && no_surrogate_pair s'
  | [] => true
  end.

(** The [str]s that [json.load] reads back as [json.dump] wrote them (see
    [Json.scanstring]); every text is one. *)
Definition json_safe (s : pystr) : bool := is_str s && no_surrogate_pair s.

(** ASCII literals, for examples. *)
Definition str (s : string) : pystr :=
  map (fun a => Z.of_N (N_of_ascii a)) (String.list_ascii_of_string s).

Definition pystr_eqb (a b : pystr) : bool :=
  if list_eq_dec Z.eq_dec a b then true else false.

(** Exceptions raised by the modelled code, by class. *)
Inductive exn : Type :=
| ValueError (msg : string)
| StructError
| UnicodeEncodeError
| UnicodeDecodeError
| IndexError
| ProtocolError (msg : pystr).

(** The outcome of a call: a returned value or a raised exception. *)
Inductive result (A : Type) : Type :=
| Ok (a : A)
| Raise (e : exn).
Arguments Ok {A} a.
Arguments Raise {A} e.

Definition bind {A B} (r : result A) (k : A -> result B) : result B :=
  match r with
  | Ok a => k a
  | Raise e => Raise e
  end.

Declare Scope py_scope.
Delimit Scope py_scope with py.
Notation "x <- c1 ;; c2" := (bind c1 (fun x => c2))
  (at level 61, c1 at next level, right associativity) : py_scope.

(** ** [struct.pack(">I", n)] and [struct.unpack(">I", b)] *)

Module Struct.

Definition byte_of_N (n : N) : byte :=
  match Byte.of_N (n mod 256) with
  | Some b => b
  | None => x00
  end.

(** The four bytes of [n], most significant first. *)
Definition be32 (n : N) : bytes :=
  [byte_of_N (n / 16777216); byte_of_N (n / 65536);
   byte_of_N (n / 256); byte_of_N n].

(** [struct.pack(">I", n)]; [struct.error] when [n] does not fit 32
    bits. *)
Definition pack_u32 (n : N) : result bytes :=
  if (n <? 4294967296)%N then Ok (be32 n) else Raise StructError.

(** [struct.unpack(">I", b)[0]]; [struct.error] unless [b] has exactly
    four bytes. *)
Definition unpack_u32 (b : bytes) : result N :=
  match b with
  | [b3; b2; b1; b0] =>
      Ok (((Byte.to_N b3 * 256 + Byte.to_N b2) * 256 + Byte.to_N b1) * 256
          + Byte.to_N b0)%N
  | _ => Raise StructError
  end.

End Struct.

(** ** Binary files opened for reading

    A read handle is the list of bytes from the current position to the end
    of the file.  [f.seek(offset)] from the start of a file [content] is
    [skipn offset content] (seeking past the end is allowed and leaves
    nothing to read); [f.read(n)] returns at most [n] bytes and advances. *)

Module File.

Definition handle := bytes.

Definition open_rb (content : bytes) : handle := content.

Definition seek (content : bytes) (offset : nat) : handle :=
  skipn offset content.

Definition read (n : N) (f : handle) : bytes * handle :=
  let k := N.to_nat (N.min n (N.of_nat (List.length f))) in
  (firstn k f, skipn k f).

End File.

(** ** [pyqueue/storage/log.py] *)

Module AppendLog.

Definition HEADER_SIZE : nat := 4.

(** The log object: the content of the file at [_path] (which the object
    alone writes, always at its end, the handle being opened in mode
    ["ab+"]) and [_write_offset]. *)
Record t : Type := mk {
  file : bytes;
  _write_offset : nat
}.

(** [__init__]: a missing file is created empty; the write offset is the
    position of the end of the file. *)
Definition init (existing : bytes) : t :=
  {| file := existing; _write_offset := List.length existing |}.

Definition append (self : t) (data : bytes) : result (nat * t) :=
  let offset := _write_offset self in
  let length := List.length data in
  (header <- Struct.pack_u32 (N.of_nat length) ;;
   Ok (offset,
       {| file := file self ++ (header ++ data);
          _write_offset := _write_offset self + (HEADER_SIZE + length) |}))%py.

(** An offset is a position in the file, as [append] and [replay] give
    them to the index: a natural number. *)
Definition read_at (self : t) (offset : nat) : result bytes :=
  let f := File.seek (file self) offset in
  let (header, f) := File.read (N.of_nat HEADER_SIZE) f in
  if List.length header <? HEADER_SIZE then
    Raise (ValueError "incomplete header"%string)
  else
    (length <- Struct.unpack_u32 header ;;
     let (data, _) := File.read length f in
     if (N.of_nat (List.length data) <? length)%N then
       Raise (ValueError "incomplete data"%string)
     else Ok data)%py.

(** The body of the [while True] loop of [replay], iterated at most
    [fuel] times. *)
Fixpoint replay_loop (fuel : nat) (f : File.handle) (offset : nat)
  : list (nat * bytes) :=
  match fuel with
  | O => []
  | S fuel' =>
      let (header, f) := File.read (N.of_nat HEADER_SIZE) f in
      if List.length header =? 0 then []
      else if List.length header <? HEADER_SIZE then []
      else
        match Struct.unpack_u32 header with
        | Raise _ => []
        | Ok length =>
            let (data, f) := File.read length f in
            if (N.of_nat (List.length data) <? length)%N then []
            else (offset, data)
                   :: replay_loop fuel' f (offset + (HEADER_SIZE + N.to_nat length))
        end
  end.

(** [replay], run to exhaustion.  Every iteration that continues consumes
    at least the four header bytes, so one more iteration than the file
    has bytes is enough ([replay_loop_fuel] below). *)
Definition replay (self : t) : list (nat * bytes) :=
  replay_loop (S (List.length (file self))) (File.open_rb (file self)) 0.

Definition size (self : t) : nat := _write_offset self.

End AppendLog.

(** ** The layout of the log file

    The vocabulary of the statements about the log, after the docstring of
    [AppendLog]: [[4-byte length][message bytes][4-byte length][message
    bytes]...]. *)

Module Framing.

(** A payload whose length the 4-byte field can hold. *)
Definition fits (data : bytes) : Prop :=
  (N.of_nat (List.length data) < 4294967296)%N.

(** One fully written record. *)
Definition frame (data : bytes) : bytes :=
  Struct.be32 (N.of_nat (List.length data)) ++ data.

Definition frames (records : list bytes) : bytes :=
  concat (map frame records).

(** The records paired with the offsets of their frames, the first frame
    starting at [offset]. *)
Fixpoint frames_at (offset : nat) (records : list bytes) : list (nat * bytes) :=
  match records with
  | [] => []
  | data :: records' =>
      (offset, data)
        :: frames_at (offset + (AppendLog.HEADER_SIZE + List.length data)) records'
  end.

(** What an interrupted write leaves: fewer than four header bytes
    (possibly none), or a header followed by fewer payload bytes than it
    declares. *)
Definition is_fragment (b : bytes) : bool :=
  match b with
  | b3 :: b2 :: b1 :: b0 :: payload =>
      match Struct.unpack_u32 [b3; b2; b1; b0] with
      | Ok n => (N.of_nat (List.length payload) <? n)%N
      | Raise _ => false
      end
  | _ => true
  end.

(** The bytes from [offset] on hold a complete header and the whole
    payload it declares. *)
Definition has_record_at (content : bytes) (offset : nat) : bool :=
  negb (is_fragment (skipn offset content)).

End Framing.

(** ** [str.encode("utf-8")] and [bytes.decode("utf-8")]

    The strict UTF-8 codec: code points up to U+007F take one byte, up to
    U+07FF two, up to U+FFFF three, up to U+10FFFF four.  Encoding a
    surrogate raises [UnicodeEncodeError]; decoding raises
    [UnicodeDecodeError] on anything but the shortest encoding of a scalar
    value. *)

Module Utf8.

Definition byte_of_Z (z : Z) : byte := Struct.byte_of_N (Z.to_N z).
Definition Z_of_byte (b : byte) : Z := Z.of_N (Byte.to_N b).

Definition encode_cp (c : Z) : option (list Z) :=
  if (c <? 0)%Z then None
  else if (c <? 0x80)%Z then Some [c]
  else if (c <? 0x800)%Z then
    Some [0xC0 + c / 64; 0x80 + c mod 64]%Z
  else if (c <? 0x10000)%Z then
    if is_surrogate c then None
    else Some [0xE0 + c / 4096; 0x80 + (c / 64) mod 64; 0x80 + c mod 64]%Z
  else if (c <? 0x110000)%Z then
    Some [0xF0 + c / 262144; 0x80 + (c / 4096) mod 64;
          0x80 + (c / 64) mod 64; 0x80 + c mod 64]%Z
  else None.

Fixpoint encode (s : pystr) : result bytes :=
  match s with
  | [] => Ok []
  | c :: s' =>
      match encode_cp c with
      | None => Raise UnicodeEncodeError
      | Some bs => (rest <- encode s' ;; Ok (map byte_of_Z bs ++ rest))%py
      end
  end.

Definition between (lo hi b : Z) : bool := ((lo <=? b) && (b <=? hi))%Z.
Definition continuation (b : Z) : bool := between 0x80 0xBF b.

Fixpoint decode_Z (bs : list Z) : result pystr :=
  match bs with
  | [] => Ok []
  | b0 :: t0 =>
      if (b0 <? 0x80)%Z then
        (s <- decode_Z t0 ;; Ok (b0 :: s))%py
      else if between 0xC2 0xDF b0 then
        match t0 with
        | b1 :: t1 =>
            if continuation b1 then
              (s <- decode_Z t1 ;;
               Ok (((b0 - 0xC0) * 64 + (b1 - 0x80))%Z :: s))%py
            else Raise UnicodeDecodeError
        | _ => Raise UnicodeDecodeError
        end
      else if between 0xE0 0xEF b0 then
        match t0 with
        | b1 :: b2 :: t2 =>
            if between (if (b0 =? 0xE0)%Z then 0xA0 else 0x80)
                       (if (b0 =? 0xED)%Z then 0x9F else 0xBF) b1
               && continuation b2
            then
              (s <- decode_Z t2 ;;
               Ok (((b0 - 0xE0) * 4096 + (b1 - 0x80) * 64 + (b2 - 0x80))%Z
                     :: s))%py
            else Raise UnicodeDecodeError
        | _ => Raise UnicodeDecodeError
        end
      else if between 0xF0 0xF4 b0 then
        match t0 with
        | b1 :: b2 :: b3 :: t3 =>
            if between (if (b0 =? 0xF0)%Z then 0x90 else 0x80)
                       (if (b0 =? 0xF4)%Z then 0x8F else 0xBF) b1
               && continuation b2 && continuation b3
            then
              (s <- decode_Z t3 ;;
               Ok (((b0 - 0xF0) * 262144 + (b1 - 0x80) * 4096
                    + (b2 - 0x80) * 64 + (b3 - 0x80))%Z :: s))%py
            else Raise UnicodeDecodeError
        | _ => Raise UnicodeDecodeError
        end
      else Raise UnicodeDecodeError
  end.

Definition decode (b : bytes) : result pystr := decode_Z (map Z_of_byte b).

End Utf8.

(** ** [Dict[str, int]]

    A dict keeps its keys in insertion order (which [json.dump] follows),
    so it is an association list without repeated keys. *)

Module Dict.

Definition t := list (pystr * Z).

(** [d.get(k, default)] *)
Fixpoint get (d : t) (k : pystr) (default : Z) : Z :=
  match d with
  | [] => default
  | (k', v) :: d' => if pystr_eqb k' k then v else get d' k default
  end.

(** [d[k] = v]: in place when [k] is a key, else a new last entry. *)
Fixpoint set (d : t) (k : pystr) (v : Z) : t :=
  match d with
  | [] => [(k, v)]
  | (k', v') :: d' =>
      if pystr_eqb k' k then (k', v) :: d' else (k', v') :: set d' k v
  end.

(** [dict(pairs)] *)
Definition of_pairs (pairs : list (pystr * Z)) : t :=
  fold_left (fun d kv => set d (fst kv) (snd kv)) pairs [].

End Dict.

(** ** [json.dump] and [json.load] on the ledger

    [dumps] is the text [json.dump] writes for a [Dict[str, int]] with the
    default settings ([ensure_ascii], separators [", "] and [": "]).
    [loads] is [json.load] on the texts that denote an object whose values
    are integers; it answers [None] for every other text, be it malformed
    (where [json.load] raises [JSONDecodeError]) or a JSON document of
    another shape (which is no ledger: [_offsets] is a [Dict[str, int]]). *)

Module Json.

(** *** Encoder *)

Definition hex_digit (d : Z) : Z := (if d <? 10 then 48 + d else 87 + d)%Z.

(** ['\\u{0:04x}'.format(n)] *)
Definition u_escape (n : Z) : pystr :=
  [92; 117; hex_digit (n / 4096); hex_digit (n / 256 mod 16);
   hex_digit (n / 16 mod 16); hex_digit (n mod 16)]%Z.

(** What [encode_basestring_ascii] puts for one character: [ESCAPE_DCT],
    the character itself from [' '] to ['~'], a [\uXXXX] escape, or a
    surrogate pair of escapes above U+FFFF. *)
Definition escape (c : Z) : pystr :=
  (if c =? 34 then [92; 34]
   else if c =? 92 then [92; 92]
   else if c =? 8 then [92; 98]
   else if c =? 12 then [92; 102]
   else if c =? 10 then [92; 110]
   else if c =? 13 then [92; 114]
   else if c =? 9 then [92; 116]
   else if (32 <=? c) && (c <=? 126) then [c]
   else if c <? 0x10000 then u_escape c
   else
     let n := c - 0x10000 in
     u_escape (0xD800 + n / 1024) ++ u_escape (0xDC00 + n mod 1024))%Z.

Definition encode_basestring_ascii (s : pystr) : pystr :=
  [34%Z] ++ flat_map escape s ++ [34%Z].

(** The decimal digits of [n >= 0], most significant first. *)
Fixpoint digits_loop (fuel : nat) (n : Z) : list Z :=
  match fuel with
  | O => []
  | S fuel' =>
      if (n <? 10)%Z then [n]
      else digits_loop fuel' (n / 10) ++ [(n mod 10)%Z]
  end.

Definition digits (n : Z) : list Z :=
  digits_loop (S (Z.to_nat (Z.log2 n))) n.

(** [int.__repr__] *)
Definition repr_int (z : Z) : pystr :=
  (if z <? 0 then 45 :: map (Z.add 48) (digits (- z))
   else map (Z.add 48) (digits z))%Z.

Definition dump_item (kv : pystr * Z) : pystr :=
  encode_basestring_ascii (fst kv) ++ [58; 32]%Z ++ repr_int (snd kv).

Fixpoint dump_items (d : Dict.t) : pystr :=
  match d with
  | [] => []
  | [kv] => dump_item kv
  | kv :: d' => dump_item kv ++ [44; 32]%Z ++ dump_items d'
  end.

Definition dumps (d : Dict.t) : pystr :=
  [123%Z] ++ dump_items d ++ [125%Z].

(** *** Decoder *)

Definition is_ws (c : Z) : bool :=
  ((c =? 32) || (c =? 9) || (c =? 10) || (c =? 13))%Z.

Fixpoint skip_ws (s : pystr) : pystr :=
  match s with
  | c :: s' => if is_ws c then skip_ws s' else s
  | [] => []
  end.

Definition hex_val (c : Z) : option Z :=
  (if (48 <=? c) && (c <=? 57) then Some (c - 48)
   else if (97 <=? c) && (c <=? 102) then Some (c - 87)
   else if (65 <=? c) && (c <=? 70) then Some (c - 55)
   else None)%Z.

Definition hex4 (h1 h2 h3 h4 : Z) : option Z :=
  match hex_val h1, hex_val h2, hex_val h3, hex_val h4 with
  | Some a, Some b, Some c, Some d => Some (((a * 16 + b) * 16 + c) * 16 + d)%Z
  | _, _, _, _ => None
  end.

(** The [BACKSLASH] table of the decoder. *)
Definition unescape (e : Z) : option Z :=
  (if e =? 34 then Some 34
   else if e =? 92 then Some 92
   else if e =? 47 then Some 47
   else if e =? 98 then Some 8
   else if e =? 102 then Some 12
   else if e =? 110 then Some 10
   else if e =? 114 then Some 13
   else if e =? 116 then Some 9
   else None)%Z.

Definition push_char (c : Z) (r : option (pystr * pystr))
  : option (pystr * pystr) :=
  match r with
  | Some (k, rest) => Some (c :: k, rest)
  | None => None
  end.

(** [scanstring], from just after the opening quote: the string and the
    text after its closing quote.  A [\uXXXX] escape of a high surrogate
    followed at once by the escape of a low surrogate is read as the one
    code point the pair stands for. *)
Fixpoint scanstring (s : pystr) : option (pystr * pystr) :=
  match s with
  | [] => None
  | c :: s1 =>
      if (c =? 34)%Z then Some ([], s1)
      else if (c =? 92)%Z then
        match s1 with
        | [] => None
        | e :: s2 =>
            if (e =? 117)%Z then
              match s2 with
              | h1 :: h2 :: h3 :: h4 :: s3 =>
                  match hex4 h1 h2 h3 h4 with
                  | None => None
                  | Some uni =>
                      if Utf8.between 0xD800 0xDBFF uni then
                        match s3 with
                        | b :: u :: l1 :: l2 :: l3 :: l4 :: s4 =>
                            if ((b =? 92) && (u =? 117))%Z then
                              match hex4 l1 l2 l3 l4 with
                              | None => None
                              | Some uni2 =>
                                  if Utf8.between 0xDC00 0xDFFF uni2 then
                                    push_char
                                      (0x10000 + (uni - 0xD800) * 1024
                                       + (uni2 - 0xDC00))%Z
                                      (scanstring s4)
                                  else push_char uni (scanstring s3)
                              end
                            else push_char uni (scanstring s3)
                        | _ => push_char uni (scanstring s3)
                        end
                      else push_char uni (scanstring s3)
                  end
              | _ => None
              end
            else
              match unescape e with
              | Some ch => push_char ch (scanstring s2)
              | None => None
              end
        end
      else if (c <? 32)%Z then None
      else push_char c (scanstring s1)
  end.

Definition is_digit (c : Z) : bool := ((48 <=? c) && (c <=? 57))%Z.

(** The longest run of digits in front of [s], as a number continuing
    [acc], and what follows the run. *)
Fixpoint scan_digits (s : pystr) (acc : Z) : Z * pystr :=
  match s with
  | c :: s' =>
      if is_digit c then scan_digits s' (acc * 10 + (c - 48))%Z
      else (acc, s)
  | [] => (acc, [])
  end.

(** The integer part of [NUMBER_RE]: an optional minus sign, then either
    a single 0 or a non-zero digit followed by any digits. *)
Definition parse_int (s : pystr) : option (Z * pystr) :=
  let (negative, s1) :=
    match s with
    | c :: s' => if (c =? 45)%Z then (true, s') else (false, s)
    | [] => (false, [])
    end in
  match s1 with
  | d :: s2 =>
      if (d =? 48)%Z then Some (0%Z, s2)
      else if is_digit d then
        let (n, rest) := scan_digits s2 (d - 48)%Z in
        Some ((if negative then - n else n)%Z, rest)
      else None
  | [] => None
  end.

(** The loop of [JSONObject], from just after the opening quote of a
    key, iterated at most [fuel] times. *)
Fixpoint members (fuel : nat) (s : pystr)
  : option (list (pystr * Z) * pystr) :=
  match fuel with
  | O => None
  | S fuel' =>
      match scanstring s with
      | None => None
      | Some (key, s) =>
          match skip_ws s with
          | c :: s =>
              if (c =? 58)%Z then
                match parse_int (skip_ws s) with
                | None => None
                | Some (value, s) =>
                    match skip_ws s with
                    | c :: s =>
                        if (c =? 125)%Z then Some ([(key, value)], s)
                        else if (c =? 44)%Z then
                          match skip_ws s with
                          | q :: s =>
                              if (q =? 34)%Z then
                                match members fuel' s with
                                | Some (pairs, rest) =>
                                    Some ((key, value) :: pairs, rest)
                                | None => None
                                end
                              else None
                          | [] => None
                          end
                        else None
                    | [] => None
                    end
                end
              else None
          | [] => None
          end
      end
  end.

(** [JSONObject], from just after the opening brace.  Every member takes
    at least one character, so the length of the text bounds the loop. *)
Definition parse_object (s : pystr) : option (list (pystr * Z) * pystr) :=
  match skip_ws s with
  | c :: s' =>
      if (c =? 125)%Z then Some ([], s')
      else if (c =? 34)%Z then members (List.length s') s'
      else None
  | [] => None
  end.

Definition loads (s : pystr) : option Dict.t :=
  match skip_ws s with
  | c :: s1 =>
      if (c =? 123)%Z then
        match parse_object s1 with
        | Some (pairs, rest) =>
            match skip_ws rest with
            | [] => Some (Dict.of_pairs pairs)
            | _ :: _ => None
            end
        | None => None
        end
      else None
  | [] => None
  end.

End Json.

(** ** [pyqueue/storage/offsets.py] *)

Module OffsetStore.

(** The store: the content of the file at [_path] ([None] while the file
    does not exist) and the table [_offsets].  The file is a text file
    that holds ASCII only, so its content is the [str] written to it. *)
Record t : Type := mk {
  file : option pystr;
  _offsets : Dict.t
}.

(** What [save] does to the file at [_path], call by call. *)
Inductive call : Type :=
| Open_w                 (* [open(self._path, "w")]: create or truncate *)
| Write (s : pystr)      (* [f.write(s)] *)
| Close.                 (* leaving the [with] block *)

(** The file while it is open for writing: what is on disk, which is what
    any reader of the path finds, and the strings written to the file
    object so far, in order. *)
Record open_file : Type := mk_open_file {
  on_disk : option pystr;
  written : list pystr
}.

Section Buffering.

(** [json.dump] writes the text of the table as a series of strings, one
    [f.write] each.  How the encoder cuts the text is the runtime's
    business and is taken as a parameter: the statements only ask that
    the pieces, put together, are the text. *)
Variable pieces : pystr -> list pystr.

(** The file object buffers what is written to it and passes it on to the
    operating system in the order written: a table longer than its
    buffers reaches the disk in part before the file is closed.  How many
    characters have been passed on after the strings written so far
    depends on the sizes of the buffers, which are the runtime's, and is
    taken as a parameter. *)
Variable passed_on : list pystr -> nat.

Definition run_call (f : open_file) (c : call) : open_file :=
  match c with
  | Open_w => {| on_disk := Some []; written := [] |}
  | Write s =>
      let w := written f ++ [s] in
      {| on_disk :=
           match on_disk f with
           | Some _ => Some (firstn (passed_on w) (concat w))
           | None => None
           end;
         written := w |}
  | Close =>
      {| on_disk :=
           match on_disk f with
           | Some _ => Some (concat (written f))
           | None => None
           end;
         written := [] |}
  end.

(** [json.dump(self._offsets, f)] inside [with open(self._path, "w")]. *)
Definition save_calls (self : t) : list call :=
  Open_w :: map Write (pieces (Json.dumps (_offsets self))) ++ [Close].

(** The content of the file on disk after each call, in order: what
    another reader of the file, or a restart after a crash, can find. *)
Fixpoint contents_after (f : open_file) (calls : list call)
  : list (option pystr) :=
  match calls with
  | [] => []
  | c :: calls' =>
      let f' := run_call f c in
      on_disk f' :: contents_after f' calls'
  end.

Definition visible_during_save (self : t) : list (option pystr) :=
  contents_after {| on_disk := file self; written := [] |} (save_calls self).

End Buffering.

(** [save], once the [with] block has been left: the file holds the text
    of the table (what it holds in between is [visible_during_save]). *)
Definition save (self : t) : t :=
  {| file := Some (Json.dumps (_offsets self));
     _offsets := _offsets self |}.

(** [load].  The model covers the ledger files that the code itself
    leaves behind: no file, the text that [save] writes, and the empty
    file of a [save] that was interrupted, which [json.load] refuses and
    [load] turns into an empty table.  A file holding valid JSON of
    another shape (which the code would keep as [json.load] returns it)
    is outside the model; no statement is made about such a file. *)
Definition load (self : t) : t :=
  match file self with
  | None => self
  | Some text =>
      match Json.loads text with
      | Some d => {| file := file self; _offsets := d |}
      | None => {| file := file self; _offsets := [] |}
      end
  end.

Definition init (existing : option pystr) : t :=
  load {| file := existing; _offsets := [] |}.

Definition get (self : t) (consumer_id : pystr) : Z :=
  Dict.get (_offsets self) consumer_id 0.

Definition set (self : t) (consumer_id : pystr) (offset : Z) : t :=
  save {| file := file self;
          _offsets := Dict.set (_offsets self) consumer_id offset |}.

Definition all_offsets (self : t) : Dict.t := _offsets self.

End OffsetStore.

(** ** [pyqueue/storage/queue.py]

    Every method runs under [self._lock], one at a time: a method is a
    function from the state before the call to its outcome and the state
    after it.  A call that raises leaves the state as it was when the
    exception was raised. *)

Module PersistentQueue.

(** The two files of [data_dir]: [queue.log] (created empty when it is
    missing) and [offsets.json] ([None] while missing). *)
Record disk : Type := mk_disk {
  queue_log : bytes;
  offsets_json : option pystr
}.

Definition empty_dir : disk := {| queue_log := []; offsets_json := None |}.

Record t : Type := mk {
  _log : AppendLog.t;
  _offsets : OffsetStore.t;
  _index : list nat
}.

Definition _recover (self : t) : t :=
  {| _log := _log self;
     _offsets := _offsets self;
     _index := _index self ++ map fst (AppendLog.replay (_log self)) |}.

Definition init (d : disk) : t :=
  _recover {| _log := AppendLog.init (queue_log d);
              _offsets := OffsetStore.init (offsets_json d);
              _index := [] |}.

(** What is on disk while the queue runs, and all a restart has. *)
Definition disk_of (self : t) : disk :=
  {| queue_log := AppendLog.file (_log self);
     offsets_json := OffsetStore.file (_offsets self) |}.

Definition push (self : t) (message : pystr) : result nat * t :=
  match Utf8.encode message with
  | Raise e => (Raise e, self)
  | Ok data =>
      match AppendLog.append (_log self) data with
      | Raise e => (Raise e, self)
      | Ok (offset, log') =>
          let index := List.length (_index self) in
          (Ok index,
           {| _log := log';
              _offsets := _offsets self;
              _index := _index self ++ [offset] |})
      end
  end.

(** [l[i]] on a list: a negative [i] counts from the end. *)
Definition getitem (l : list nat) (i : Z) : result nat :=
  let n := Z.of_nat (List.length l) in
  let j := (if i <? 0 then i + n else i)%Z in
  if (j <? 0)%Z then Raise IndexError
  else
    match nth_error l (Z.to_nat j) with
    | Some x => Ok x
    | None => Raise IndexError
    end.

(** [Ok None] is the [None] that [pull] returns when no message is
    available. *)
Definition pull (self : t) (consumer_id : pystr)
  : result (option pystr) * t :=
  let consumer_offset := OffsetStore.get (_offsets self) consumer_id in
  if (Z.of_nat (List.length (_index self)) <=? consumer_offset)%Z then
    (Ok None, self)
  else
    match getitem (_index self) consumer_offset with
    | Raise e => (Raise e, self)
    | Ok log_offset =>
        match AppendLog.read_at (_log self) log_offset with
        | Raise e => (Raise e, self)
        | Ok data =>
            match Utf8.decode data with
            | Raise e => (Raise e, self)
            | Ok message =>
                (Ok (Some message),
                 {| _log := _log self;
                    _offsets := OffsetStore.set (_offsets self) consumer_id
                                  (consumer_offset + 1);
                    _index := _index self |})
            end
        end
    end.

Definition message_count (self : t) : nat * t :=
  (List.length (_index self), self).

Definition consumer_offset (self : t) (consumer_id : pystr) : Z * t :=
  (OffsetStore.get (_offsets self) consumer_id, self).

End PersistentQueue.

(** ** Sequences of calls

    The calls a client of the queue can make, and their outcomes. *)

Module Calls.

Import PersistentQueue.

Inductive op : Type :=
| Push (message : pystr)
| Pull (consumer_id : pystr)
| MessageCount
| ConsumerOffset (consumer_id : pystr).

Inductive outcome : Type :=
| Pushed (r : result nat)
| Pulled (consumer_id : pystr) (r : result (option pystr))
| Counted (n : nat)
| Offset (consumer_id : pystr) (cursor : Z).

Definition step (q : t) (o : op) : outcome * t :=
  match o with
  | Push message => let (r, q') := push q message in (Pushed r, q')
  | Pull c => let (r, q') := pull q c in (Pulled c r, q')
  | MessageCount => let (n, q') := message_count q in (Counted n, q')
  | ConsumerOffset c => let (z, q') := consumer_offset q c in (Offset c z, q')
  end.

Fixpoint run (q : t) (ops : list op) : list outcome * t :=
  match ops with
  | [] => ([], q)
  | o :: ops' =>
      let (out, q') := step q o in
      let (outs, q'') := run q' ops' in
      (out :: outs, q'')
  end.

(** The call returned (did not raise). *)
Definition returned (o : outcome) : bool :=
  match o with
  | Pushed (Raise _) | Pulled _ (Raise _) => false
  | _ => true
  end.

(** The messages delivered to consumer [c], in the order of delivery. *)
Fixpoint delivered (c : pystr) (outs : list outcome) : list pystr :=
  match outs with
  | [] => []
  | Pulled c' (Ok (Some m)) :: outs' =>
      if pystr_eqb c' c then m :: delivered c outs' else delivered c outs'
  | _ :: outs' => delivered c outs'
  end.

(** How many of the pulls of a schedule (the consumer identities of
    successive pulls) are by consumer [c]. *)
Definition pulls_by (c : pystr) (schedule : list pystr) : nat :=
  List.length (filter (pystr_eqb c) schedule).

(** Stopping and starting again on the files the queue leaves. *)
Definition restart (q : t) : t := init (disk_of q).

(** The message at ordinal [i]: the bytes [pull] reads for a cursor at
    [i]. *)
Definition message_bytes (q : t) (i : nat) : option (result bytes) :=
  match nth_error (_index q) i with
  | Some log_offset => Some (AppendLog.read_at (_log q) log_offset)
  | None => None
  end.

Definition cursor (q : t) (c : pystr) : Z :=
  OffsetStore.get (_offsets q) c.

End Calls.

(** ** [pyqueue/broker/protocol.py] *)

Module Protocol.

Definition PUSH : pystr := str "PUSH".
Definition PULL : pystr := str "PULL".

Record ParsedCommand : Type := mk {
  cmd : pystr;
  args : list pystr
}.

(** The characters [str.strip()] removes: those for which
    [str.isspace] holds. *)
Definition is_space (c : Z) : bool :=
  (((0x09 <=? c) && (c <=? 0x0D)) || ((0x1C <=? c) && (c <=? 0x20))
   || (c =? 0x85) || (c =? 0xA0) || (c =? 0x1680)
   || ((0x2000 <=? c) && (c <=? 0x200A))
   || (c =? 0x2028) || (c =? 0x2029) || (c =? 0x202F) || (c =? 0x205F)
   || (c =? 0x3000))%Z.

Fixpoint lstrip (s : pystr) : pystr :=
  match s with
  | c :: s' => if is_space c then lstrip s' else s
  | [] => []
  end.

Definition rstrip (s : pystr) : pystr := rev (lstrip (rev s)).

Definition strip (s : pystr) : pystr := rstrip (lstrip s).

(** [s.split(" ", 1)]: cut at the first space, if there is one. *)
Fixpoint split_space (s : pystr) : list pystr :=
  match s with
  | [] => [[]]
  | c :: s' =>
      if (c =? 32)%Z then [[]; s']
      else
        match split_space s' with
        | head :: tail => (c :: head) :: tail
        | [] => [[c]]
        end
  end.

Section Upper.

(** [str.upper()] maps the ASCII letters [a]-[z] to [A]-[Z] and leaves
    the other ASCII characters alone; what it does to a code point
    above U+007F is the Unicode upper-case mapping, a table of the
    Python runtime, taken as a parameter. *)
Variable unicode_upper : Z -> pystr.

Definition upper_char (c : Z) : pystr :=
  (if (97 <=? c) && (c <=? 122) then [c - 32]
   else if c <? 128 then [c]
   else unicode_upper c)%Z.

Definition upper (s : pystr) : pystr := flat_map upper_char s.

Definition parse_command (line : pystr) : result ParsedCommand :=
  let line := strip line in
  match line with
  | [] => Raise (ProtocolError (str "Empty command"))
  | _ :: _ =>
      let parts := split_space line in
      let part0 := nth 0 parts [] in
      let cmd := upper part0 in
      if negb (pystr_eqb cmd PUSH || pystr_eqb cmd PULL) then
        Raise (ProtocolError (str "Unknown command: " ++ part0))
      else
        match parts with
        | [_; part1] =>
            match part1 with
            | [] => Raise (ProtocolError (cmd ++ str " requires an argument"))
            | _ :: _ => Ok {| cmd := cmd; args := [part1] |}
            end
        | _ => Raise (ProtocolError (cmd ++ str " requires an argument"))
        end
  end.

End Upper.

End Protocol.

(** ** Invariants and vocabulary of the statements *)

Import PersistentQueue.
Import Calls.

(** The write offset is the end of the file: established by [__init__],
    kept by [append]. *)
Definition log_wf (l : AppendLog.t) : Prop :=
  AppendLog._write_offset l = List.length (AppendLog.file l).

(** The text [T] does not start with the escape of a low surrogate. *)
Definition no_low_escape_ahead (T : pystr) : Prop :=
  forall l1 l2 l3 l4 rest uni2,
    T = 92%Z :: 117%Z :: l1 :: l2 :: l3 :: l4 :: rest ->
    Json.hex4 l1 l2 l3 l4 = Some uni2 ->
    Utf8.between 0xDC00 0xDFFF uni2 = false.

(** The number that the digits [ds] write after the number [acc]. *)
Definition decimal_value (ds : list Z) (acc : Z) : Z :=
  fold_left (fun a x => a * 10 + x)%Z ds acc.

(** Text that does not go on with a digit. *)
Definition no_digit_ahead (rest : pystr) : Prop :=
  match rest with
  | c :: _ => Json.is_digit c = false
  | [] => True
  end.

(** What [dump_items] writes after an item: nothing after the last one,
    else a separator and the remaining items. *)
Definition more_items (d : Dict.t) : pystr :=
  match d with
  | [] => []
  | _ :: _ => [44; 32]%Z ++ Json.dump_items d
  end.

(** The offsets of the frames of [records], the first at [offset]. *)
Definition frame_offsets (offset : nat) (records : list bytes) : list nat :=
  map fst (Framing.frames_at offset records).

(** The invariant that ties the log file and the index to the messages
    pushed so far. *)
Record holds (q : t) (msgs : list pystr) (records : list bytes) : Prop := {
  holds_encoded : Forall2 (fun m r => Utf8.encode m = Ok r) msgs records;
  holds_fits : Forall Framing.fits records;
  holds_file : AppendLog.file (_log q) = Framing.frames records;
  holds_end : log_wf (_log q);
  holds_index : _index q = frame_offsets 0 records
}.

(** Every cursor of the ledger lies between 0 and [n]. *)
Definition cursors_within (s : OffsetStore.t) (n : nat) : Prop :=
  forall c, (0 <= OffsetStore.get s c <= Z.of_nat n)%Z.

(** The ledger file holds the table as last saved (or does not exist while
    nothing has been saved), and the keys of the table are distinct and
    safe for JSON. *)
Record ledger_saved (s : OffsetStore.t) : Prop := {
  saved_file :
    match OffsetStore.file s with
    | None => OffsetStore._offsets s = []
    | Some text => text = Json.dumps (OffsetStore._offsets s)
    end;
  saved_keys : NoDup (map fst (OffsetStore._offsets s));
  saved_text :
    Forall (fun key => json_safe key = true) (map fst (OffsetStore._offsets s))
}.

(** The consumer identities that pull in a sequence of calls are safe for
    JSON. *)
Definition pullers_json_safe (ops : list op) : Prop :=
  forall c, In (Pull c) ops -> json_safe c = true.

(** A token that reads PUSH when case is ignored. *)
Definition is_PUSH_token (token : pystr) : Prop :=
  Forall2 (fun c p => c = p \/ c = (p + 32)%Z) token Protocol.PUSH.

(** ** More sequences of calls *)

Module LogCalls.

(** [append], payload after payload; the offsets returned, in order. *)
Fixpoint append_all (self : AppendLog.t) (payloads : list bytes)
  : result (list nat * AppendLog.t) :=
  match payloads with
  | [] => Ok ([], self)
  | data :: payloads' =>
      match AppendLog.append self data with
      | Raise e => Raise e
      | Ok (offset, self') =>
          match append_all self' payloads' with
          | Raise e => Raise e
          | Ok (offsets, self'') => Ok (offset :: offsets, self'')
          end
      end
  end.

End LogCalls.

Module History.

(** The messages of the pushes that returned, in order. *)
Fixpoint pushed (ops : list op) (outs : list outcome) : list pystr :=
  match ops, outs with
  | Push m :: ops', Pushed (Ok _) :: outs' => m :: pushed ops' outs'
  | _ :: ops', _ :: outs' => pushed ops' outs'
  | _, _ => []
  end.

(** The ordinals that the pushes returned, in order. *)
Fixpoint ordinals (outs : list outcome) : list nat :=
  match outs with
  | Pushed (Ok i) :: outs' => i :: ordinals outs'
  | _ :: outs' => ordinals outs'
  | [] => []
  end.

End History.

(** ** The broker *)

(** The formatters of [protocol.py]; the line feed is character 10. *)
Module Replies.

Definition format_ok : pystr := str "OK" ++ [10%Z].

Definition format_msg (message : pystr) : pystr :=
  str "MSG " ++ message ++ [10%Z].

Definition format_empty : pystr := str "EMPTY" ++ [10%Z].

Definition format_error (reason : pystr) : pystr :=
  str "ERR " ++ reason ++ [10%Z].

End Replies.

Module CommandHandler.

Section Handle.

(** [str(e)]: the text of an exception, as the Python runtime words
    it. *)
Variable exception_text : exn -> pystr.

Definition _handle_push (queue : PersistentQueue.t) (message : pystr)
  : result pystr * PersistentQueue.t :=
  let (r, queue') := PersistentQueue.push queue message in
  match r with
  | Ok _ => (Ok Replies.format_ok, queue')
  | Raise e => (Raise e, queue')
  end.

Definition _handle_pull (queue : PersistentQueue.t) (consumer_id : pystr)
  : result pystr * PersistentQueue.t :=
  let (r, queue') := PersistentQueue.pull queue consumer_id in
  match r with
  | Ok None => (Ok Replies.format_empty, queue')
  | Ok (Some message) => (Ok (Replies.format_msg message), queue')
  | Raise e => (Raise e, queue')
  end.

(** [cmd.args[0]] raises [IndexError] on an empty list; every exception
    of the body is turned into an error reply. *)
Definition handle (queue : PersistentQueue.t) (cmd : Protocol.ParsedCommand)
  : pystr * PersistentQueue.t :=
  let (r, queue') :=
    if pystr_eqb (Protocol.cmd cmd) Protocol.PUSH then
      match Protocol.args cmd with
      | arg0 :: _ => _handle_push queue arg0
      | [] => (Raise IndexError, queue)
      end
    else if pystr_eqb (Protocol.cmd cmd) Protocol.PULL then
      match Protocol.args cmd with
      | arg0 :: _ => _handle_pull queue arg0
      | [] => (Raise IndexError, queue)
      end
    else
      (Ok (Replies.format_error (str "Unknown command: " ++ Protocol.cmd cmd)),
       queue) in
  match r with
  | Ok response => (response, queue')
  | Raise e => (Replies.format_error (exception_text e), queue')
  end.

End Handle.

End CommandHandler.

(** The reader of a connection, as [asyncio.start_server] makes it when
    no limit is passed: [readline] with the default limit of 64 KiB. *)
Module StreamReader.

Definition _DEFAULT_LIMIT : N := 65536.

(** [buffer.find(b"\n")]: the position of the first line feed. *)
Fixpoint find (buffer : bytes) : option nat :=
  match buffer with
  | [] => None
  | b :: rest =>
      if Byte.eqb b x0a then Some 0 else option_map S (find rest)
  end.

(** [readline] on the bytes that the peer sends before it closes the
    connection: the line, its line feed included, and the bytes after
    it; at the end of the stream, what is left (no byte when nothing is).
    A line whose line feed lies beyond the limit, or more bytes than the
    limit without a line feed, raise [ValueError]. *)
Definition readline (buffer : bytes) : result (bytes * bytes) :=
  match find buffer with
  | Some isep =>
      if (_DEFAULT_LIMIT <? N.of_nat isep)%N then
        Raise (ValueError "Separator is found, but chunk is longer than limit")
      else Ok (firstn (S isep) buffer, skipn (S isep) buffer)
  | None =>
      if (_DEFAULT_LIMIT <? N.of_nat (List.length buffer))%N then
        Raise (ValueError "Separator is not found, and chunk exceed the limit")
      else Ok (buffer, [])
  end.

End StreamReader.

(** One connection of [PyQueueServer._handle_client], while the server
    runs. *)
Module PyQueueServer.

(** How a turn of the loop ends. *)
Inductive action : Type :=
| Stop                    (* [break]: [readline] returned no byte *)
| Skip                    (* [continue]: nothing is written *)
| Reply (data : bytes)    (* [writer.write(data)] *)
| Abort (e : exn).        (* an exception that leaves the loop *)

Section Serve.

Variable unicode_upper : Z -> pystr.
Variable exception_text : exn -> pystr.

(** The body of the inner [try]: [None] is the [continue] of a blank
    line, else the response. *)
Definition respond (queue : PersistentQueue.t) (line : bytes)
  : result (option pystr * PersistentQueue.t) :=
  (text <- Utf8.decode line ;;
   let line_str := Protocol.strip text in
   match line_str with
   | [] => Ok (None, queue)
   | _ :: _ =>
       cmd <- Protocol.parse_command unicode_upper line_str ;;
       let (response, queue') :=
         CommandHandler.handle exception_text queue cmd in
       Ok (Some response, queue')
   end)%py.

(** [writer.write(response.encode("utf-8"))]. *)
Definition write_response (response : pystr) (queue : PersistentQueue.t)
  : action * PersistentQueue.t :=
  match Utf8.encode response with
  | Ok data => (Reply data, queue)
  | Raise e => (Abort e, queue)
  end.

(** One turn of the loop, from the line read to the response
    written. *)
Definition turn (queue : PersistentQueue.t) (line : bytes)
  : action * PersistentQueue.t :=
  match line with
  | [] => (Stop, queue)
  | _ :: _ =>
      match respond queue line with
      | Ok (None, queue') => (Skip, queue')
      | Ok (Some response, queue') => write_response response queue'
      | Raise (ProtocolError msg) =>
          write_response (Replies.format_error msg) queue
      | Raise UnicodeDecodeError =>
          write_response (Replies.format_error (str "Invalid UTF-8 encoding"))
            queue
      | Raise e => (Abort e, queue)
      end
  end.

(** The loop, iterated at most [fuel] times, on the bytes that the client
    sends before it closes the connection: what is written to the client,
    in order, and the queue when the loop is left.  An exception of
    [readline] is raised outside the inner [try]: it leaves the loop, as
    an exception of [writer.write] does, and the connection is closed. *)
Fixpoint _handle_client_loop (fuel : nat) (queue : PersistentQueue.t)
    (buffer : bytes) : list bytes * PersistentQueue.t :=
  match fuel with
  | O => ([], queue)
  | S fuel' =>
      match StreamReader.readline buffer with
      | Raise _ => ([], queue)
      | Ok (line, buffer') =>
          match turn queue line with
          | (Stop, queue') => ([], queue')
          | (Skip, queue') => _handle_client_loop fuel' queue' buffer'
          | (Reply data, queue') =>
              let (written, queue'') :=
                _handle_client_loop fuel' queue' buffer' in
              (data :: written, queue'')
          | (Abort _, queue') => ([], queue')
          end
      end
  end.

(** [_handle_client], run until the loop is left.  Every turn that goes
    on has read at least one byte, so one more turn than the client
    sends bytes is enough ([handle_client_fuel] below). *)
Definition _handle_client (queue : PersistentQueue.t) (buffer : bytes)
  : list bytes * PersistentQueue.t :=
  _handle_client_loop (S (List.length buffer)) queue buffer.

End Serve.

End PyQueueServer.

(** ** The client *)

Module PyQueueClient.

(** What a call of the client raises: its own [PyQueueError], or an
    exception of the classes above. *)
Inductive raised : Type :=
| PyQueueError (msg : pystr)
| Builtin (e : exn).

Inductive answer (A : Type) : Type :=
| Returned (a : A)
| Raised (e : raised).
Arguments Returned {A} a.
Arguments Raised {A} e.

(** A connected socket: the bytes sent so far, and the bytes that the
    broker writes before it closes the connection and that have not been
    received yet. *)
Record socket : Type := mk_socket {
  sent : bytes;
  incoming : bytes
}.

Record t : Type := mk {
  _socket : option socket
}.

Definition _send (self : t) (data : pystr) : answer unit * t :=
  match _socket self with
  | None => (Raised (PyQueueError (str "Not connected")), self)
  | Some s =>
      match Utf8.encode data with
      | Raise e => (Raised (Builtin e), self)
      | Ok b =>
          (Returned tt,
           {| _socket := Some {| sent := sent s ++ b; incoming := incoming s |} |})
      end
  end.

(** The loop of [_receive]: one byte at a time, until a line feed has
    been received ([Some] of the line and of what is left to receive) or
    the broker has closed the connection ([None]). *)
Fixpoint _receive_loop (incoming data : bytes) : option (bytes * bytes) :=
  match incoming with
  | [] => None
  | chunk :: rest =>
      if Byte.eqb chunk x0a then Some (data ++ [chunk], rest)
      else _receive_loop rest (data ++ [chunk])
  end.

Definition _receive (self : t) : answer pystr * t :=
  match _socket self with
  | None => (Raised (PyQueueError (str "Not connected")), self)
  | Some s =>
      match _receive_loop (incoming s) [] with
      | None =>
          (Raised (PyQueueError (str "Connection closed by broker")),
           {| _socket := Some {| sent := sent s; incoming := [] |} |})
      | Some (data, rest) =>
          let self' := {| _socket := Some {| sent := sent s; incoming := rest |} |} in
          match Utf8.decode data with
          | Ok text => (Returned text, self')
          | Raise e => (Raised (Builtin e), self')
          end
      end
  end.

(** [s.startswith(prefix)]. *)
Definition startswith (s prefix : pystr) : bool :=
  pystr_eqb (firstn (List.length prefix) s) prefix.

Definition push (self : t) (message : pystr) : answer bool * t :=
  if existsb (Z.eqb 10) message then
    (Raised (Builtin (ValueError "Message cannot contain newlines")), self)
  else
    let (r, self1) := _send self (str "PUSH " ++ message ++ [10%Z]) in
    match r with
    | Raised e => (Raised e, self1)
    | Returned _ =>
        let (r', self2) := _receive self1 in
        match r' with
        | Raised e => (Raised e, self2)
        | Returned response =>
            if startswith response (str "OK") then (Returned true, self2)
            else if startswith response (str "ERR") then
              (Raised (PyQueueError (Protocol.strip (skipn 4 response))), self2)
            else
              (Raised (PyQueueError (str "Unexpected response: " ++ response)),
               self2)
        end
    end.

(** [Returned None] is the [None] of an empty queue. *)
Definition pull (self : t) (consumer_id : pystr) : answer (option pystr) * t :=
  let (r, self1) := _send self (str "PULL " ++ consumer_id ++ [10%Z]) in
  match r with
  | Raised e => (Raised e, self1)
  | Returned _ =>
      let (r', self2) := _receive self1 in
      match r' with
      | Raised e => (Raised e, self2)
      | Returned response =>
          if startswith response (str "MSG ") then
            (Returned (Some (Protocol.strip (skipn 4 response))), self2)
          else if startswith response (str "EMPTY") then (Returned None, self2)
          else if startswith response (str "ERR") then
            (Raised (PyQueueError (Protocol.strip (skipn 4 response))), self2)
          else
            (Raised (PyQueueError (str "Unexpected response: " ++ response)),
             self2)
      end
  end.

End PyQueueClient.

(** ** Vocabulary of the statements about the broker and the client *)

(** One of the four replies of the protocol. *)
Definition is_reply (response : pystr) : Prop :=
  response = Replies.format_ok
  \/ response = Replies.format_empty
  \/ (exists message, response = Replies.format_msg message)
  \/ (exists reason, response = Replies.format_error reason).

(** A client connected over a socket. *)
Definition connected (sent incoming : bytes) : PyQueueClient.t :=
  {| PyQueueClient._socket :=
       Some {| PyQueueClient.sent := sent; PyQueueClient.incoming := incoming |} |}.

(** The text has a line feed. *)
Definition has_newline (s : pystr) : bool := existsb (Z.eqb 10) s.

(** The text has a character that is no whitespace. *)
Definition not_blank (s : pystr) : Prop := Protocol.rstrip s <> [].

(** A line as the reader of the server accepts it: bytes without a line
    feed, no more than the limit, then a line feed. *)
Definition is_line (line : bytes) : Prop :=
  exists body,
    line = body ++ [x0a]
    /\ Forall (fun b => b <> x0a) body
    /\ (N.of_nat (List.length body) <= StreamReader._DEFAULT_LIMIT)%N.

(** The line decodes to whitespace only. *)
Definition is_blank_line (line : bytes) : bool :=
  match Utf8.decode line with
  | Ok text =>
      match Protocol.strip text with
      | [] => true
      | _ :: _ => false
      end
  | Raise _ => false
  end.

(* ================================================================== *)
(** * Part II.  Properties                                             *)
(* ================================================================== *)

(** [lia] is to see through division and remainder by constants. *)
Ltac Zify.zify_post_hook ::= Z.to_euclidean_division_equations.

(** ** Lists *)

Lemma firstn_length_app {A} (l r : list A) : firstn (List.length l) (l ++ r) = l.
Proof.
  induction l as [|x l IH]; simpl; [reflexivity | now rewrite IH].
Qed.

Lemma skipn_length_app {A} (l r : list A) : skipn (List.length l) (l ++ r) = r.
Proof.
  induction l as [|x l IH]; simpl; [reflexivity | exact IH].
Qed.

Lemma skipn_nth_cons {A} (l : list A) (i : nat) (x : A) :
  nth_error l i = Some x -> skipn i l = x :: skipn (S i) l.
Proof.
  revert i. induction l as [|y l IH]; intros [|i] H; try discriminate.
  - injection H as ->. reflexivity.
  - simpl in H. rewrite skipn_cons, (IH _ H). reflexivity.
Qed.

(** ** The length header *)

Lemma to_N_byte_of_N (n : N) : Byte.to_N (Struct.byte_of_N n) = (n mod 256)%N.
Proof.
  unfold Struct.byte_of_N.
  destruct (Byte.of_N (n mod 256)) as [b|] eqn:E.
  - now apply Byte.to_of_N.
  - apply Byte.of_N_None_iff in E.
    pose proof (N.mod_upper_bound n 256). lia.
Qed.

Lemma be32_length (n : N) : List.length (Struct.be32 n) = 4.
Proof. reflexivity. Qed.

Lemma unpack_be32 (n : N) :
  (n < 4294967296)%N -> Struct.unpack_u32 (Struct.be32 n) = Ok n.
Proof.
  intros Hn. unfold Struct.be32, Struct.unpack_u32.
  rewrite !to_N_byte_of_N. f_equal. lia.
Qed.

Lemma pack_u32_Ok (n : N) :
  (n < 4294967296)%N -> Struct.pack_u32 n = Ok (Struct.be32 n).
Proof.
  intros Hn. unfold Struct.pack_u32.
  destruct (N.ltb_spec n 4294967296); [reflexivity | lia].
Qed.

Lemma pack_u32_inv (n : N) (h : bytes) :
  Struct.pack_u32 n = Ok h -> (n < 4294967296)%N /\ h = Struct.be32 n.
Proof.
  unfold Struct.pack_u32.
  destruct (N.ltb_spec n 4294967296); [|discriminate].
  intros [= <-]. now split.
Qed.

Lemma unpack_u32_bound (h : bytes) (n : N) :
  Struct.unpack_u32 h = Ok n -> (n < 4294967296)%N /\ h = Struct.be32 n.
Proof.
  destruct h as [|b3 [|b2 [|b1 [|b0 [|? ?]]]]]; try discriminate.
  intros [= <-].
  pose proof (Byte.to_N_bounded b3). pose proof (Byte.to_N_bounded b2).
  pose proof (Byte.to_N_bounded b1). pose proof (Byte.to_N_bounded b0).
  split; [lia|].
  unfold Struct.be32.
  assert (forall b m, (m mod 256 = Byte.to_N b)%N -> Struct.byte_of_N m = b) as K.
  { intros b m E. unfold Struct.byte_of_N. rewrite E, Byte.of_to_N. reflexivity. }
  repeat f_equal; symmetry; apply K; lia.
Qed.

(** ** Reading a file *)

Arguments File.read : simpl never.

Lemma read_eq (n : N) (f : File.handle) :
  File.read n f = (firstn (N.to_nat n) f, skipn (N.to_nat n) f).
Proof.
  unfold File.read.
  destruct (N.min_spec n (N.of_nat (List.length f))) as [[H ->]|[H ->]].
  - reflexivity.
  - rewrite Nnat.Nat2N.id.
    rewrite firstn_all, skipn_all.
    rewrite firstn_all2, skipn_all2 by lia. reflexivity.
Qed.

Lemma read_exact (l r : bytes) :
  File.read (N.of_nat (List.length l)) (l ++ r) = (l, r).
Proof.
  rewrite read_eq, Nnat.Nat2N.id.
  now rewrite firstn_length_app, skipn_length_app.
Qed.

Lemma read_length (n : N) (f : File.handle) :
  List.length (fst (File.read n f)) = Nat.min (N.to_nat n) (List.length f).
Proof. rewrite read_eq. simpl. apply length_firstn. Qed.

Lemma read_split (n : N) (f : File.handle) :
  fst (File.read n f) ++ snd (File.read n f) = f.
Proof. rewrite read_eq. apply firstn_skipn. Qed.

(** Four bytes read in full are the first four bytes of the handle. *)
Lemma read_header (f header rest : bytes) :
  File.read (N.of_nat AppendLog.HEADER_SIZE) f = (header, rest) ->
  (List.length header <? AppendLog.HEADER_SIZE) = false ->
  exists b3 b2 b1 b0, header = [b3; b2; b1; b0] /\ f = b3 :: b2 :: b1 :: b0 :: rest.
Proof.
  rewrite read_eq. cbn [AppendLog.HEADER_SIZE N.of_nat N.to_nat].
  intros [= <- <-] H. apply Nat.ltb_ge in H. unfold AppendLog.HEADER_SIZE in H.
  destruct f as [|b3 [|b2 [|b1 [|b0 f]]]]; simpl in H; try lia.
  now exists b3, b2, b1, b0.
Qed.

Lemma read_short_header (f : bytes) :
  List.length f < 4 ->
  File.read (N.of_nat AppendLog.HEADER_SIZE) f = (f, []).
Proof.
  intros H. rewrite read_eq. cbn [AppendLog.HEADER_SIZE N.of_nat N.to_nat].
  rewrite firstn_all2, skipn_all2 by (simpl; lia). reflexivity.
Qed.

(** ** The append-only log *)

Lemma init_log_wf (existing : bytes) : log_wf (AppendLog.init existing).
Proof. reflexivity. Qed.

Lemma append_Ok (self : AppendLog.t) (data : bytes) :
  Framing.fits data ->
  AppendLog.append self data =
    Ok (AppendLog._write_offset self,
        AppendLog.mk (AppendLog.file self ++ Framing.frame data)
          (AppendLog._write_offset self
           + (AppendLog.HEADER_SIZE + List.length data))).
Proof.
  intros H. unfold AppendLog.append. now rewrite pack_u32_Ok.
Qed.

Lemma append_inv (self self' : AppendLog.t) (data : bytes) (offset : nat) :
  AppendLog.append self data = Ok (offset, self') ->
  Framing.fits data
  /\ offset = AppendLog._write_offset self
  /\ AppendLog.file self' = AppendLog.file self ++ Framing.frame data
  /\ AppendLog._write_offset self'
     = AppendLog._write_offset self + (AppendLog.HEADER_SIZE + List.length data).
Proof.
  unfold AppendLog.append.
  destruct (Struct.pack_u32 _) as [h|e] eqn:E; [|discriminate].
  apply pack_u32_inv in E as [Hn ->]. simpl. intros [= <- <-]. simpl.
  repeat split. exact Hn.
Qed.

Lemma append_Raise (self : AppendLog.t) (data : bytes) :
  ~ Framing.fits data -> AppendLog.append self data = Raise StructError.
Proof.
  intros H. unfold AppendLog.append, Struct.pack_u32, Framing.fits in *.
  destruct (N.ltb_spec (N.of_nat (List.length data)) 4294967296); [tauto|reflexivity].
Qed.

Lemma frame_length (data : bytes) :
  List.length (Framing.frame data) = AppendLog.HEADER_SIZE + List.length data.
Proof. unfold Framing.frame. now rewrite length_app. Qed.

Lemma append_wf (self self' : AppendLog.t) (data : bytes) (offset : nat) :
  log_wf self ->
  AppendLog.append self data = Ok (offset, self') ->
  log_wf self'.
Proof.
  unfold log_wf. intros Hwf H.
  apply append_inv in H as (_ & _ & Hf & Ho).
  rewrite Ho, Hf, length_app, frame_length. lia.
Qed.

(** Reading where a frame starts returns its payload, whatever precedes
    and follows the frame. *)
Lemma read_at_frame (self : AppendLog.t) (before after data : bytes) :
  Framing.fits data ->
  AppendLog.file self = before ++ Framing.frame data ++ after ->
  AppendLog.read_at self (List.length before) = Ok data.
Proof.
  intros Hfit Hfile. unfold AppendLog.read_at, File.seek.
  rewrite Hfile, skipn_length_app. unfold Framing.frame.
  rewrite <- app_assoc.
  change (N.of_nat AppendLog.HEADER_SIZE)
    with (N.of_nat (List.length (Struct.be32 (N.of_nat (List.length data))))).
  rewrite read_exact. simpl (_ <? _). cbv iota.
  rewrite unpack_be32 by exact Hfit. cbn [bind].
  rewrite read_exact. rewrite N.ltb_irrefl. reflexivity.
Qed.

(** What [read_at] returns is a whole record of the file: no partial
    result. *)
Lemma read_at_Ok_inv (self : AppendLog.t) (offset : nat) (data : bytes) :
  AppendLog.read_at self offset = Ok data ->
  Framing.fits data
  /\ exists after,
       skipn offset (AppendLog.file self) = Framing.frame data ++ after.
Proof.
  unfold AppendLog.read_at, File.seek.
  destruct (File.read (N.of_nat AppendLog.HEADER_SIZE) _) as [header f] eqn:Eh.
  destruct (List.length header <? AppendLog.HEADER_SIZE) eqn:El; [discriminate|].
  destruct (read_header _ _ _ Eh El) as (b3 & b2 & b1 & b0 & -> & Hf).
  destruct (Struct.unpack_u32 _) as [n|e] eqn:Eu; [|discriminate].
  cbn [bind].
  destruct (File.read n f) as [d f'] eqn:Ed.
  destruct (N.ltb_spec (N.of_nat (List.length d)) n) as [|Hge]; [discriminate|].
  intros [= ->].
  apply unpack_u32_bound in Eu as [Hn Hb].
  pose proof (read_length n f) as Hl. pose proof (read_split n f) as Hs.
  rewrite Ed in Hl, Hs. simpl in Hl, Hs.
  assert (n = N.of_nat (List.length data)) as -> by lia.
  split; [exact Hn|]. exists f'.
  rewrite Hf. unfold Framing.frame. rewrite <- Hb, <- Hs. reflexivity.
Qed.

Lemma replay_loop_frame (fuel : nat) (data rest : bytes) (offset : nat) :
  Framing.fits data ->
  AppendLog.replay_loop (S fuel) (Framing.frame data ++ rest) offset =
    (offset, data)
      :: AppendLog.replay_loop fuel rest
           (offset + (AppendLog.HEADER_SIZE + List.length data)).
Proof.
  intros Hfit. cbn [AppendLog.replay_loop]. unfold Framing.frame.
  rewrite <- app_assoc.
  change (N.of_nat AppendLog.HEADER_SIZE)
    with (N.of_nat (List.length (Struct.be32 (N.of_nat (List.length data))))).
  rewrite read_exact. simpl (_ =? _). simpl (_ <? _). cbv iota.
  rewrite unpack_be32 by exact Hfit.
  rewrite read_exact, N.ltb_irrefl, Nnat.Nat2N.id. reflexivity.
Qed.

Lemma replay_loop_fragment (fuel : nat) (b : bytes) (offset : nat) :
  Framing.is_fragment b = true ->
  AppendLog.replay_loop fuel b offset = [].
Proof.
  intros H. destruct fuel as [|fuel]; [reflexivity|].
  cbn [AppendLog.replay_loop].
  destruct b as [|b3 [|b2 [|b1 [|b0 payload]]]];
    try (rewrite read_short_header by (simpl; lia); reflexivity).
  change (b3 :: b2 :: b1 :: b0 :: payload) with ([b3; b2; b1; b0] ++ payload).
  change (N.of_nat AppendLog.HEADER_SIZE)
    with (N.of_nat (List.length [b3; b2; b1; b0])).
  rewrite read_exact. simpl (_ =? _). simpl (_ <? _). cbv iota.
  cbn [Framing.is_fragment app] in H.
  destruct (Struct.unpack_u32 [b3; b2; b1; b0]) as [n|e]; [|reflexivity].
  destruct (File.read n payload) as [d f] eqn:Ed.
  pose proof (read_length n payload) as Hl. rewrite Ed in Hl. simpl in Hl.
  apply N.ltb_lt in H.
  destruct (N.ltb_spec (N.of_nat (List.length d)) n); [reflexivity | lia].
Qed.

Lemma frames_cons (data : bytes) (records : list bytes) :
  Framing.frames (data :: records) = Framing.frame data ++ Framing.frames records.
Proof. reflexivity. Qed.

Lemma frames_app (r1 r2 : list bytes) :
  Framing.frames (r1 ++ r2) = Framing.frames r1 ++ Framing.frames r2.
Proof. unfold Framing.frames. now rewrite map_app, concat_app. Qed.

Lemma replay_loop_frames (records : list bytes) :
  Forall Framing.fits records ->
  forall (fuel : nat) (rest : bytes) (offset : nat),
    List.length records <= fuel ->
    AppendLog.replay_loop fuel (Framing.frames records ++ rest) offset =
      Framing.frames_at offset records
        ++ AppendLog.replay_loop (fuel - List.length records) rest
             (offset + List.length (Framing.frames records)).
Proof.
  induction 1 as [|data records Hfit _ IH]; intros fuel rest offset Hfuel.
  - simpl. now rewrite Nat.sub_0_r, Nat.add_0_r.
  - destruct fuel as [|fuel]; [simpl in Hfuel; lia|].
    rewrite frames_cons, <- app_assoc, replay_loop_frame by exact Hfit.
    rewrite IH by (simpl in Hfuel; lia).
    cbn [Framing.frames_at app List.length Nat.sub].
    do 3 f_equal. rewrite length_app, frame_length. lia.
Qed.

Lemma frames_length_ge (records : list bytes) :
  List.length records <= List.length (Framing.frames records).
Proof.
  induction records as [|d records IH]; [simpl; lia|].
  rewrite frames_cons, length_app, frame_length.
  unfold AppendLog.HEADER_SIZE. simpl. lia.
Qed.

(** More iterations than the file has bytes never change what [replay_loop]
    yields: the bound in [replay] does not cut the loop short. *)
Lemma replay_loop_fuel (fuel1 : nat) :
  forall (fuel2 : nat) (f : bytes) (offset : nat),
    List.length f < fuel1 -> List.length f < fuel2 ->
    AppendLog.replay_loop fuel1 f offset = AppendLog.replay_loop fuel2 f offset.
Proof.
  induction fuel1 as [|fuel1 IH]; intros fuel2 f offset H1 H2; [lia|].
  destruct fuel2 as [|fuel2]; [lia|].
  cbn [AppendLog.replay_loop].
  destruct (File.read (N.of_nat AppendLog.HEADER_SIZE) f) as [header f1] eqn:Eh.
  destruct (List.length header =? 0); [reflexivity|].
  destruct (List.length header <? AppendLog.HEADER_SIZE) eqn:El; [reflexivity|].
  destruct (read_header _ _ _ Eh El) as (b3 & b2 & b1 & b0 & -> & ->).
  destruct (Struct.unpack_u32 _) as [n|e]; [|reflexivity].
  destruct (File.read n f1) as [d f2] eqn:Ed.
  destruct (N.of_nat (List.length d) <? n)%N; [reflexivity|].
  pose proof (read_split n f1) as Hs. rewrite Ed in Hs. simpl in Hs.
  assert (List.length f2 <= List.length f1)
    by (rewrite <- Hs, length_app; lia).
  simpl in H1, H2.
  f_equal. apply IH; lia.
Qed.

(** *** Claims about the log *)

(** C4.  A log file made of [k] fully written records followed by a
    trailing fragment (fewer than four header bytes, none at all, or a
    header with less payload than it declares) replays to exactly the [k]
    records, each with the offset of its frame, in file order; nothing is
    yielded for the fragment. *)
Theorem C4_replay_truncation_prefix
    (self : AppendLog.t) (records : list bytes) (fragment : bytes) :
  Forall Framing.fits records ->
  Framing.is_fragment fragment = true ->
  AppendLog.file self = Framing.frames records ++ fragment ->
  AppendLog.replay self = Framing.frames_at 0 records.
Proof.
  intros Hfits Hfrag Hfile. unfold AppendLog.replay, File.open_rb.
  rewrite Hfile, replay_loop_frames.
  - rewrite replay_loop_fragment by exact Hfrag. apply app_nil_r.
  - exact Hfits.
  - rewrite length_app. pose proof (frames_length_ge records). lia.
Qed.

Lemma C4_replay_truncation_prefix_witness :
  let records := [[x68; x69]; []; [x21]] in
  let fragment := [x00; x00; x00; x05; x61; x62] in
  Forall Framing.fits records
  /\ Framing.is_fragment fragment = true
  /\ AppendLog.replay (AppendLog.init (Framing.frames records ++ fragment))
     = [(0, [x68; x69]); (6, []); (10, [x21])].
Proof.
  intros records fragment.
  assert (Hfits : Forall Framing.fits records)
    by (repeat constructor; vm_compute; reflexivity).
  assert (Hfrag : Framing.is_fragment fragment = true) by reflexivity.
  split; [exact Hfits | split; [exact Hfrag |]].
  exact (C4_replay_truncation_prefix
           (AppendLog.init (Framing.frames records ++ fragment))
           records fragment Hfits Hfrag eq_refl).
Defined.

(** C5.  A payload of any size from 0 bytes up to the bound of the 4-byte
    length field is appended successfully, and reading at the offset
    [append] returned gives back the same bytes. *)
Theorem C5_append_read_at_roundtrip (self : AppendLog.t) (data : bytes) :
  log_wf self ->
  Framing.fits data ->
  exists (offset : nat) (self' : AppendLog.t),
    AppendLog.append self data = Ok (offset, self')
    /\ AppendLog.read_at self' offset = Ok data.
Proof.
  intros Hwf Hfit. eexists _, _. split.
  - apply append_Ok, Hfit.
  - rewrite Hwf. apply read_at_frame with (after := []); [exact Hfit|].
    simpl. now rewrite app_nil_r.
Qed.

Lemma C5_append_read_at_roundtrip_witness :
  let self := AppendLog.init [x00; x00; x00; x01; x41; xff] in
  let data := [x70; x79] in
  log_wf self /\ Framing.fits data
  /\ exists offset self',
       AppendLog.append self data = Ok (offset, self')
       /\ AppendLog.read_at self' offset = Ok data.
Proof.
  intros self data.
  assert (Hwf : log_wf self) by reflexivity.
  assert (Hfit : Framing.fits data) by (vm_compute; reflexivity).
  split; [exact Hwf | split; [exact Hfit |]].
  exact (C5_append_read_at_roundtrip self data Hwf Hfit).
Defined.

(** C7.  Wherever the bytes from [offset] on do not hold a complete 4-byte
    header followed by the whole payload the header declares, [read_at]
    raises [ValueError]; and whatever [read_at] returns is the whole
    payload of a record that is in the file at [offset], never a shorter
    byte string than declared. *)
Theorem C7_read_at_incomplete_raises (self : AppendLog.t) (offset : nat) :
  (Framing.has_record_at (AppendLog.file self) offset = false ->
   exists msg, AppendLog.read_at self offset = Raise (ValueError msg))
  /\ (forall data,
        AppendLog.read_at self offset = Ok data ->
        exists after,
          skipn offset (AppendLog.file self) = Framing.frame data ++ after).
Proof.
  split; [|intros data H; now apply read_at_Ok_inv in H].
  unfold Framing.has_record_at, AppendLog.read_at, File.seek.
  intros H. apply negb_false_iff in H.
  destruct (skipn offset (AppendLog.file self))
    as [|b3 [|b2 [|b1 [|b0 payload]]]];
    try (rewrite read_short_header by (simpl; lia); simpl; eauto).
  change (b3 :: b2 :: b1 :: b0 :: payload) with ([b3; b2; b1; b0] ++ payload).
  change (N.of_nat AppendLog.HEADER_SIZE)
    with (N.of_nat (List.length [b3; b2; b1; b0])).
  rewrite read_exact.
  change (List.length [b3; b2; b1; b0] <? AppendLog.HEADER_SIZE) with false.
  cbv iota. cbn [Framing.is_fragment app] in H.
  destruct (Struct.unpack_u32 [b3; b2; b1; b0]) as [n|e]; [|discriminate].
  cbn [bind].
  destruct (File.read n payload) as [d f] eqn:Ed.
  pose proof (read_length n payload) as Hl. rewrite Ed in Hl. simpl in Hl.
  apply N.ltb_lt in H.
  destruct (N.ltb_spec (N.of_nat (List.length d)) n); [eauto | lia].
Qed.

Lemma C7_read_at_incomplete_raises_witness :
  let self := AppendLog.init [x00; x00; x00; x01; x41; x00; x00; x00; x03; x42] in
  Framing.has_record_at (AppendLog.file self) 5 = false
  /\ exists msg, AppendLog.read_at self 5 = Raise (ValueError msg).
Proof.
  intros self.
  assert (H : Framing.has_record_at (AppendLog.file self) 5 = false)
    by reflexivity.
  split; [exact H |].
  exact (proj1 (C7_read_at_incomplete_raises self 5) H).
Defined.

(** ** UTF-8 *)

Lemma Z_of_byte_of_Z (z : Z) :
  (0 <= z < 256)%Z -> Utf8.Z_of_byte (Utf8.byte_of_Z z) = z.
Proof.
  intros H. unfold Utf8.Z_of_byte, Utf8.byte_of_Z.
  rewrite to_N_byte_of_N. lia.
Qed.

Lemma is_scalar_spec (c : Z) :
  is_scalar c = true <->
  ((0 <= c < 0xD800)%Z \/ (0xDFFF < c <= 0x10FFFF)%Z).
Proof.
  unfold is_scalar, is_code_point, is_surrogate.
  rewrite !andb_true_iff, negb_true_iff, andb_false_iff, !Z.leb_le, !Z.leb_gt.
  lia.
Qed.

Lemma encode_cp_scalar (c : Z) :
  is_scalar c = true <-> exists bs, Utf8.encode_cp c = Some bs.
Proof.
  rewrite is_scalar_spec. unfold Utf8.encode_cp, is_surrogate.
  repeat match goal with
         | |- context [(?a <? ?b)%Z] => destruct (Z.ltb_spec a b)
         | |- context [(?a <=? ?b)%Z] => destruct (Z.leb_spec a b)
         end; cbn [andb];
    (split; [intros; eauto; lia | intros [bs E]; try discriminate; lia]).
Qed.

(** Settle the comparisons of the goal that linear arithmetic decides. *)
Ltac settle_test :=
  match goal with
  | |- context [(?a <? ?b)%Z] =>
      first [ rewrite (proj2 (Z.ltb_lt a b)) by lia
            | rewrite (proj2 (Z.ltb_ge a b)) by lia ]
  | |- context [(?a <=? ?b)%Z] =>
      first [ rewrite (proj2 (Z.leb_le a b)) by lia
            | rewrite (proj2 (Z.leb_gt a b)) by lia ]
  | |- context [(?a =? ?b)%Z] =>
      first [ rewrite (proj2 (Z.eqb_eq a b)) by lia
            | rewrite (proj2 (Z.eqb_neq a b)) by lia ]
  end.

Ltac decide_tests := repeat (settle_test; cbn [andb orb negb]; cbv iota).

Lemma Some_inj {A} (a b : A) : Some a = Some b -> a = b.
Proof. congruence. Qed.

Ltac byte_range := repeat (apply Forall_cons; [lia|]); apply Forall_nil.

(** The decoder on a well-formed sequence of one, two, three and four
    bytes. *)
Lemma decode_Z_1 (b0 : Z) (t : list Z) :
  (b0 < 0x80)%Z ->
  Utf8.decode_Z (b0 :: t) = (s <- Utf8.decode_Z t ;; Ok (b0 :: s))%py.
Proof.
  intros H. cbn [Utf8.decode_Z]. decide_tests. reflexivity.
Qed.

Lemma decode_Z_2 (b0 b1 : Z) (t : list Z) :
  (0xC2 <= b0 <= 0xDF)%Z -> (0x80 <= b1 <= 0xBF)%Z ->
  Utf8.decode_Z (b0 :: b1 :: t)
  = (s <- Utf8.decode_Z t ;; Ok (((b0 - 0xC0) * 64 + (b1 - 0x80))%Z :: s))%py.
Proof.
  intros H0 H1. cbn [Utf8.decode_Z].
  unfold Utf8.continuation, Utf8.between. decide_tests. reflexivity.
Qed.

Lemma decode_Z_3 (b0 b1 b2 : Z) (t : list Z) :
  (0xE0 <= b0 <= 0xEF)%Z -> (0x80 <= b1 <= 0xBF)%Z ->
  (b0 = 0xE0 -> 0xA0 <= b1)%Z -> (b0 = 0xED -> b1 <= 0x9F)%Z ->
  (0x80 <= b2 <= 0xBF)%Z ->
  Utf8.decode_Z (b0 :: b1 :: b2 :: t)
  = (s <- Utf8.decode_Z t ;;
     Ok (((b0 - 0xE0) * 4096 + (b1 - 0x80) * 64 + (b2 - 0x80))%Z :: s))%py.
Proof.
  intros H0 H1 Hlo Hhi H2. cbn [Utf8.decode_Z].
  unfold Utf8.continuation, Utf8.between.
  destruct (Z.eqb_spec b0 0xE0); destruct (Z.eqb_spec b0 0xED);
    try (exfalso; lia); decide_tests; reflexivity.
Qed.

Lemma decode_Z_4 (b0 b1 b2 b3 : Z) (t : list Z) :
  (0xF0 <= b0 <= 0xF4)%Z -> (0x80 <= b1 <= 0xBF)%Z ->
  (b0 = 0xF0 -> 0x90 <= b1)%Z -> (b0 = 0xF4 -> b1 <= 0x8F)%Z ->
  (0x80 <= b2 <= 0xBF)%Z -> (0x80 <= b3 <= 0xBF)%Z ->
  Utf8.decode_Z (b0 :: b1 :: b2 :: b3 :: t)
  = (s <- Utf8.decode_Z t ;;
     Ok (((b0 - 0xF0) * 262144 + (b1 - 0x80) * 4096
          + (b2 - 0x80) * 64 + (b3 - 0x80))%Z :: s))%py.
Proof.
  intros H0 H1 Hlo Hhi H2 H3. cbn [Utf8.decode_Z].
  unfold Utf8.continuation, Utf8.between.
  destruct (Z.eqb_spec b0 0xF0); destruct (Z.eqb_spec b0 0xF4);
    try (exfalso; lia); decide_tests; reflexivity.
Qed.

Lemma bind_cons_eq (r : result pystr) (a b : Z) :
  a = b -> (s <- r ;; Ok (a :: s))%py = (s <- r ;; Ok (b :: s))%py.
Proof. now intros ->. Qed.

(** One encoded code point in front of any bytes decodes to that code
    point in front of what the bytes decode to. *)
Lemma decode_encode_cp (c : Z) (bs : list Z) :
  Utf8.encode_cp c = Some bs ->
  Forall (fun b => 0 <= b < 256)%Z bs
  /\ forall t, Utf8.decode_Z (bs ++ t)
              = (s <- Utf8.decode_Z t ;; Ok (c :: s))%py.
Proof.
  unfold Utf8.encode_cp, is_surrogate.
  destruct (Z.ltb_spec c 0); [discriminate|].
  destruct (Z.ltb_spec c 0x80).
  { intros E; apply Some_inj in E; subst bs. split; [byte_range|].
    intros t. cbn [app]. now rewrite decode_Z_1. }
  destruct (Z.ltb_spec c 0x800).
  { intros E; apply Some_inj in E; subst bs. split; [byte_range|].
    intros t. cbn [app]. rewrite decode_Z_2 by lia.
    apply bind_cons_eq. lia. }
  destruct (Z.ltb_spec c 0x10000).
  { destruct (Z.leb_spec 0xD800 c); destruct (Z.leb_spec c 0xDFFF);
      cbn [andb]; try discriminate;
      (intros E; apply Some_inj in E; subst bs; split; [byte_range|];
       intros t; cbn [app]; rewrite decode_Z_3 by lia;
       apply bind_cons_eq; lia). }
  destruct (Z.ltb_spec c 0x110000); [|discriminate].
  intros E; apply Some_inj in E; subst bs. split; [byte_range|].
  intros t. cbn [app]. rewrite decode_Z_4 by lia.
  apply bind_cons_eq. lia.
Qed.

Lemma map_Z_of_byte_of_Z (bs : list Z) :
  Forall (fun b => 0 <= b < 256)%Z bs ->
  map Utf8.Z_of_byte (map Utf8.byte_of_Z bs) = bs.
Proof.
  induction 1 as [|b bs Hb _ IH]; simpl; [reflexivity|].
  now rewrite Z_of_byte_of_Z, IH.
Qed.

(** Decoding inverts encoding. *)
Lemma decode_encode (s : pystr) (b : bytes) :
  Utf8.encode s = Ok b -> Utf8.decode b = Ok s.
Proof.
  revert b. induction s as [|c s IH]; intros b; cbn [Utf8.encode].
  - intros [= <-]. reflexivity.
  - destruct (Utf8.encode_cp c) as [bs|] eqn:Ec; [|discriminate].
    destruct (Utf8.encode s) as [rest|e]; cbn [bind]; [|discriminate].
    intros [= <-]. unfold Utf8.decode.
    destruct (decode_encode_cp c bs Ec) as [Hr Hd].
    rewrite map_app, map_Z_of_byte_of_Z by exact Hr.
    rewrite Hd. specialize (IH rest eq_refl). unfold Utf8.decode in IH.
    now rewrite IH.
Qed.

(** Text (no surrogate, every code point in range) always encodes. *)
Lemma encode_text (s : pystr) :
  is_text s = true -> exists b, Utf8.encode s = Ok b.
Proof.
  induction s as [|c s IH]; cbn [is_text forallb Utf8.encode].
  - eauto.
  - rewrite andb_true_iff. intros [Hc Hs].
    apply encode_cp_scalar in Hc as [bs ->].
    destruct (IH Hs) as [rest ->]. cbn [bind]. eauto.
Qed.

(** ** Dicts *)

Lemma pystr_eqb_refl (k : pystr) : pystr_eqb k k = true.
Proof. unfold pystr_eqb. destruct (list_eq_dec Z.eq_dec k k); congruence. Qed.

Lemma pystr_eqb_eq (a b : pystr) : pystr_eqb a b = true <-> a = b.
Proof.
  unfold pystr_eqb. destruct (list_eq_dec Z.eq_dec a b); split; congruence.
Qed.

Lemma pystr_eqb_neq (a b : pystr) : pystr_eqb a b = false <-> a <> b.
Proof.
  unfold pystr_eqb. destruct (list_eq_dec Z.eq_dec a b); split; congruence.
Qed.

Lemma dict_get_set_same (d : Dict.t) (k : pystr) (v default : Z) :
  Dict.get (Dict.set d k v) k default = v.
Proof.
  induction d as [|[k' v'] d IH]; simpl.
  - now rewrite pystr_eqb_refl.
  - destruct (pystr_eqb k' k) eqn:E; simpl; rewrite E; [reflexivity | exact IH].
Qed.

Lemma dict_get_set_other (d : Dict.t) (k k0 : pystr) (v default : Z) :
  k <> k0 -> Dict.get (Dict.set d k v) k0 default = Dict.get d k0 default.
Proof.
  intros Hne. induction d as [|[k' v'] d IH]; simpl.
  - apply pystr_eqb_neq in Hne. now rewrite Hne.
  - destruct (pystr_eqb k' k) eqn:E; simpl.
    + apply pystr_eqb_eq in E. subst k'.
      apply pystr_eqb_neq in Hne. now rewrite Hne.
    + now rewrite IH.
Qed.

Lemma dict_set_keys (d : Dict.t) (k : pystr) (v : Z) :
  map fst (Dict.set d k v)
  = if existsb (pystr_eqb k) (map fst d) then map fst d else map fst d ++ [k].
Proof.
  induction d as [|[k' v'] d IH]; simpl; [reflexivity|].
  destruct (pystr_eqb k' k) eqn:E.
  - apply pystr_eqb_eq in E. subst k'. now rewrite pystr_eqb_refl.
  - assert (pystr_eqb k k' = false) as ->.
    { apply pystr_eqb_neq. apply pystr_eqb_neq in E. congruence. }
    simpl. rewrite IH. now destruct (existsb _ _).
Qed.

Lemma existsb_pystr_eqb (k : pystr) (l : list pystr) :
  existsb (pystr_eqb k) l = true <-> In k l.
Proof.
  rewrite existsb_exists. split.
  - intros (x & Hx & E). apply pystr_eqb_eq in E. now subst.
  - intros H. exists k. split; [exact H | apply pystr_eqb_refl].
Qed.

Lemma dict_set_new (d : Dict.t) (k : pystr) (v : Z) :
  ~ In k (map fst d) -> Dict.set d k v = d ++ [(k, v)].
Proof.
  induction d as [|[k' v'] d IH]; simpl; intros H; [reflexivity|].
  destruct (pystr_eqb k' k) eqn:E.
  - apply pystr_eqb_eq in E. tauto.
  - rewrite IH by tauto. reflexivity.
Qed.

Lemma dict_set_NoDup (d : Dict.t) (k : pystr) (v : Z) :
  NoDup (map fst d) -> NoDup (map fst (Dict.set d k v)).
Proof.
  intros H. rewrite dict_set_keys.
  destruct (existsb (pystr_eqb k) (map fst d)) eqn:E; [exact H|].
  assert (~ In k (map fst d)).
  { intros Hin. apply existsb_pystr_eqb in Hin. congruence. }
  apply NoDup_app; [exact H | repeat constructor; simpl; tauto |].
  intros x Hx [<-|[]]. tauto.
Qed.

Lemma dict_set_keys_Forall (P : pystr -> Prop) (d : Dict.t) (k : pystr) (v : Z) :
  P k -> Forall P (map fst d) -> Forall P (map fst (Dict.set d k v)).
Proof.
  intros Hk H. rewrite dict_set_keys.
  destruct (existsb _ _); [exact H|].
  apply Forall_app. split; [exact H | now constructor].
Qed.

(** [dict(pairs)] of pairs with distinct keys is the pairs themselves. *)
Lemma of_pairs_NoDup (pairs : list (pystr * Z)) :
  NoDup (map fst pairs) -> Dict.of_pairs pairs = pairs.
Proof.
  unfold Dict.of_pairs.
  assert (forall acc : Dict.t,
             NoDup (map fst (acc ++ pairs)) ->
             fold_left (fun d kv => Dict.set d (fst kv) (snd kv)) pairs acc
             = acc ++ pairs) as K.
  { induction pairs as [|[k v] pairs IH]; intros acc H; simpl.
    - now rewrite app_nil_r.
    - rewrite dict_set_new.
      + rewrite IH; rewrite <- app_assoc; [reflexivity | exact H].
      + rewrite map_app in H. simpl in H.
        apply NoDup_remove_2 in H. rewrite in_app_iff in H. tauto. }
  intros H. apply (K []). exact H.
Qed.

(** ** JSON: strings *)

Lemma hex_val_hex_digit (d : Z) :
  (0 <= d < 16)%Z -> Json.hex_val (Json.hex_digit d) = Some d.
Proof.
  intros H. unfold Json.hex_val, Json.hex_digit.
  destruct (Z.ltb_spec d 10); decide_tests; f_equal; lia.
Qed.

Lemma hex4_hex_digits (n : Z) :
  (0 <= n < 65536)%Z ->
  Json.hex4 (Json.hex_digit (n / 4096)) (Json.hex_digit (n / 256 mod 16))
            (Json.hex_digit (n / 16 mod 16)) (Json.hex_digit (n mod 16))
  = Some n.
Proof.
  intros H. unfold Json.hex4.
  rewrite !hex_val_hex_digit by lia. f_equal. lia.
Qed.

Lemma scanstring_quote (rest : pystr) :
  Json.scanstring (34%Z :: rest) = Some ([], rest).
Proof. reflexivity. Qed.

Lemma scanstring_simple_escape (e ch : Z) (rest : pystr) :
  e <> 117%Z -> Json.unescape e = Some ch ->
  Json.scanstring (92%Z :: e :: rest) = Json.push_char ch (Json.scanstring rest).
Proof.
  intros He Hu. cbn [Json.scanstring].
  change (92 =? 34)%Z with false. change (92 =? 92)%Z with true. cbv iota.
  rewrite (proj2 (Z.eqb_neq e 117) He). now rewrite Hu.
Qed.

Lemma scanstring_plain (c : Z) (rest : pystr) :
  (32 <= c)%Z -> c <> 34%Z -> c <> 92%Z ->
  Json.scanstring (c :: rest) = Json.push_char c (Json.scanstring rest).
Proof.
  intros H1 H2 H3. cbn [Json.scanstring]. now decide_tests.
Qed.

(** One [\uXXXX] escape that is no high surrogate. *)
Lemma scanstring_u_escape (n : Z) (rest : pystr) :
  (0 <= n < 65536)%Z -> Utf8.between 0xD800 0xDBFF n = false ->
  Json.scanstring (Json.u_escape n ++ rest)
  = Json.push_char n (Json.scanstring rest).
Proof.
  intros Hn Hs. unfold Json.u_escape. cbn [app Json.scanstring].
  change (92 =? 34)%Z with false. change (92 =? 92)%Z with true.
  change (117 =? 117)%Z with true. cbv iota.
  rewrite hex4_hex_digits by exact Hn. now rewrite Hs.
Qed.

(** The escapes of a high and a low surrogate, one after the other. *)
Lemma scanstring_u_escape_pair (hi lo : Z) (rest : pystr) :
  (0xD800 <= hi <= 0xDBFF)%Z -> (0xDC00 <= lo <= 0xDFFF)%Z ->
  Json.scanstring (Json.u_escape hi ++ Json.u_escape lo ++ rest)
  = Json.push_char (0x10000 + (hi - 0xD800) * 1024 + (lo - 0xDC00))%Z
      (Json.scanstring rest).
Proof.
  intros Hhi Hlo. unfold Json.u_escape. cbn [app Json.scanstring].
  change (92 =? 34)%Z with false. change (92 =? 92)%Z with true.
  change (117 =? 117)%Z with true. cbn [andb]. cbv iota.
  rewrite !hex4_hex_digits by lia.
  unfold Utf8.between.
  rewrite (proj2 (Z.leb_le 0xD800 hi)), (proj2 (Z.leb_le hi 0xDBFF)) by lia.
  rewrite (proj2 (Z.leb_le 0xDC00 lo)), (proj2 (Z.leb_le lo 0xDFFF)) by lia.
  reflexivity.
Qed.

Lemma between_false (lo hi b : Z) :
  (b < lo \/ hi < b)%Z -> Utf8.between lo hi b = false.
Proof.
  intros H. unfold Utf8.between.
  apply andb_false_iff. rewrite !Z.leb_gt. lia.
Qed.

(** The escape of a scalar value reads back as that value. *)
Lemma scanstring_escape (c : Z) (rest : pystr) :
  is_scalar c = true ->
  Json.scanstring (Json.escape c ++ rest)
  = Json.push_char c (Json.scanstring rest).
Proof.
  intros Hc. apply is_scalar_spec in Hc. unfold Json.escape.
  destruct (Z.eqb_spec c 34) as [->|]; [reflexivity|].
  destruct (Z.eqb_spec c 92) as [->|]; [reflexivity|].
  destruct (Z.eqb_spec c 8) as [->|]; [reflexivity|].
  destruct (Z.eqb_spec c 12) as [->|]; [reflexivity|].
  destruct (Z.eqb_spec c 10) as [->|]; [reflexivity|].
  destruct (Z.eqb_spec c 13) as [->|]; [reflexivity|].
  destruct (Z.eqb_spec c 9) as [->|]; [reflexivity|].
  destruct (Z.leb_spec 32 c); destruct (Z.leb_spec c 126); cbn [andb].
  - apply scanstring_plain; lia.
  - destruct (Z.ltb_spec c 0x10000).
    + apply scanstring_u_escape; [lia|]. apply between_false. lia.
    + rewrite <- app_assoc, scanstring_u_escape_pair by lia.
      f_equal. lia.
  - destruct (Z.ltb_spec c 0x10000); [|lia].
    apply scanstring_u_escape; [lia|]. apply between_false. lia.
  - lia.
Qed.

(** The escape of a high surrogate that no escape of a low surrogate
    follows reads back as the high surrogate. *)
Lemma scanstring_u_escape_high (hi : Z) (T : pystr) :
  (0xD800 <= hi <= 0xDBFF)%Z ->
  no_low_escape_ahead T ->
  Json.scanstring (Json.u_escape hi ++ T)
  = Json.push_char hi (Json.scanstring T).
Proof.
  intros Hhi HT. unfold Json.u_escape. cbn [app Json.scanstring].
  change (92 =? 34)%Z with false. change (92 =? 92)%Z with true.
  change (117 =? 117)%Z with true. cbv iota.
  rewrite hex4_hex_digits by lia.
  assert (Utf8.between 0xD800 0xDBFF hi = true) as ->.
  { unfold Utf8.between. apply andb_true_iff. rewrite !Z.leb_le. lia. }
  destruct T as [|b [|u [|l1 [|l2 [|l3 [|l4 T']]]]]]; try reflexivity.
  destruct (Z.eqb_spec b 92) as [->|]; [|reflexivity].
  destruct (Z.eqb_spec u 117) as [->|]; [|reflexivity].
  cbn [andb].
  destruct (Json.hex4 l1 l2 l3 l4) as [uni2|] eqn:Eh.
  - now rewrite (HT l1 l2 l3 l4 T' uni2 eq_refl Eh).
  - cbn [Json.scanstring].
    change (92 =? 34)%Z with false. change (92 =? 92)%Z with true.
    change (117 =? 117)%Z with true. cbv iota. now rewrite Eh.
Qed.

(** The escape of any code point reads back as that code point, unless it
    is a high surrogate in front of the escape of a low one. *)
Lemma scanstring_escape_str (c : Z) (T : pystr) :
  is_code_point c = true ->
  (is_high_surrogate c = true -> no_low_escape_ahead T) ->
  Json.scanstring (Json.escape c ++ T)
  = Json.push_char c (Json.scanstring T).
Proof.
  intros Hc HT.
  destruct (is_scalar c) eqn:Es; [now apply scanstring_escape|].
  unfold is_scalar in Es. rewrite Hc in Es. cbn [andb] in Es.
  apply negb_false_iff in Es. unfold is_surrogate in Es.
  apply andb_true_iff in Es. rewrite !Z.leb_le in Es.
  assert (Json.escape c = Json.u_escape c) as ->.
  { unfold Json.escape. decide_tests. reflexivity. }
  destruct (Z.leb_spec c 0xDBFF).
  - apply scanstring_u_escape_high; [lia|]. apply HT.
    unfold is_high_surrogate. apply andb_true_iff. rewrite !Z.leb_le. lia.
  - apply scanstring_u_escape; [lia|]. apply between_false. lia.
Qed.

(** What follows a code point in an escaped [str] starts with the escape
    of a low surrogate only if the next code point is a low surrogate. *)
Lemma escaped_low_ahead (k rest : pystr) :
  is_str k = true ->
  match k with
  | c' :: _ => is_low_surrogate c' = false
  | [] => True
  end ->
  no_low_escape_ahead (flat_map Json.escape k ++ 34%Z :: rest).
Proof.
  intros Hk Hlow l1 l2 l3 l4 rest' uni2 E Eh.
  destruct k as [|c k]; [discriminate E|].
  cbn [is_str forallb] in Hk. apply andb_true_iff in Hk as [Hc _].
  unfold is_code_point in Hc. apply andb_true_iff in Hc.
  rewrite !Z.leb_le in Hc.
  unfold is_low_surrogate in Hlow. apply andb_false_iff in Hlow.
  rewrite !Z.leb_gt in Hlow.
  cbn [flat_map] in E. rewrite <- app_assoc in E. revert E.
  unfold Json.escape.
  destruct (Z.eqb_spec c 34); [discriminate|].
  destruct (Z.eqb_spec c 92); [discriminate|].
  destruct (Z.eqb_spec c 8); [discriminate|].
  destruct (Z.eqb_spec c 12); [discriminate|].
  destruct (Z.eqb_spec c 10); [discriminate|].
  destruct (Z.eqb_spec c 13); [discriminate|].
  destruct (Z.eqb_spec c 9); [discriminate|].
  destruct (Z.leb_spec 32 c); destruct (Z.leb_spec c 126); cbn [andb];
    try (intros E; exfalso; cbn [app] in E;
         assert (c = 92%Z) by congruence; lia);
    (destruct (Z.ltb_spec c 0x10000);
     [ unfold Json.u_escape; cbn [app]; intros E;
       assert (Json.hex4 l1 l2 l3 l4 = Some c) as Ec
         by (rewrite <- (hex4_hex_digits c) by lia; congruence);
       assert (uni2 = c) as -> by congruence;
       apply between_false; lia
     | unfold Json.u_escape; cbn [app]; intros E;
       assert (Json.hex4 l1 l2 l3 l4 = Some (0xD800 + (c - 0x10000) / 1024)%Z)
         as Ec
         by (rewrite <- (hex4_hex_digits (0xD800 + (c - 0x10000) / 1024)%Z)
               by lia; congruence);
       assert (uni2 = (0xD800 + (c - 0x10000) / 1024)%Z) as -> by congruence;
       apply between_false; lia ]).
Qed.

(** A key that is safe for JSON reads back as written. *)
Lemma scanstring_encode (k rest : pystr) :
  json_safe k = true ->
  Json.scanstring (flat_map Json.escape k ++ 34%Z :: rest) = Some (k, rest).
Proof.
  unfold json_safe. rewrite andb_true_iff. intros [Hs Hp].
  induction k as [|c k IH]; [apply scanstring_quote|].
  cbn [is_str forallb] in Hs. apply andb_true_iff in Hs as [Hc Hs].
  cbn [no_surrogate_pair] in Hp. apply andb_true_iff in Hp as [Hcp Hp].
  cbn [flat_map]. rewrite <- app_assoc, scanstring_escape_str.
  - now rewrite (IH Hs Hp).
  - exact Hc.
  - intros Hhi. rewrite Hhi in Hcp. cbn [andb] in Hcp.
    apply escaped_low_ahead; [exact Hs|].
    destruct k as [|c' k]; [exact I | now apply negb_true_iff in Hcp].
Qed.

Lemma is_text_json_safe (s : pystr) : is_text s = true -> json_safe s = true.
Proof.
  unfold json_safe. intros H. apply andb_true_iff.
  induction s as [|c s IH]; [now split|].
  cbn [is_text forallb] in H. apply andb_true_iff in H as [Hc Hs].
  destruct (IH Hs) as [IH1 IH2].
  apply is_scalar_spec in Hc. unfold is_str in *.
  cbn [forallb no_surrogate_pair].
  rewrite IH1, IH2, !andb_true_r. split.
  - unfold is_code_point. apply andb_true_iff. rewrite !Z.leb_le. lia.
  - apply negb_true_iff, andb_false_iff. left.
    unfold is_high_surrogate. apply andb_false_iff. rewrite !Z.leb_gt. lia.
Qed.

(** ** JSON: integers *)

Lemma digits_loop_spec (fuel : nat) :
  forall n : Z,
    (0 <= n < 2 ^ Z.of_nat (S fuel))%Z ->
    exists d ds,
      Json.digits_loop (S fuel) n = d :: ds
      /\ Forall (fun x => 0 <= x <= 9)%Z (d :: ds)
      /\ (0 < n -> 0 < d)%Z
      /\ decimal_value ds d = n.
Proof.
  induction fuel as [|fuel IH]; intros n Hn.
  - change (2 ^ Z.of_nat 1)%Z with 2%Z in Hn.
    exists n, []. cbn [Json.digits_loop].
    rewrite (proj2 (Z.ltb_lt n 10)) by lia.
    repeat split; try lia. repeat constructor; lia.
  - rewrite Nat2Z.inj_succ, Z.pow_succ_r in Hn by lia.
    set (p := (2 ^ Z.of_nat (S fuel))%Z) in *.
    cbn [Json.digits_loop]. fold (Json.digits_loop (S fuel)).
    destruct (Z.ltb_spec n 10).
    + exists n, []. repeat split; try lia. repeat constructor; lia.
    + destruct (IH (n / 10)%Z) as (d & ds & E & Hall & Hpos & Hval); [lia|].
      cbn [Json.digits_loop] in E. rewrite E.
      exists d, (ds ++ [(n mod 10)%Z]). repeat split.
      * rewrite app_comm_cons. apply Forall_app. split; [exact Hall|].
        repeat constructor; lia.
      * intros _. apply Hpos. lia.
      * unfold decimal_value in *. rewrite fold_left_app, Hval. simpl. lia.
Qed.

Lemma digits_spec (n : Z) :
  (0 <= n)%Z ->
  exists d ds,
    Json.digits n = d :: ds
    /\ Forall (fun x => 0 <= x <= 9)%Z (d :: ds)
    /\ (0 < n -> 0 < d)%Z
    /\ decimal_value ds d = n.
Proof.
  intros Hn. unfold Json.digits. apply digits_loop_spec.
  split; [exact Hn|].
  destruct (Z.eq_dec n 0) as [->|]; [reflexivity|].
  rewrite Nat2Z.inj_succ, Z2Nat.id by apply Z.log2_nonneg.
  apply Z.log2_spec. lia.
Qed.

Lemma scan_digits_run (ds : list Z) :
  Forall (fun x => 0 <= x <= 9)%Z ds ->
  forall (acc : Z) (rest : pystr),
    no_digit_ahead rest ->
    Json.scan_digits (map (Z.add 48) ds ++ rest) acc
    = (decimal_value ds acc, rest).
Proof.
  induction 1 as [|d ds Hd _ IH]; intros acc rest Hrest.
  - destruct rest as [|c rest]; simpl; [reflexivity|].
    simpl in Hrest. now rewrite Hrest.
  - cbn [map app Json.scan_digits]. unfold Json.is_digit.
    decide_tests. rewrite IH by exact Hrest.
    replace (acc * 10 + (48 + d - 48))%Z with (acc * 10 + d)%Z by lia.
    reflexivity.
Qed.

Lemma parse_int_repr (z : Z) (rest : pystr) :
  no_digit_ahead rest ->
  Json.parse_int (Json.repr_int z ++ rest) = Some (z, rest).
Proof.
  intros Hrest. unfold Json.repr_int.
  destruct (Z.ltb_spec z 0).
  - destruct (digits_spec (- z)) as (d & ds & -> & Hall & Hpos & Hval); [lia|].
    inversion Hall as [|? ? Hd Hds]; subst.
    unfold Json.parse_int. cbn [map app].
    change (45 =? 45)%Z with true. cbv iota. unfold Json.is_digit.
    decide_tests.
    replace (48 + d - 48)%Z with d by lia.
    rewrite scan_digits_run by assumption. rewrite Hval. do 2 f_equal. lia.
  - destruct (Z.eq_dec z 0) as [->|Hz]; [reflexivity|].
    destruct (digits_spec z) as (d & ds & -> & Hall & Hpos & Hval); [lia|].
    inversion Hall as [|? ? Hd Hds]; subst.
    unfold Json.parse_int. cbn [map app]. unfold Json.is_digit.
    decide_tests.
    replace (48 + d - 48)%Z with d by lia.
    rewrite scan_digits_run by assumption. reflexivity.
Qed.

(** ** JSON: the ledger table *)

Lemma dump_items_cons (k : pystr) (v : Z) (d : Dict.t) :
  Json.dump_items ((k, v) :: d)
  = 34%Z :: flat_map Json.escape k
      ++ 34%Z :: 58%Z :: 32%Z :: Json.repr_int v ++ more_items d.
Proof.
  cbn [Json.dump_items]. unfold Json.dump_item, Json.encode_basestring_ascii.
  cbn [fst snd]. destruct d as [|kv d]; cbn [more_items];
    repeat (rewrite <- ?app_assoc; cbn [app]); [now rewrite app_nil_r|].
  reflexivity.
Qed.

Lemma repr_int_head (z : Z) :
  exists c r, Json.repr_int z = c :: r /\ Json.is_ws c = false.
Proof.
  unfold Json.repr_int. destruct (Z.ltb_spec z 0).
  - eexists _, _. split; reflexivity.
  - destruct (digits_spec z) as (d & ds & -> & Hall & _); [lia|].
    inversion Hall as [|? ? Hd _]; subst.
    eexists _, _. split; [reflexivity|].
    unfold Json.is_ws. decide_tests. reflexivity.
Qed.

Lemma skip_ws_repr_int (z : Z) (rest : pystr) :
  Json.skip_ws (Json.repr_int z ++ rest) = Json.repr_int z ++ rest.
Proof.
  destruct (repr_int_head z) as (c & r & -> & Hc).
  cbn [app Json.skip_ws]. now rewrite Hc.
Qed.

Lemma more_items_head (d : Dict.t) (rest : pystr) :
  no_digit_ahead (more_items d ++ 125%Z :: rest).
Proof. destruct d; reflexivity. Qed.

(** Evaluate the tests of the parser on literal characters. *)
Ltac eval_chars :=
  repeat (progress
    (cbn [Json.skip_ws app];
     repeat match goal with
       | |- context [Json.is_ws (Zpos ?p)] =>
           let b := eval vm_compute in (Json.is_ws (Zpos p)) in
           progress (change (Json.is_ws (Zpos p)) with b)
       | |- context [(Zpos ?p =? Zpos ?q)%Z] =>
           let b := eval vm_compute in (Zpos p =? Zpos q)%Z in
           progress (change (Zpos p =? Zpos q)%Z with b)
       end;
     cbv iota)).

Lemma members_dump (d : Dict.t) :
  forall (k : pystr) (v : Z) (fuel : nat) (rest : pystr),
    Forall (fun key => json_safe key = true) (k :: map fst d) ->
    List.length d < fuel ->
    Json.members fuel
      (flat_map Json.escape k
         ++ 34%Z :: 58%Z :: 32%Z :: Json.repr_int v
         ++ more_items d ++ 125%Z :: rest)
    = Some ((k, v) :: d, rest).
Proof.
  induction d as [|[k' v'] d IH]; intros k v fuel rest Hkeys Hfuel;
    (destruct fuel as [|fuel]; [simpl in Hfuel; lia|]);
    inversion Hkeys as [|? ? Hk Hkeys']; subst;
    cbn [Json.members]; rewrite scanstring_encode by exact Hk;
    eval_chars;
    rewrite skip_ws_repr_int, parse_int_repr by apply more_items_head.
  - reflexivity.
  - cbn [more_items]. eval_chars.
    rewrite dump_items_cons. eval_chars.
    repeat (rewrite <- ?app_assoc; cbn [app]).
    rewrite IH; [reflexivity | exact Hkeys' | simpl in Hfuel; lia].
Qed.

Lemma more_items_length (d : Dict.t) :
  List.length d <= List.length (more_items d).
Proof.
  induction d as [|[k v] d IH]; [simpl; lia|].
  cbn [more_items]. rewrite dump_items_cons.
  cbn [app List.length]. rewrite !length_app. cbn [List.length].
  rewrite !length_app. lia.
Qed.

(** [json.load] reads back the table [json.dump] wrote, when its keys are
    safe for JSON. *)
Lemma loads_dumps (d : Dict.t) :
  Forall (fun key => json_safe key = true) (map fst d) ->
  NoDup (map fst d) ->
  Json.loads (Json.dumps d) = Some d.
Proof.
  intros Hkeys Hnd. unfold Json.dumps, Json.loads. eval_chars.
  destruct d as [|[k v] d]; [reflexivity|].
  unfold Json.parse_object. rewrite dump_items_cons. eval_chars.
  repeat (rewrite <- ?app_assoc; cbn [app]).
  rewrite members_dump.
  - cbn [Json.skip_ws]. now rewrite of_pairs_NoDup.
  - exact Hkeys.
  - pose proof (more_items_length d).
    rewrite !length_app. cbn [List.length]. rewrite !length_app. lia.
Qed.

(** ** The queue: what the log and the index hold *)


Lemma frames_at_app (r1 r2 : list bytes) (offset : nat) :
  Framing.frames_at offset (r1 ++ r2)
  = Framing.frames_at offset r1
      ++ Framing.frames_at (offset + List.length (Framing.frames r1)) r2.
Proof.
  revert offset. induction r1 as [|d r1 IH]; intros offset.
  - simpl. now rewrite Nat.add_0_r.
  - cbn [app Framing.frames_at]. rewrite IH. do 3 f_equal.
    rewrite frames_cons, length_app, frame_length. lia.
Qed.

Lemma frame_offsets_length (offset : nat) (records : list bytes) :
  List.length (frame_offsets offset records) = List.length records.
Proof.
  unfold frame_offsets. rewrite length_map.
  revert offset. induction records as [|d records IH]; intros offset; simpl;
    [reflexivity | now rewrite IH].
Qed.

(** The [i]-th offset of the index is where the frame of the [i]-th record
    starts. *)
Lemma nth_frame (records : list bytes) :
  forall (i offset : nat) (r : bytes),
    nth_error records i = Some r ->
    exists before after,
      Framing.frames records = before ++ Framing.frame r ++ after
      /\ nth_error (frame_offsets offset records) i
         = Some (offset + List.length before).
Proof.
  induction records as [|d records IH]; intros i offset r Hi.
  - destruct i; discriminate.
  - destruct i as [|i]; simpl in Hi.
    + injection Hi as ->. exists [], (Framing.frames records). split.
      * reflexivity.
      * simpl. now rewrite Nat.add_0_r.
    + destruct (IH i (offset + (AppendLog.HEADER_SIZE + List.length d)) r Hi)
        as (before & after & Hf & Hn).
      exists (Framing.frame d ++ before), after. split.
      * rewrite frames_cons, Hf, <- app_assoc. reflexivity.
      * unfold frame_offsets in *. cbn [Framing.frames_at map nth_error].
        rewrite Hn, length_app, frame_length. f_equal. lia.
Qed.

Lemma replay_frames (l : AppendLog.t) (records : list bytes) (fragment : bytes) :
  Forall Framing.fits records ->
  Framing.is_fragment fragment = true ->
  AppendLog.file l = Framing.frames records ++ fragment ->
  AppendLog.replay l = Framing.frames_at 0 records.
Proof.
  intros Hfits Hfrag Hfile. unfold AppendLog.replay, File.open_rb.
  rewrite Hfile, replay_loop_frames.
  - rewrite replay_loop_fragment by exact Hfrag. apply app_nil_r.
  - exact Hfits.
  - rewrite length_app. pose proof (frames_length_ge records). lia.
Qed.

Lemma holds_empty_dir : holds (init empty_dir) [] [].
Proof. split; try reflexivity; constructor. Qed.

Lemma holds_length (q : t) (msgs : list pystr) (records : list bytes) :
  holds q msgs records ->
  List.length (_index q) = List.length msgs
  /\ List.length records = List.length msgs.
Proof.
  intros H. rewrite (holds_index _ _ _ H), frame_offsets_length.
  pose proof (Forall2_length (holds_encoded _ _ _ H)). lia.
Qed.

(** A push that returns has appended the encoded message and returned its
    ordinal; the ledger is untouched. *)
Lemma push_returns (q q' : t) (msgs : list pystr) (records : list bytes)
    (m : pystr) (i : nat) :
  holds q msgs records ->
  push q m = (Ok i, q') ->
  i = List.length msgs
  /\ _offsets q' = _offsets q
  /\ exists r, holds q' (msgs ++ [m]) (records ++ [r]).
Proof.
  intros H. unfold push.
  destruct (Utf8.encode m) as [data|e] eqn:Eenc; [|discriminate].
  destruct (AppendLog.append (_log q) data) as [[offset log']|e] eqn:Eapp;
    [|discriminate].
  intros [= <- <-]. cbn [_offsets].
  destruct (holds_length _ _ _ H) as [Hlen _].
  apply append_inv in Eapp as Hinv. destruct Hinv as (Hfit & -> & Hfile & Hwo).
  repeat split; [exact Hlen | exists data].
  split; cbn [_log _index].
  - apply Forall2_app; [apply (holds_encoded _ _ _ H) | now repeat constructor].
  - apply Forall_app. split; [apply (holds_fits _ _ _ H) | now repeat constructor].
  - rewrite Hfile, (holds_file _ _ _ H), frames_app. f_equal.
    unfold Framing.frames. simpl. now rewrite app_nil_r.
  - eapply append_wf; [apply (holds_end _ _ _ H) | exact Eapp].
  - rewrite (holds_index _ _ _ H). unfold frame_offsets.
    rewrite frames_at_app, map_app. f_equal. simpl.
    rewrite (holds_end _ _ _ H), (holds_file _ _ _ H). reflexivity.
Qed.

(** A push that raises changes nothing. *)
Lemma push_raises (q q' : t) (m : pystr) (e : exn) :
  push q m = (Raise e, q') -> q' = q.
Proof.
  unfold push.
  destruct (Utf8.encode m) as [data|e0]; [|now intros [= _ <-]].
  destruct (AppendLog.append (_log q) data) as [[offset log']|e0];
    [discriminate | now intros [= _ <-]].
Qed.

(** A message that encodes to a payload the header can describe is
    pushed. *)
Lemma push_Ok (q : t) (m : pystr) (data : bytes) :
  Utf8.encode m = Ok data -> Framing.fits data ->
  exists q', push q m = (Ok (List.length (_index q)), q').
Proof.
  intros Henc Hfit. unfold push. rewrite Henc, append_Ok by exact Hfit.
  eauto.
Qed.

Lemma encode_length (s : pystr) (b : bytes) :
  Utf8.encode s = Ok b -> List.length b <= 4 * List.length s.
Proof.
  revert b. induction s as [|c s IH]; intros b; cbn [Utf8.encode].
  - intros [= <-]. simpl. lia.
  - destruct (Utf8.encode_cp c) as [bs|] eqn:Ec; [|discriminate].
    destruct (Utf8.encode s) as [rest|e]; cbn [bind]; [|discriminate].
    intros [= <-]. specialize (IH rest eq_refl).
    rewrite length_app, length_map. cbn [List.length].
    assert (List.length bs <= 4); [|lia].
    revert Ec. unfold Utf8.encode_cp.
    repeat match goal with
           | |- context [if ?b then _ else _] => destruct b
           end; intros E; try discriminate;
      apply Some_inj in E; subst bs; simpl; lia.
Qed.

(** Every text of less than 2^30 characters is pushed: [push] returns the
    next ordinal. *)
Lemma push_text (q : t) (m : pystr) :
  is_text m = true ->
  (N.of_nat (List.length m) < 1073741824)%N ->
  exists q', push q m = (Ok (List.length (_index q)), q').
Proof.
  intros Ht Hlen. destruct (encode_text m Ht) as [data Henc].
  apply (push_Ok q m data Henc).
  pose proof (encode_length m data Henc). unfold Framing.fits. lia.
Qed.

Lemma getitem_nth (l : list nat) (i : nat) (x : nat) :
  nth_error l i = Some x -> getitem l (Z.of_nat i) = Ok x.
Proof.
  intros H. unfold getitem.
  rewrite (proj2 (Z.ltb_ge (Z.of_nat i) 0)) by lia.
  rewrite (proj2 (Z.ltb_ge (Z.of_nat i) 0)) by lia.
  now rewrite Nat2Z.id, H.
Qed.

(** What [pull] does for a cursor below the number of messages. *)
Lemma pull_delivers (q : t) (msgs : list pystr) (records : list bytes)
    (c : pystr) (i : nat) (m : pystr) :
  holds q msgs records ->
  OffsetStore.get (_offsets q) c = Z.of_nat i ->
  nth_error msgs i = Some m ->
  pull q c
  = (Ok (Some m),
     {| _log := _log q;
        _offsets := OffsetStore.set (_offsets q) c (Z.of_nat i + 1);
        _index := _index q |}).
Proof.
  intros H Hget Hm. unfold pull. rewrite Hget.
  destruct (holds_length _ _ _ H) as [Hlen Hrec].
  assert (i < List.length msgs) as Hi by (apply nth_error_Some; congruence).
  rewrite (proj2 (Z.leb_gt _ _)) by lia.
  destruct (nth_error records i) as [r|] eqn:Er;
    [|apply nth_error_None in Er; lia].
  destruct (nth_frame records i 0 r Er) as (before & after & Hf & Hn).
  rewrite <- (holds_index _ _ _ H) in Hn.
  rewrite (getitem_nth _ _ _ Hn). cbn [Nat.add].
  assert (Hfit : Framing.fits r).
  { eapply Forall_forall; [apply (holds_fits _ _ _ H)|].
    eapply nth_error_In, Er. }
  rewrite (read_at_frame (_log q) before after r Hfit)
    by (rewrite (holds_file _ _ _ H); exact Hf).
  assert (Henc : Utf8.encode m = Ok r).
  { pose proof (holds_encoded _ _ _ H) as HF.
    clear - HF Hm Er. revert i Hm Er.
    induction HF as [|m0 r0 ms rs E _ IH]; intros [|i] Hm Er;
      try discriminate; simpl in *.
    - congruence.
    - eapply IH; eassumption. }
  now rewrite (decode_encode _ _ Henc).
Qed.

(** C10's content, for any state: a cursor at or past the end of the index
    makes [pull] return [None] and leave the state as it is. *)
Lemma pull_empty (q : t) (c : pystr) :
  (Z.of_nat (List.length (_index q)) <= OffsetStore.get (_offsets q) c)%Z ->
  pull q c = (Ok None, q).
Proof.
  intros H. unfold pull. now rewrite (proj2 (Z.leb_le _ _) H).
Qed.

(** [pull] touches neither the log nor the index. *)
Lemma pull_frame (q q' : t) (c : pystr) (r : result (option pystr)) :
  pull q c = (r, q') -> _log q' = _log q /\ _index q' = _index q.
Proof.
  unfold pull.
  destruct (_ <=? _)%Z; [now intros [= _ <-]|].
  destruct (getitem _ _); [|now intros [= _ <-]].
  destruct (AppendLog.read_at _ _); [|now intros [= _ <-]].
  destruct (Utf8.decode _); now intros [= _ <-].
Qed.

Lemma holds_frame (q q' : t) (msgs : list pystr) (records : list bytes) :
  _log q' = _log q -> _index q' = _index q ->
  holds q msgs records -> holds q' msgs records.
Proof.
  intros Hl Hi [H1 H2 H3 H4 H5]. split; rewrite ?Hl, ?Hi; assumption.
Qed.

(** ** Cursors *)


Lemma cursor_set_same (s : OffsetStore.t) (c : pystr) (v : Z) :
  OffsetStore.get (OffsetStore.set s c v) c = v.
Proof. unfold OffsetStore.get, OffsetStore.set. simpl. apply dict_get_set_same. Qed.

Lemma cursor_set_other (s : OffsetStore.t) (c c' : pystr) (v : Z) :
  c <> c' ->
  OffsetStore.get (OffsetStore.set s c v) c' = OffsetStore.get s c'.
Proof.
  intros H. unfold OffsetStore.get, OffsetStore.set. simpl.
  now apply dict_get_set_other.
Qed.

Lemma cursors_within_set (s : OffsetStore.t) (n : nat) (c : pystr) (v : Z) :
  cursors_within s n -> (0 <= v <= Z.of_nat n)%Z ->
  cursors_within (OffsetStore.set s c v) n.
Proof.
  intros H Hv c'. destruct (list_eq_dec Z.eq_dec c c') as [<-|Hne].
  - now rewrite cursor_set_same.
  - rewrite cursor_set_other by exact Hne. apply H.
Qed.

Lemma cursors_within_mono (s : OffsetStore.t) (n n' : nat) :
  n <= n' -> cursors_within s n -> cursors_within s n'.
Proof. intros Hn H c. specialize (H c). lia. Qed.

Lemma cursors_within_empty_dir (n : nat) :
  cursors_within (_offsets (init empty_dir)) n.
Proof. intros c. cbn. lia. Qed.

(** One step keeps the cursors within the length of the index. *)
Lemma step_cursors_within (q : t) (o : op) :
  cursors_within (_offsets q) (List.length (_index q)) ->
  cursors_within (_offsets (snd (step q o)))
    (List.length (_index (snd (step q o)))).
Proof.
  intros H. destruct o as [m|c| |c]; cbn [step].
  - unfold push.
    destruct (Utf8.encode m) as [data|e]; [|exact H].
    destruct (AppendLog.append _ _) as [[offset log']|e]; [|exact H].
    cbn [snd _offsets _index]. rewrite length_app.
    eapply cursors_within_mono; [|exact H]. lia.
  - unfold pull.
    destruct (Z.leb_spec (Z.of_nat (List.length (_index q)))
                (OffsetStore.get (_offsets q) c)); [exact H|].
    destruct (getitem _ _); [|exact H].
    destruct (AppendLog.read_at _ _); [|exact H].
    destruct (Utf8.decode _); [|exact H].
    cbn [snd _offsets _index].
    apply cursors_within_set; [exact H|]. specialize (H c). lia.
  - exact H.
  - exact H.
Qed.

Lemma run_cursors_within (ops : list op) :
  forall q : t,
    cursors_within (_offsets q) (List.length (_index q)) ->
    cursors_within (_offsets (snd (run q ops)))
      (List.length (_index (snd (run q ops)))).
Proof.
  induction ops as [|o ops IH]; intros q H; [exact H|].
  cbn [run]. pose proof (step_cursors_within q o H) as Hs.
  destruct (step q o) as [out q1]. cbn [snd] in Hs.
  specialize (IH q1 Hs). destruct (run q1 ops) as [outs q2]. exact IH.
Qed.

(** ** Runs of pushes and of pulls *)

Lemma run_pushes (msgs : list pystr) :
  forall (q : t) (msgs0 : list pystr) (records0 : list bytes),
    holds q msgs0 records0 ->
    forallb returned (fst (run q (map Push msgs))) = true ->
    fst (run q (map Push msgs))
    = map (fun i => Pushed (Ok i)) (seq (List.length msgs0) (List.length msgs))
    /\ _offsets (snd (run q (map Push msgs))) = _offsets q
    /\ exists records,
         holds (snd (run q (map Push msgs))) (msgs0 ++ msgs) (records0 ++ records).
Proof.
  induction msgs as [|m msgs IH]; intros q msgs0 records0 H Hret.
  - cbn. split; [|split]; try reflexivity. exists []. now rewrite !app_nil_r.
  - cbn [map run step] in *.
    destruct (push q m) as [[i|e] q1] eqn:Ep.
    + destruct (push_returns _ _ _ _ _ _ H Ep) as (-> & Hoff & r & H1).
      specialize (IH q1 (msgs0 ++ [m]) (records0 ++ [r]) H1).
      destruct (run q1 (map Push msgs)) as [outs q2].
      cbn [fst snd forallb returned andb] in *.
      destruct (IH Hret) as (-> & Hoff2 & records & H2).
      rewrite length_app in *. cbn [List.length] in *. split; [|split].
      * cbn [seq map]. do 2 f_equal. f_equal. lia.
      * congruence.
      * exists (r :: records). now rewrite <- !app_assoc in H2.
    + destruct (run q1 (map Push msgs)) as [outs q2].
      cbn [fst forallb returned andb] in Hret. discriminate.
Qed.

(** Consecutive pulls of one consumer, from cursor [i], deliver the
    messages from ordinal [i] on. *)
Lemma run_pulls (n : nat) :
  forall (q : t) (msgs : list pystr) (records : list bytes) (c : pystr) (i : nat),
    holds q msgs records ->
    cursor q c = Z.of_nat i ->
    i + n <= List.length msgs ->
    fst (run q (repeat (Pull c) n))
    = map (fun m => Pulled c (Ok (Some m))) (firstn n (skipn i msgs))
    /\ holds (snd (run q (repeat (Pull c) n))) msgs records
    /\ cursor (snd (run q (repeat (Pull c) n))) c = Z.of_nat (i + n).
Proof.
  induction n as [|n IH]; intros q msgs records c i H Hc Hn.
  - cbn. rewrite Nat.add_0_r. auto.
  - cbn [repeat run step].
    destruct (nth_error msgs i) as [m|] eqn:Em;
      [|apply nth_error_None in Em; lia].
    rewrite (pull_delivers q msgs records c i m H Hc Em).
    set (q1 := {| _log := _log q;
                  _offsets := OffsetStore.set (_offsets q) c (Z.of_nat i + 1);
                  _index := _index q |}).
    assert (H1 : holds q1 msgs records)
      by (apply (holds_frame q q1); [reflexivity | reflexivity | exact H]).
    assert (Hc1 : cursor q1 c = Z.of_nat (S i)).
    { unfold cursor, q1. cbn [_offsets]. rewrite cursor_set_same. lia. }
    destruct (IH q1 msgs records c (S i) H1 Hc1 ltac:(lia)) as (E & H2 & Hc2).
    destruct (run q1 (repeat (Pull c) n)) as [outs q2].
    cbn [fst snd] in *. split; [|split].
    + rewrite E, (skipn_nth_cons msgs i m Em). reflexivity.
    + exact H2.
    + rewrite Hc2. f_equal. lia.
Qed.

Lemma run_app (ops1 ops2 : list op) (q : t) :
  run q (ops1 ++ ops2)
  = (fst (run q ops1) ++ fst (run (snd (run q ops1)) ops2),
     snd (run (snd (run q ops1)) ops2)).
Proof.
  revert q. induction ops1 as [|o ops1 IH]; intros q.
  - cbn. now destruct (run q ops2).
  - cbn [app run]. destruct (step q o) as [out q1]. rewrite IH.
    destruct (run q1 ops1) as [outs1 q2]. reflexivity.
Qed.

Lemma repeat_snoc {A} (x : A) (n : nat) : repeat x (S n) = repeat x n ++ [x].
Proof. induction n as [|n IH]; [reflexivity|]. cbn [repeat app] in *. now rewrite <- IH. Qed.

(** What a schedule of pulls delivers to one consumer: as many of the
    messages from its cursor on as it pulls, whoever else pulls in
    between. *)
Lemma delivered_schedule (schedule : list pystr) :
  forall (q : t) (msgs : list pystr) (records : list bytes) (c : pystr),
    holds q msgs records ->
    cursors_within (_offsets q) (List.length msgs) ->
    delivered c (fst (run q (map Pull schedule)))
    = firstn (pulls_by c schedule) (skipn (Z.to_nat (cursor q c)) msgs).
Proof.
  induction schedule as [|d schedule IH]; intros q msgs records c H Hw.
  - reflexivity.
  - cbn [map run step]. unfold pulls_by. cbn [filter]. fold (pulls_by c schedule).
    pose proof (Hw d) as Hd.
    destruct (Z.leb_spec (Z.of_nat (List.length msgs))
                (OffsetStore.get (_offsets q) d)) as [Hfull|Hmore].
    + (* nothing left for [d] *)
      rewrite pull_empty
        by (destruct (holds_length _ _ _ H) as [-> _]; exact Hfull).
      specialize (IH q msgs records c H Hw).
      destruct (run q (map Pull schedule)) as [outs q2].
      cbn [fst delivered] in *. rewrite IH.
      destruct (pystr_eqb c d) eqn:E; [|reflexivity].
      apply pystr_eqb_eq in E. subst d. unfold cursor.
      rewrite skipn_all2 by lia. now rewrite !firstn_nil.
    + set (i := Z.to_nat (OffsetStore.get (_offsets q) d)).
      assert (Hi : OffsetStore.get (_offsets q) d = Z.of_nat i)
        by (unfold i; lia).
      destruct (nth_error msgs i) as [m|] eqn:Em;
        [|apply nth_error_None in Em; lia].
      rewrite (pull_delivers q msgs records d i m H Hi Em).
      set (q1 := {| _log := _log q;
                    _offsets := OffsetStore.set (_offsets q) d (Z.of_nat i + 1);
                    _index := _index q |}).
      assert (H1 : holds q1 msgs records)
        by (apply (holds_frame q q1); [reflexivity | reflexivity | exact H]).
      assert (Hw1 : cursors_within (_offsets q1) (List.length msgs)).
      { unfold q1. cbn [_offsets]. apply cursors_within_set; [exact Hw | lia]. }
      specialize (IH q1 msgs records c H1 Hw1).
      destruct (run q1 (map Pull schedule)) as [outs q2].
      cbn [fst delivered] in *. rewrite IH. unfold cursor, q1. cbn [_offsets].
      destruct (pystr_eqb c d) eqn:E.
      * apply pystr_eqb_eq in E. subst d. rewrite pystr_eqb_refl.
        rewrite cursor_set_same. fold i.
        replace (Z.to_nat (Z.of_nat i + 1)) with (S i) by lia.
        rewrite (skipn_nth_cons msgs i m Em). reflexivity.
      * assert (pystr_eqb d c = false) as ->.
        { apply pystr_eqb_neq. apply pystr_eqb_neq in E. congruence. }
        rewrite cursor_set_other; [reflexivity|].
        apply pystr_eqb_neq in E. congruence.
Qed.

(** *** Claims about the queue *)

(** C1.  [N] messages are pushed, in order, into a fresh queue (every push
    returns).  A consumer identity that has not pulled yet then pulls
    [N + 1] times: the first [N] pulls return the [N] messages in push
    order, and the last returns [None] (no message available), not a
    message and not an error. *)
Theorem C1_fresh_consumer_receives_in_push_order
    (msgs : list pystr) (c : pystr) :
  let pushes := run (init empty_dir) (map Push msgs) in
  forallb returned (fst pushes) = true ->
  fst (run (snd pushes) (repeat (Pull c) (S (List.length msgs))))
  = map (fun m => Pulled c (Ok (Some m))) msgs ++ [Pulled c (Ok None)].
Proof.
  intros pushes Hret. subst pushes.
  destruct (run_pushes msgs (init empty_dir) [] [] holds_empty_dir Hret)
    as (_ & Hoff & records & H).
  set (q := snd (run (init empty_dir) (map Push msgs))) in *.
  cbn [app] in H.
  assert (Hc : cursor q c = Z.of_nat 0) by (unfold cursor; now rewrite Hoff).
  destruct (run_pulls (List.length msgs) q msgs records c 0 H Hc ltac:(lia))
    as (E & H2 & Hc2).
  rewrite repeat_snoc, run_app. cbn [fst].
  rewrite E, skipn_O, firstn_all. f_equal.
  cbn [run step]. rewrite pull_empty; [reflexivity|].
  destruct (holds_length _ _ _ H2) as [-> _].
  unfold cursor in Hc2. rewrite Hc2. cbn [Nat.add]. lia.
Qed.

Lemma C1_fresh_consumer_receives_in_push_order_witness :
  let msgs := [str "first"; str "second"; [233; 0x1F600]%Z] in
  let c := str "c1" in
  let pushes := run (init empty_dir) (map Push msgs) in
  forallb returned (fst pushes) = true
  /\ fst (run (snd pushes) (repeat (Pull c) 4))
     = [Pulled c (Ok (Some (str "first"))); Pulled c (Ok (Some (str "second")));
        Pulled c (Ok (Some [233; 0x1F600]%Z)); Pulled c (Ok None)].
Proof.
  intros msgs c pushes.
  assert (H : forallb returned (fst pushes) = true) by (vm_compute; reflexivity).
  split; [exact H |].
  exact (C1_fresh_consumer_receives_in_push_order msgs c H).
Defined.

(** Pulls leave the log and the index as they are. *)
Lemma run_pulls_frame (schedule : list pystr) (q : t) :
  _log (snd (run q (map Pull schedule))) = _log q
  /\ _index (snd (run q (map Pull schedule))) = _index q.
Proof.
  revert q. induction schedule as [|d schedule IH]; intros q; [now split|].
  cbn [map run step].
  destruct (pull q d) as [r q1] eqn:Ep.
  destruct (pull_frame _ _ _ _ Ep) as [Hl Hi].
  specialize (IH q1). destruct (run q1 (map Pull schedule)) as [outs q2].
  cbn [snd] in *. destruct IH as [-> ->]. now split.
Qed.

(** C2.  After the same pushes, two distinct consumers pull in any
    interleaving (other consumers may pull in between).  Each is delivered
    the messages in push order, as many as it pulls, whatever the other
    does; once each has pulled [N] times or more, each has been delivered
    the whole sequence.  The pulls leave the log and the index as they
    were: no message is removed. *)
Theorem C2_broadcast
    (msgs : list pystr) (schedule : list pystr) (a b : pystr) :
  let pushes := run (init empty_dir) (map Push msgs) in
  let pulls := run (snd pushes) (map Pull schedule) in
  let outs := fst pulls in
  a <> b ->
  forallb returned (fst pushes) = true ->
  delivered a outs = firstn (pulls_by a schedule) msgs
  /\ delivered b outs = firstn (pulls_by b schedule) msgs
  /\ (List.length msgs <= pulls_by a schedule ->
      List.length msgs <= pulls_by b schedule ->
      delivered a outs = msgs /\ delivered b outs = msgs)
  /\ _log (snd pulls) = _log (snd pushes)
  /\ _index (snd pulls) = _index (snd pushes).
Proof.
  intros pushes pulls outs _ Hret. subst pushes pulls outs.
  destruct (run_pushes msgs (init empty_dir) [] [] holds_empty_dir Hret)
    as (_ & Hoff & records & H).
  set (q := snd (run (init empty_dir) (map Push msgs))) in *.
  cbn [app] in H.
  assert (Hw : cursors_within (_offsets q) (List.length msgs))
    by (rewrite Hoff; apply cursors_within_empty_dir).
  assert (Hc : forall c, cursor q c = 0%Z)
    by (intros c; unfold cursor; now rewrite Hoff).
  assert (Hd : forall c, delivered c (fst (run q (map Pull schedule)))
                         = firstn (pulls_by c schedule) msgs).
  { intros c. rewrite (delivered_schedule schedule q msgs records c H Hw).
    now rewrite Hc. }
  split; [apply Hd | split; [apply Hd | split]].
  - intros Ha Hb. rewrite !Hd. split; now apply firstn_all2.
  - apply run_pulls_frame.
Qed.

Lemma C2_broadcast_witness :
  let msgs := [str "m1"; str "m2"] in
  let a := str "a" in
  let b := str "b" in
  let schedule := [a; b; b; a; b; a] in
  let pushes := run (init empty_dir) (map Push msgs) in
  let outs := fst (run (snd pushes) (map Pull schedule)) in
  a <> b
  /\ forallb returned (fst pushes) = true
  /\ delivered a outs = msgs /\ delivered b outs = msgs.
Proof.
  intros msgs a b schedule pushes outs.
  assert (Hab : a <> b) by discriminate.
  assert (H : forallb returned (fst pushes) = true) by (vm_compute; reflexivity).
  split; [exact Hab | split; [exact H |]].
  apply (proj1 (proj2 (proj2 (C2_broadcast msgs schedule a b Hab H))));
    vm_compute; lia.
Defined.

(** C6 does not hold of the code.  The log file here is what a crash in
    the middle of an [append] leaves: the record of the message [a], then
    a header that declares nine bytes with one byte after it.  The queue
    that starts on it indexes the one complete record, but writes the next
    record after the fragment; [replay] stops at the fragment.  So after
    a push and two pulls, which deliver [a] and [b] and leave the cursor
    at 2 under an index of length 2, a restart finds one record only: the
    cursor, 2, is past the length of the index, 1. *)
Theorem C6_cursor_exceeds_index_after_restart :
  let torn := {| queue_log := Framing.frame [x61] ++ [x00; x00; x00; x09; x68];
                 offsets_json := None |} in
  let c := str "c" in
  let calls := [Push (str "b"); Pull c; Pull c] in
  let q1 := snd (run (init torn) calls) in
  let q2 := restart q1 in
  Framing.is_fragment [x00; x00; x00; x09; x68] = true
  /\ fst (run (init torn) calls)
     = [Pushed (Ok 1); Pulled c (Ok (Some (str "a")));
        Pulled c (Ok (Some (str "b")))]
  /\ cursor q1 c = 2%Z
  /\ List.length (_index q1) = 2
  /\ cursor q2 c = 2%Z
  /\ List.length (_index q2) = 1
  /\ ~ (cursor q2 c <= Z.of_nat (List.length (_index q2)))%Z.
Proof.
  cbv zeta. repeat (split; [vm_compute; reflexivity|]).
  vm_compute. intros H. apply H. reflexivity.
Qed.

(** C10.  When the cursor of a consumer is at or past the end of the index
    (as for an identity never seen, on an empty queue), [pull] returns
    [None] and the state after the call is the state before it: same log,
    same index, same ledger file, same ledger table. *)
Theorem C10_pull_nothing_changes_nothing (q : t) (c : pystr) :
  (Z.of_nat (List.length (_index q)) <= cursor q c)%Z ->
  pull q c = (Ok None, q).
Proof. apply pull_empty. Qed.

Lemma C10_pull_nothing_changes_nothing_witness :
  let q := init empty_dir in
  let c := str "never-seen" in
  (Z.of_nat (List.length (_index q)) <= cursor q c)%Z
  /\ pull q c = (Ok None, q)
  /\ OffsetStore.file (_offsets q) = None
  /\ OffsetStore._offsets (_offsets q) = [].
Proof.
  intros q c.
  assert (H : (Z.of_nat (List.length (_index q)) <= cursor q c)%Z)
    by (vm_compute; discriminate).
  split; [exact H | split; [| split; reflexivity]].
  exact (C10_pull_nothing_changes_nothing q c H).
Defined.

(** ** Restart *)

Lemma save_file (s : OffsetStore.t) :
  OffsetStore.save s
  = {| OffsetStore.file := Some (Json.dumps (OffsetStore._offsets s));
       OffsetStore._offsets := OffsetStore._offsets s |}.
Proof. reflexivity. Qed.

Lemma ledger_saved_empty_dir : ledger_saved (_offsets (init empty_dir)).
Proof. split; cbn; constructor. Qed.

Lemma ledger_saved_set (s : OffsetStore.t) (c : pystr) (v : Z) :
  json_safe c = true -> ledger_saved s -> ledger_saved (OffsetStore.set s c v).
Proof.
  intros Hc [Hf Hk Ht]. unfold OffsetStore.set. rewrite save_file.
  split; cbn [OffsetStore.file OffsetStore._offsets].
  - reflexivity.
  - now apply dict_set_NoDup.
  - now apply dict_set_keys_Forall.
Qed.

Lemma step_restartable (q : t) (o : op) (msgs : list pystr) (records : list bytes) :
  (forall c, o = Pull c -> json_safe c = true) ->
  holds q msgs records -> ledger_saved (_offsets q) ->
  (exists msgs' records', holds (snd (step q o)) msgs' records')
  /\ ledger_saved (_offsets (snd (step q o))).
Proof.
  intros Ho H Hs. destruct o as [m|c| |c]; cbn [step].
  - destruct (push q m) as [[i|e] q1] eqn:Ep; cbn [snd].
    + destruct (push_returns _ _ _ _ _ _ H Ep) as (_ & -> & r & H1). eauto.
    + apply push_raises in Ep. subst q1. eauto.
  - destruct (pull q c) as [r q1] eqn:Ep. cbn [snd].
    destruct (pull_frame _ _ _ _ Ep) as [Hl Hi].
    split; [exists msgs, records; now apply (holds_frame q q1)|].
    revert Ep. unfold pull.
    destruct (_ <=? _)%Z; [now intros [= _ <-]|].
    destruct (getitem _ _); [|now intros [= _ <-]].
    destruct (AppendLog.read_at _ _); [|now intros [= _ <-]].
    destruct (Utf8.decode _); intros [= _ <-]; [|exact Hs].
    cbn [_offsets]. apply ledger_saved_set; [now apply Ho | exact Hs].
  - eauto.
  - eauto.
Qed.

Lemma run_restartable (ops : list op) :
  forall (q : t) (msgs : list pystr) (records : list bytes),
    pullers_json_safe ops ->
    holds q msgs records -> ledger_saved (_offsets q) ->
    (exists msgs' records', holds (snd (run q ops)) msgs' records')
    /\ ledger_saved (_offsets (snd (run q ops))).
Proof.
  induction ops as [|o ops IH]; intros q msgs records Hops H Hs.
  - cbn. eauto.
  - cbn [run].
    destruct (step_restartable q o msgs records) as ((msgs1 & records1 & H1) & Hs1);
      [intros c ->; apply Hops; now left | exact H | exact Hs |].
    destruct (step q o) as [out q1]. cbn [snd] in *.
    destruct (IH q1 msgs1 records1) as (H2 & Hs2);
      [intros c Hc; apply Hops; now right | exact H1 | exact Hs1 |].
    destruct (run q1 ops) as [outs q2]. cbn [snd] in *. now split.
Qed.

(** Restarting on the files of such a state gives the state back. *)
Lemma restart_same (q : t) (msgs : list pystr) (records : list bytes) :
  holds q msgs records -> ledger_saved (_offsets q) -> restart q = q.
Proof.
  intros [_ Hfits Hfile Hend Hidx] [Hsf Hsk Hst].
  destruct q as [[file wo] [ledger table] index].
  unfold log_wf in Hend.
  cbn [_log _offsets _index AppendLog.file AppendLog._write_offset
       OffsetStore.file OffsetStore._offsets] in *.
  unfold restart, init, disk_of, _recover.
  cbn [queue_log offsets_json _log _offsets _index AppendLog.file
       OffsetStore.file app].
  f_equal.
  - unfold AppendLog.init. now rewrite Hend.
  - unfold OffsetStore.init, OffsetStore.load. cbn [OffsetStore.file].
    destruct ledger as [text|]; [|now subst table].
    subst text. now rewrite loads_dumps.
  - rewrite (replay_frames _ records []); [now subst index | exact Hfits | reflexivity |].
    cbn [AppendLog.init AppendLog.file]. now rewrite app_nil_r.
Qed.

(** A restart leads to no state that the calls alone do not reach. *)
Corollary restart_reaches_nothing_new (ops : list op) :
  pullers_json_safe ops ->
  restart (snd (run (init empty_dir) ops)) = snd (run (init empty_dir) ops).
Proof.
  intros Hops.
  destruct (run_restartable ops (init empty_dir) [] [] Hops
              holds_empty_dir ledger_saved_empty_dir)
    as ((msgs & records & H) & Hs).
  exact (restart_same _ msgs records H Hs).
Qed.

(** *** Claim about restart *)

(** C3, amended.  In every state reached from an empty data directory by
    pushes and by pulls of consumers in whose identities no high surrogate
    is immediately followed by a low surrogate (so for every identity that
    is text, [is_text_json_safe]), a queue constructed from the log file
    and the ledger file alone has the same message bytes at every ordinal
    and the same cursor for every consumer identity. *)
Theorem C3_restart_reproduces_state (ops : list op) :
  pullers_json_safe ops ->
  let q := snd (run (init empty_dir) ops) in
  (forall i, message_bytes (restart q) i = message_bytes q i)
  /\ (forall c, cursor (restart q) c = cursor q c).
Proof.
  intros Hops q.
  destruct (run_restartable ops (init empty_dir) [] [] Hops
              holds_empty_dir ledger_saved_empty_dir)
    as ((msgs & records & H) & Hs).
  fold q in H, Hs. rewrite (restart_same q msgs records H Hs). now split.
Qed.

Lemma C3_restart_reproduces_state_witness :
  let ops := [Push (str "offset-1"); Push (str "offset-2"); Push (str "offset-3");
              Pull (str "offset-consumer"); Pull (str "offset-consumer");
              Pull [233; 0x1F600]%Z] in
  let q := snd (run (init empty_dir) ops) in
  pullers_json_safe ops
  /\ message_bytes (restart q) 2 = message_bytes q 2
  /\ cursor (restart q) (str "offset-consumer") = 2%Z.
Proof.
  intros ops q.
  assert (H : pullers_json_safe ops).
  { intros c [E|[E|[E|[E|[E|[E|[]]]]]]]; try discriminate;
      injection E as <-; reflexivity. }
  split; [exact H | split].
  - exact (proj1 (C3_restart_reproduces_state ops H) 2).
  - transitivity (cursor q (str "offset-consumer")).
    + exact (proj2 (C3_restart_reproduces_state ops H) (str "offset-consumer")).
    + vm_compute. reflexivity.
Defined.

(** C3 as stated, for every consumer identity, fails: a [str] may hold a
    high surrogate followed by a low surrogate, which [json.dump] writes
    as two escapes and [json.load] reads back as one code point. *)
Lemma C3_counterexample :
  let c := [0xD83D; 0xDE00]%Z in
  let q := snd (run (init empty_dir) [Push (str "m"); Pull c]) in
  is_str c = true
  /\ cursor q c = 1%Z
  /\ cursor (restart q) c = 0%Z
  /\ cursor (restart q) c <> cursor q c.
Proof. vm_compute. repeat split; discriminate. Qed.

(** ** Saving the ledger *)

(** What is on disk while the table is written: after every write, and
    after the close, a beginning of all that has been written; after the
    close, all of it; after the last write, as much as the file object
    has passed on. *)
Lemma contents_after_writes (passed_on : list pystr -> nat) (ps : list pystr) :
  forall (d : pystr) (w : list pystr),
    let visible :=
      OffsetStore.contents_after passed_on
        {| OffsetStore.on_disk := Some d; OffsetStore.written := w |}
        (map OffsetStore.Write ps ++ [OffsetStore.Close]) in
    Forall (fun content => exists k, content = Some (firstn k (concat (w ++ ps))))
      visible
    /\ last visible None = Some (concat (w ++ ps))
    /\ (ps <> [] ->
        In (Some (firstn (passed_on (w ++ ps)) (concat (w ++ ps)))) visible).
Proof.
  induction ps as [|s ps IH]; intros d w visible; subst visible.
  - cbn [map app OffsetStore.contents_after OffsetStore.run_call
         OffsetStore.on_disk OffsetStore.written last].
    rewrite app_nil_r. split; [|split; [reflexivity | congruence]].
    constructor; [|constructor].
    exists (List.length (concat w)). now rewrite firstn_all.
  - cbn [map app OffsetStore.contents_after OffsetStore.run_call
         OffsetStore.on_disk OffsetStore.written].
    specialize (IH (firstn (passed_on (w ++ [s])) (concat (w ++ [s])))
                  (w ++ [s])).
    cbv zeta in IH. rewrite <- app_assoc in IH. cbn [app] in IH.
    destruct IH as (Hall & Hlast & Hin).
    assert (Hhead : exists k,
               firstn (passed_on (w ++ [s])) (concat (w ++ [s]))
               = firstn k (concat (w ++ s :: ps))).
    { exists (Nat.min (passed_on (w ++ [s])) (List.length (concat (w ++ [s])))).
      change (w ++ s :: ps) with (w ++ [s] ++ ps).
      rewrite (app_assoc w [s] ps).
      assert (E : concat ((w ++ [s]) ++ ps) = concat (w ++ [s]) ++ concat ps)
        by apply concat_app.
      rewrite E. clear E.
      generalize (concat (w ++ [s])) (passed_on (w ++ [s])). intros A k.
      rewrite firstn_app.
      replace (Nat.min k (List.length A) - List.length A) with 0 by lia.
      cbn [firstn]. rewrite app_nil_r.
      destruct (Nat.le_ge_cases k (List.length A)) as [H|H].
      - now rewrite Nat.min_l.
      - rewrite Nat.min_r, firstn_all by exact H. now apply firstn_all2. }
    split; [|split].
    + constructor; [|exact Hall].
      destruct Hhead as [k ->]. now exists k.
    + destruct ps; exact Hlast.
    + intros _. destruct ps as [|s' ps].
      * left. reflexivity.
      * right. apply Hin. discriminate.
Qed.

(** C8 as stated fails: [save] opens the ledger file itself for writing.
    Here the table of the file, [{c1: 1}], is being replaced by
    [{c1: 2}]; whatever the pieces written and the buffering, after the
    first call of [save] the file is empty, which is neither the text of
    the old table nor the text of the new one. *)
Lemma C8_counterexample :
  let saved := {| OffsetStore.file := Some (Json.dumps [(str "c1", 1%Z)]);
                  OffsetStore._offsets := [(str "c1", 1%Z)] |} in
  let self := {| OffsetStore.file := OffsetStore.file saved;
                 OffsetStore._offsets :=
                   Dict.set (OffsetStore._offsets saved) (str "c1") 2 |} in
  OffsetStore.set saved (str "c1") 2 = OffsetStore.save self
  /\ (forall pieces,
        hd_error (OffsetStore.save_calls pieces self) = Some OffsetStore.Open_w)
  /\ (forall pieces passed_on,
        hd_error (OffsetStore.visible_during_save pieces passed_on self)
        = Some (Some []))
  /\ Some [] <> OffsetStore.file self
  /\ Some [] <> Some (Json.dumps (OffsetStore._offsets self)).
Proof.
  cbv zeta. split; [reflexivity | split; [reflexivity | split]].
  - reflexivity.
  - split; vm_compute; discriminate.
Qed.

(** C8, amended.  Every persistence of the table ([save], and so [set])
    rewrites the ledger file in place: it opens the file itself for
    writing, which truncates it, writes the text of the whole table
    through the file object and closes the file.  Afterwards the file
    holds the text of the new table.  In between, what is on disk is a
    beginning of that text: nothing right after the truncation (which is
    the text of no table, and which a restart reads as an empty table),
    and after the last write as much of the text as the file object has
    passed on, possibly a part of the table only. *)
Theorem C8_save_rewrites_in_place
    (pieces : pystr -> list pystr) (passed_on : list pystr -> nat)
    (self : OffsetStore.t) :
  let text := Json.dumps (OffsetStore._offsets self) in
  let visible := OffsetStore.visible_during_save pieces passed_on self in
  concat (pieces text) = text ->
  hd_error visible = Some (Some [])
  /\ Forall (fun content => exists k, content = Some (firstn k text)) visible
  /\ (pieces text <> [] ->
      In (Some (firstn (passed_on (pieces text)) text)) visible)
  /\ last visible None = Some text
  /\ OffsetStore.file (OffsetStore.save self) = Some text
  /\ (forall c v,
        OffsetStore.file (OffsetStore.set self c v)
        = Some (Json.dumps (Dict.set (OffsetStore._offsets self) c v)))
  /\ text <> []
  /\ OffsetStore._offsets (OffsetStore.init (Some [])) = [].
Proof.
  intros text visible Hp.
  pose proof (contents_after_writes passed_on (pieces text) [] []) as H.
  cbv zeta in H. cbn [app] in H. rewrite Hp in H.
  destruct H as (Hall & Hlast & Hin).
  assert (E : visible
              = Some []
                  :: OffsetStore.contents_after passed_on
                       {| OffsetStore.on_disk := Some [];
                          OffsetStore.written := [] |}
                       (map OffsetStore.Write (pieces text)
                          ++ [OffsetStore.Close])) by reflexivity.
  rewrite E. split; [reflexivity|].
  split; [constructor; [now exists 0 | exact Hall]|].
  split; [intros Hne; right; exact (Hin Hne)|].
  split.
  { destruct (OffsetStore.contents_after _ _ _) eqn:Ec; [|exact Hlast].
    destruct (pieces text); discriminate. }
  split; [reflexivity | split; [reflexivity | split; [discriminate | reflexivity]]].
Qed.

Lemma C8_save_rewrites_in_place_witness :
  let pieces := fun text : pystr => [text] in
  let passed_on := fun _ : list pystr => 4 in
  let self := {| OffsetStore.file := Some (Json.dumps [(str "c1", 1%Z)]);
                 OffsetStore._offsets := [(str "c1", 2%Z)] |} in
  let text := Json.dumps (OffsetStore._offsets self) in
  concat (pieces text) = text
  /\ OffsetStore.visible_during_save pieces passed_on self
     = [Some []; Some (firstn 4 text); Some text]
  /\ Forall (fun content => exists k, content = Some (firstn k text))
       (OffsetStore.visible_during_save pieces passed_on self).
Proof.
  intros pieces passed_on self text.
  assert (H : concat (pieces text) = text) by reflexivity.
  split; [exact H | split; [reflexivity|]].
  exact (proj1 (proj2 (C8_save_rewrites_in_place pieces passed_on self H))).
Defined.

(** ** The command parser *)

Lemma lstrip_spaces (ws s : pystr) :
  forallb Protocol.is_space ws = true ->
  Protocol.lstrip (ws ++ s) = Protocol.lstrip s.
Proof.
  induction ws as [|c ws IH]; cbn [forallb app Protocol.lstrip]; [reflexivity|].
  rewrite andb_true_iff. intros [-> H]. now apply IH.
Qed.

Lemma lstrip_app (a b : pystr) :
  Protocol.lstrip a <> [] ->
  Protocol.lstrip (a ++ b) = Protocol.lstrip a ++ b.
Proof.
  induction a as [|c a IH]; cbn [app Protocol.lstrip]; [congruence|].
  destruct (Protocol.is_space c); [exact IH | reflexivity].
Qed.

Lemma rstrip_spaces (s ws : pystr) :
  forallb Protocol.is_space ws = true ->
  Protocol.rstrip (s ++ ws) = Protocol.rstrip s.
Proof.
  intros H. unfold Protocol.rstrip. rewrite rev_app_distr, lstrip_spaces;
    [reflexivity|].
  rewrite forallb_forall in *. intros x Hx. apply H. now apply in_rev.
Qed.

Lemma rstrip_app (a b : pystr) :
  Protocol.rstrip b <> [] ->
  Protocol.rstrip (a ++ b) = a ++ Protocol.rstrip b.
Proof.
  intros H. unfold Protocol.rstrip in *.
  rewrite rev_app_distr, lstrip_app, rev_app_distr, rev_involutive;
    [reflexivity|].
  intros E. apply H. now rewrite E.
Qed.

Lemma PUSH_token_cases (token : pystr) :
  is_PUSH_token token ->
  exists p u s h,
    token = [p; u; s; h]
    /\ (p = 80 \/ p = 112)%Z /\ (u = 85 \/ u = 117)%Z
    /\ (s = 83 \/ s = 115)%Z /\ (h = 72 \/ h = 104)%Z.
Proof.
  unfold is_PUSH_token. cbn.
  intros H. repeat match goal with
                   | H : Forall2 _ _ (_ :: _) |- _ => inversion H; subst; clear H
                   | H : Forall2 _ _ [] |- _ => inversion H; subst; clear H
                   end.
  eexists _, _, _, _. split; [reflexivity|]. cbn in *. tauto.
Qed.

Lemma split_space_PUSH_token (token rest : pystr) :
  is_PUSH_token token ->
  Protocol.split_space (token ++ 32%Z :: rest) = [token; rest].
Proof.
  intros H. destruct (PUSH_token_cases token H)
    as (p & u & s & h & -> & Hp & Hu & Hs & Hh).
  cbn [app Protocol.split_space].
  decide_tests. reflexivity.
Qed.

Lemma upper_PUSH_token (unicode_upper : Z -> pystr) (token : pystr) :
  is_PUSH_token token ->
  Protocol.upper unicode_upper token = Protocol.PUSH.
Proof.
  intros H. destruct (PUSH_token_cases token H)
    as (p & u & s & h & -> & Hp & Hu & Hs & Hh).
  unfold Protocol.upper, Protocol.upper_char. cbn [flat_map app].
  destruct Hp as [-> | ->], Hu as [-> | ->], Hs as [-> | ->], Hh as [-> | ->];
    reflexivity.
Qed.

Lemma lstrip_PUSH_token (token rest : pystr) :
  is_PUSH_token token ->
  Protocol.lstrip (token ++ rest) = token ++ rest.
Proof.
  intros H. destruct (PUSH_token_cases token H)
    as (p & u & s & h & -> & Hp & _).
  cbn [app Protocol.lstrip].
  destruct Hp as [-> | ->]; reflexivity.
Qed.

Lemma lstrip_nil (s : pystr) :
  Protocol.lstrip s = [] -> forallb Protocol.is_space s = true.
Proof.
  induction s as [|c s IH]; cbn [Protocol.lstrip forallb]; [reflexivity|].
  destruct (Protocol.is_space c); [exact IH | discriminate].
Qed.

Lemma rstrip_nil (s : pystr) :
  Protocol.rstrip s = [] -> forallb Protocol.is_space s = true.
Proof.
  unfold Protocol.rstrip. intros H.
  assert (E : Protocol.lstrip (rev s) = [])
    by (rewrite <- (rev_involutive (Protocol.lstrip (rev s))), H; reflexivity).
  apply lstrip_nil in E. rewrite forallb_forall in *.
  intros x Hx. apply E. now apply in_rev in Hx.
Qed.

(** Without a last character that is whitespace, nothing is stripped at
    the end. *)
Lemma rstrip_last (s : pystr) (c : Z) :
  Protocol.is_space c = false -> Protocol.rstrip (s ++ [c]) = s ++ [c].
Proof.
  intros H. unfold Protocol.rstrip. rewrite rev_app_distr.
  cbn [rev app Protocol.lstrip]. rewrite H. cbn [rev].
  now rewrite rev_involutive.
Qed.

Lemma rstrip_PUSH_token (token : pystr) :
  is_PUSH_token token -> Protocol.rstrip token = token.
Proof.
  intros H. destruct (PUSH_token_cases token H)
    as (p & u & s & h & -> & _ & _ & _ & Hh).
  change [p; u; s; h] with ([p; u; s] ++ [h]). apply rstrip_last.
  destruct Hh as [-> | ->]; reflexivity.
Qed.

Lemma split_space_PUSH_token_alone (token : pystr) :
  is_PUSH_token token -> Protocol.split_space token = [token].
Proof.
  intros H. destruct (PUSH_token_cases token H)
    as (p & u & s & h & -> & Hp & Hu & Hs & Hh).
  cbn [Protocol.split_space]. decide_tests. reflexivity.
Qed.

(** *** Claim about the parser *)

(** C9, amended.  A line made of a PUSH token (in any case), one space, a
    message and a line terminator of whitespace, where the message has a
    character that is no whitespace, parses to a push command whose single
    argument is the message without its trailing whitespace: leading and
    embedded spaces are kept, trailing ones are not.  (A message of
    whitespace only is answered as a missing argument.) *)
Theorem C9_parse_push
    (unicode_upper : Z -> pystr) (token message terminator : pystr) :
  is_PUSH_token token ->
  forallb Protocol.is_space terminator = true ->
  let line := token ++ 32%Z :: message ++ terminator in
  (Protocol.rstrip message <> [] ->
   Protocol.parse_command unicode_upper line
   = Ok {| Protocol.cmd := Protocol.PUSH;
           Protocol.args := [Protocol.rstrip message] |})
  /\ (Protocol.rstrip message = [] ->
      Protocol.parse_command unicode_upper line
      = Raise (ProtocolError (Protocol.PUSH ++ str " requires an argument"))).
Proof.
  intros Htok Hterm line. subst line.
  destruct (PUSH_token_cases token Htok) as (p & u & s & h & Etok & _).
  unfold Protocol.parse_command, Protocol.strip.
  rewrite lstrip_PUSH_token by exact Htok.
  split; intros Hmsg.
  - change (token ++ 32%Z :: message ++ terminator)
      with (token ++ (32%Z :: message) ++ terminator).
    rewrite app_assoc, rstrip_spaces by exact Hterm.
    change (token ++ 32%Z :: message) with (token ++ [32%Z] ++ message).
    rewrite app_assoc, rstrip_app by exact Hmsg.
    rewrite <- app_assoc. cbn [app].
    rewrite Etok at 1. cbn [app].
    rewrite split_space_PUSH_token by exact Htok.
    cbn [nth]. rewrite upper_PUSH_token by exact Htok.
    rewrite pystr_eqb_refl. cbn [orb negb].
    destruct (Protocol.rstrip message); [congruence | reflexivity].
  - rewrite rstrip_spaces, rstrip_PUSH_token by
      (try exact Htok; cbn [forallb]; rewrite forallb_app, Hterm,
         (rstrip_nil _ Hmsg); reflexivity).
    rewrite Etok at 1.
    rewrite split_space_PUSH_token_alone by exact Htok.
    cbn [nth]. rewrite upper_PUSH_token by exact Htok.
    rewrite pystr_eqb_refl. reflexivity.
Qed.

Lemma C9_parse_push_witness :
  let token := str "pUsH" in
  let message := str "  hello  big world  " in
  let terminator := [13; 10]%Z in
  is_PUSH_token token
  /\ forallb Protocol.is_space terminator = true
  /\ Protocol.rstrip message <> []
  /\ Protocol.parse_command (fun c => [c])
       (token ++ 32%Z :: message ++ terminator)
     = Ok {| Protocol.cmd := str "PUSH";
             Protocol.args := [str "  hello  big world"] |}.
Proof.
  intros token message terminator.
  assert (H1 : is_PUSH_token token).
  { repeat constructor; cbn; tauto. }
  assert (H2 : forallb Protocol.is_space terminator = true) by reflexivity.
  assert (H3 : Protocol.rstrip message <> []) by (vm_compute; discriminate).
  split; [exact H1 | split; [exact H2 | split; [exact H3 |]]].
  exact (proj1 (C9_parse_push (fun c => [c]) token message terminator H1 H2) H3).
Defined.

(** C9 as stated fails on a message that ends with a space: the space is
    not part of the argument. *)
Lemma C9_counterexample :
  let message := str "hi " in
  Protocol.parse_command (fun c => [c]) (str "PUSH" ++ 32%Z :: message ++ [10%Z])
  = Ok {| Protocol.cmd := Protocol.PUSH; Protocol.args := [str "hi"] |}
  /\ str "hi" <> message.
Proof. split; [reflexivity | discriminate]. Qed.

(* ================================================================== *)
(** * Part III.  More of the code                                      *)
(* ================================================================== *)

(** ** The log, whatever the file holds *)

(** Whatever bytes the handle holds, the loop of [replay] yields records
    whose frames, one after the other, are the beginning of these bytes;
    what is left after them is a torn record. *)
Lemma replay_loop_decomposes (fuel : nat) :
  forall (f : bytes) (offset : nat),
    List.length f < fuel ->
    let records := map snd (AppendLog.replay_loop fuel f offset) in
    AppendLog.replay_loop fuel f offset = Framing.frames_at offset records
    /\ Forall Framing.fits records
    /\ exists fragment,
         f = Framing.frames records ++ fragment
         /\ Framing.is_fragment fragment = true.
Proof.
  induction fuel as [|fuel IH]; intros f offset Hfuel; [lia|].
  cbn [AppendLog.replay_loop].
  destruct (File.read (N.of_nat AppendLog.HEADER_SIZE) f) as [header f1] eqn:Eh.
  assert (Hshort : List.length f < 4 ->
                   let records := map snd (@nil (nat * bytes)) in
                   [] = Framing.frames_at offset records
                   /\ Forall Framing.fits records
                   /\ exists fragment,
                        f = Framing.frames records ++ fragment
                        /\ Framing.is_fragment fragment = true).
  { intros Hlen. cbn. repeat split; [constructor|]. exists f. split; [reflexivity|].
    destruct f as [|b3 [|b2 [|b1 [|b0 f]]]]; try reflexivity. simpl in Hlen. lia. }
  pose proof (read_length (N.of_nat AppendLog.HEADER_SIZE) f) as Hl.
  rewrite Eh in Hl. cbn [fst] in Hl.
  change (N.to_nat (N.of_nat AppendLog.HEADER_SIZE)) with 4 in Hl.
  destruct (List.length header =? 0) eqn:E0.
  { apply Nat.eqb_eq in E0. apply Hshort. lia. }
  destruct (List.length header <? AppendLog.HEADER_SIZE) eqn:El.
  { apply Nat.ltb_lt in El. unfold AppendLog.HEADER_SIZE in El. apply Hshort. lia. }
  clear Hshort.
  destruct (read_header _ _ _ Eh El) as (b3 & b2 & b1 & b0 & -> & ->).
  destruct (Struct.unpack_u32 [b3; b2; b1; b0]) as [n|e] eqn:Eu; [|discriminate Eu].
  destruct (File.read n f1) as [d f2] eqn:Ed.
  pose proof (read_length n f1) as Hld. pose proof (read_split n f1) as Hs.
  rewrite Ed in Hld, Hs. cbn [fst snd] in Hld, Hs.
  destruct (N.ltb_spec (N.of_nat (List.length d)) n) as [Hlt|Hge].
  - cbn. repeat split; [constructor|].
    exists (b3 :: b2 :: b1 :: b0 :: f1). split; [reflexivity|].
    cbn [Framing.is_fragment]. rewrite Eu. apply N.ltb_lt. lia.
  - apply unpack_u32_bound in Eu as [Hn Hb].
    assert (En : n = N.of_nat (List.length d)) by lia. subst n.
    rewrite Nnat.Nat2N.id.
    destruct (IH f2 (offset + (AppendLog.HEADER_SIZE + List.length d)))
      as (Hr & Hfits & fragment & Hf & Hfrag).
    { assert (List.length f2 <= List.length f1)
        by (rewrite <- Hs, length_app; lia).
      simpl in Hfuel. lia. }
    cbn [map snd Framing.frames_at]. split; [|split].
    + now rewrite <- Hr.
    + constructor; [exact Hn | exact Hfits].
    + exists fragment. split; [|exact Hfrag].
      rewrite frames_cons. unfold Framing.frame at 1.
      rewrite <- Hb, <- !app_assoc, <- Hf, Hs. reflexivity.
Qed.

(** X1.  Whatever the log file holds, [replay] yields records whose
    frames, laid one after the other from offset 0, are the beginning of
    the file, each with the offset of its frame; what is left of the file
    after them is a torn record (fewer than four header bytes, or less
    payload than its header declares). *)
Theorem replay_decomposes (self : AppendLog.t) :
  let records := map snd (AppendLog.replay self) in
  AppendLog.replay self = Framing.frames_at 0 records
  /\ Forall Framing.fits records
  /\ exists fragment,
       AppendLog.file self = Framing.frames records ++ fragment
       /\ Framing.is_fragment fragment = true.
Proof.
  unfold AppendLog.replay, File.open_rb.
  apply replay_loop_decomposes. lia.
Qed.

Lemma frames_at_In (records : list bytes) :
  forall (offset o : nat) (d : bytes),
    In (o, d) (Framing.frames_at offset records) ->
    exists before after,
      Framing.frames records = before ++ Framing.frame d ++ after
      /\ o = offset + List.length before
      /\ In d records.
Proof.
  induction records as [|r records IH]; intros offset o d Hin; [destruct Hin|].
  cbn [Framing.frames_at] in Hin. destruct Hin as [E|Hin].
  - injection E as <- <-. exists [], (Framing.frames records).
    split; [reflexivity | split; [simpl; lia | now left]].
  - destruct (IH _ _ _ Hin) as (before & after & Hf & Ho & Hd).
    exists (Framing.frame r ++ before), after. split; [|split].
    + rewrite frames_cons, Hf, <- app_assoc. reflexivity.
    + rewrite length_app, frame_length. lia.
    + now right.
Qed.

(** X2.  Whatever the log file holds, every record that [replay] yields is
    read back by [read_at] at the offset [replay] gave for it. *)
Theorem replay_read_at (self : AppendLog.t) (offset : nat) (data : bytes) :
  In (offset, data) (AppendLog.replay self) ->
  AppendLog.read_at self offset = Ok data.
Proof.
  intros Hin. unfold AppendLog.replay, File.open_rb in Hin.
  destruct (replay_loop_decomposes (S (List.length (AppendLog.file self)))
              (AppendLog.file self) 0 (Nat.lt_succ_diag_r _))
    as (Hr & Hfits & fragment & Hf & _).
  rewrite Hr in Hin.
  destruct (frames_at_In _ _ _ _ Hin) as (before & after & Hfr & -> & Hd).
  cbn [Nat.add].
  apply read_at_frame with (after := after ++ fragment).
  - eapply Forall_forall; eassumption.
  - rewrite Hf, Hfr, <- !app_assoc. reflexivity.
Qed.

Lemma replay_read_at_witness :
  let self := AppendLog.init [x00; x00; x00; x01; x41; x00; x00; x00; x00;
                              x00; x00; x00; x09; x42] in
  In (5, []) (AppendLog.replay self)
  /\ AppendLog.read_at self 5 = Ok [].
Proof.
  intros self.
  assert (H : In (5, []) (AppendLog.replay self)) by (right; left; reflexivity).
  split; [exact H |].
  exact (replay_read_at self 5 [] H).
Defined.

(** ** Appending again and again *)

Lemma append_all_Ok (payloads : list bytes) :
  forall self : AppendLog.t,
    Forall Framing.fits payloads ->
    LogCalls.append_all self payloads
    = Ok (frame_offsets (AppendLog._write_offset self) payloads,
          AppendLog.mk (AppendLog.file self ++ Framing.frames payloads)
            (AppendLog._write_offset self
             + List.length (Framing.frames payloads))).
Proof.
  induction payloads as [|d payloads IH]; intros self Hfits.
  - cbn. rewrite app_nil_r, Nat.add_0_r. now destruct self.
  - inversion Hfits as [|? ? Hd Hrest]; subst.
    cbn [LogCalls.append_all]. rewrite append_Ok by exact Hd.
    rewrite IH by exact Hrest.
    cbn [AppendLog.file AppendLog._write_offset].
    unfold frame_offsets. cbn [Framing.frames_at map fst].
    rewrite frames_cons, <- app_assoc, length_app, frame_length.
    do 3 f_equal. lia.
Qed.

Lemma append_all_inv (payloads : list bytes) :
  forall (self self' : AppendLog.t) (offsets : list nat),
    LogCalls.append_all self payloads = Ok (offsets, self') ->
    Forall Framing.fits payloads.
Proof.
  induction payloads as [|d payloads IH]; intros self self' offsets H;
    [constructor|].
  cbn [LogCalls.append_all] in H.
  destruct (AppendLog.append self d) as [[offset self1]|e] eqn:Ea;
    [|discriminate].
  destruct (LogCalls.append_all self1 payloads) as [[offs self2]|e] eqn:Er;
    [|discriminate].
  constructor; [now apply append_inv in Ea | eapply IH; eassumption].
Qed.

(** X3.  From a log just opened on any existing file, payloads that fit
    the length field are appended one after the other: the file becomes
    the existing bytes followed by the frames of the payloads, [size] is
    the length of the file, the offsets returned are where the frames
    start, and [read_at] at the offset returned for any of the payloads
    gives that payload back, whatever was appended after it. *)
Theorem append_all_read_back (existing : bytes) (payloads : list bytes) :
  Forall Framing.fits payloads ->
  exists (offsets : list nat) (self' : AppendLog.t),
    LogCalls.append_all (AppendLog.init existing) payloads = Ok (offsets, self')
    /\ AppendLog.file self' = existing ++ Framing.frames payloads
    /\ AppendLog.size self' = List.length (AppendLog.file self')
    /\ offsets = frame_offsets (List.length existing) payloads
    /\ forall i offset data,
         nth_error offsets i = Some offset ->
         nth_error payloads i = Some data ->
         AppendLog.read_at self' offset = Ok data.
Proof.
  intros Hfits. eexists _, _. split; [apply append_all_Ok, Hfits|].
  cbn [AppendLog.init AppendLog.file AppendLog._write_offset AppendLog.size].
  split; [reflexivity | split; [now rewrite length_app | split; [reflexivity|]]].
  intros i offset data Ho Hd.
  destruct (nth_frame payloads i (List.length existing) data Hd)
    as (before & after & Hf & Hn).
  rewrite Hn in Ho. injection Ho as <-.
  replace (List.length existing + List.length before)
    with (List.length (existing ++ before)) by apply length_app.
  apply read_at_frame with (after := after).
  - eapply Forall_forall; [exact Hfits | eapply nth_error_In, Hd].
  - cbn [AppendLog.file]. rewrite Hf, <- app_assoc. reflexivity.
Qed.

Lemma append_all_read_back_witness :
  let existing := [xff; x00] in
  let payloads := [[x61]; []; [x62; x63]] in
  Forall Framing.fits payloads
  /\ exists offsets self',
       LogCalls.append_all (AppendLog.init existing) payloads = Ok (offsets, self')
       /\ offsets = [2; 7; 11]
       /\ AppendLog.read_at self' 7 = Ok [].
Proof.
  intros existing payloads.
  assert (H : Forall Framing.fits payloads)
    by (repeat constructor; vm_compute; reflexivity).
  split; [exact H |].
  destruct (append_all_read_back existing payloads H)
    as (offsets & self' & E & _ & _ & Ho & Hr).
  exists offsets, self'. split; [exact E | split; [exact Ho |]].
  apply (Hr 1); [rewrite Ho |]; reflexivity.
Defined.

(** X4.  On a log whose file is made of complete records only (an empty
    file, for one), what [replay] yields after appending payloads is what
    it yielded before followed by the payloads, each with the offset that
    [append] returned for it. *)
Theorem append_all_replay
    (self self' : AppendLog.t) (records payloads : list bytes)
    (offsets : list nat) :
  log_wf self ->
  Forall Framing.fits records ->
  AppendLog.file self = Framing.frames records ->
  LogCalls.append_all self payloads = Ok (offsets, self') ->
  AppendLog.replay self' = AppendLog.replay self ++ combine offsets payloads.
Proof.
  intros Hwf Hfits Hfile H.
  pose proof (append_all_inv _ _ _ _ H) as Hp.
  rewrite append_all_Ok in H by exact Hp. injection H as <- <-.
  rewrite (replay_frames self records []); [|exact Hfits|reflexivity|].
  2: now rewrite app_nil_r.
  rewrite (replay_frames _ (records ++ payloads) []).
  - rewrite frames_at_app. f_equal. cbn [Nat.add].
    rewrite Hwf, Hfile. unfold frame_offsets.
    generalize (List.length (Framing.frames records)). clear.
    induction payloads as [|d payloads IH]; intros o; [reflexivity|].
    cbn [Framing.frames_at map fst combine]. now rewrite <- IH.
  - apply Forall_app. now split.
  - reflexivity.
  - cbn [AppendLog.file]. now rewrite Hfile, frames_app, app_nil_r.
Qed.

Lemma append_all_replay_witness :
  let self := AppendLog.init [] in
  let payloads := [[x61]; []; [x62; x63]] in
  exists offsets self',
    LogCalls.append_all self payloads = Ok (offsets, self')
    /\ AppendLog.replay self' = [(0, [x61]); (5, []); (9, [x62; x63])].
Proof.
  intros self payloads.
  eexists _, _. split; [reflexivity |].
  exact (append_all_replay self _ [] payloads _
           eq_refl (Forall_nil _) eq_refl eq_refl).
Defined.

(** ** The offset store *)

Lemma dict_get_missing (d : Dict.t) (k : pystr) (default : Z) :
  ~ In k (map fst d) -> Dict.get d k default = default.
Proof.
  induction d as [|[k' v'] d IH]; cbn [Dict.get map fst In]; [reflexivity|].
  intros H. destruct (pystr_eqb k' k) eqn:E.
  - apply pystr_eqb_eq in E. tauto.
  - apply IH. tauto.
Qed.

(** X5.  [set] then [get]: the consumer's offset is the one set, every
    other consumer's offset is as before, a consumer that is no key of the
    table has offset 0, and the table never gets two entries for one
    consumer. *)
Theorem set_then_get (s : OffsetStore.t) (c c' : pystr) (v : Z) :
  OffsetStore.get (OffsetStore.set s c v) c = v
  /\ (c <> c' ->
      OffsetStore.get (OffsetStore.set s c v) c' = OffsetStore.get s c')
  /\ (~ In c' (map fst (OffsetStore.all_offsets s)) ->
      OffsetStore.get s c' = 0%Z)
  /\ (NoDup (map fst (OffsetStore.all_offsets s)) ->
      NoDup (map fst (OffsetStore.all_offsets (OffsetStore.set s c v)))).
Proof.
  split; [apply cursor_set_same | split; [apply cursor_set_other | split]].
  - apply dict_get_missing.
  - apply dict_set_NoDup.
Qed.

Lemma set_then_get_witness :
  let s := OffsetStore.set (OffsetStore.init None) (str "a") 3 in
  str "a" <> str "b"
  /\ ~ In (str "b") (map fst (OffsetStore.all_offsets s))
  /\ NoDup (map fst (OffsetStore.all_offsets s))
  /\ OffsetStore.get (OffsetStore.set s (str "a") 4) (str "a") = 4%Z
  /\ OffsetStore.get (OffsetStore.set s (str "b") 1) (str "a") = 3%Z
  /\ OffsetStore.get s (str "b") = 0%Z
  /\ NoDup (map fst (OffsetStore.all_offsets (OffsetStore.set s (str "a") 4))).
Proof.
  intros s.
  assert (H1 : str "a" <> str "b") by discriminate.
  assert (H1' : str "b" <> str "a") by discriminate.
  assert (H2 : ~ In (str "b") (map fst (OffsetStore.all_offsets s)))
    by (intros [E|[]]; discriminate E).
  assert (H3 : NoDup (map fst (OffsetStore.all_offsets s)))
    by (repeat constructor; intros []).
  split; [exact H1 | split; [exact H2 | split; [exact H3 |]]].
  split; [exact (proj1 (set_then_get s (str "a") (str "b") 4)) |].
  split; [exact (proj1 (proj2 (set_then_get s (str "b") (str "a") 1)) H1') |].
  split; [exact (proj1 (proj2 (proj2 (set_then_get s (str "a") (str "b") 4))) H2) |].
  exact (proj2 (proj2 (proj2 (set_then_get s (str "a") (str "b") 4))) H3).
Defined.

(** X6.  A store opened on the file that [set] has written is the store
    that wrote it, table and file alike, when the consumers of the table
    are distinct and hold no high surrogate immediately followed by a low
    one. *)
Theorem set_then_load (s : OffsetStore.t) (c : pystr) (v : Z) :
  NoDup (map fst (OffsetStore.all_offsets s)) ->
  Forall (fun key => json_safe key = true) (map fst (OffsetStore.all_offsets s)) ->
  json_safe c = true ->
  OffsetStore.init (OffsetStore.file (OffsetStore.set s c v))
  = OffsetStore.set s c v.
Proof.
  intros Hnd Hsafe Hc. unfold OffsetStore.set. rewrite save_file.
  cbn [OffsetStore.file OffsetStore._offsets].
  unfold OffsetStore.init, OffsetStore.load. cbn [OffsetStore.file].
  rewrite loads_dumps; [reflexivity | |].
  - now apply dict_set_keys_Forall.
  - now apply dict_set_NoDup.
Qed.

Lemma set_then_load_witness :
  let s := OffsetStore.set (OffsetStore.init None) (str "c1") 1 in
  let c := [233; 0x1F600]%Z in
  NoDup (map fst (OffsetStore.all_offsets s))
  /\ Forall (fun key => json_safe key = true) (map fst (OffsetStore.all_offsets s))
  /\ json_safe c = true
  /\ OffsetStore.init (OffsetStore.file (OffsetStore.set s c 7))
     = OffsetStore.set s c 7.
Proof.
  intros s c.
  assert (H1 : NoDup (map fst (OffsetStore.all_offsets s)))
    by (repeat constructor; intros []).
  assert (H2 : Forall (fun key => json_safe key = true)
                 (map fst (OffsetStore.all_offsets s)))
    by (repeat constructor).
  assert (H3 : json_safe c = true) by reflexivity.
  split; [exact H1 | split; [exact H2 | split; [exact H3 |]]].
  exact (set_then_load s c 7 H1 H2 H3).
Defined.

(** ** The queue, call by call *)

Lemma pull_raises (q q' : t) (c : pystr) (e : exn) :
  pull q c = (Raise e, q') -> q' = q.
Proof.
  unfold pull.
  destruct (_ <=? _)%Z; [discriminate|].
  destruct (getitem _ _); [|now intros [= _ <-]].
  destruct (AppendLog.read_at _ _); [|now intros [= _ <-]].
  destruct (Utf8.decode _); [discriminate | now intros [= _ <-]].
Qed.

(** X7.  A call that raises leaves the queue exactly as it was: log file,
    write offset, index, ledger table and ledger file. *)
Theorem raising_call_changes_nothing (q : t) (o : op) :
  returned (fst (step q o)) = false -> snd (step q o) = q.
Proof.
  destruct o as [m|c| |c]; cbn [step].
  - destruct (push q m) as [[i|e] q'] eqn:E; cbn [fst snd returned];
      [discriminate | intros _; eapply push_raises, E].
  - destruct (pull q c) as [[r|e] q'] eqn:E; cbn [fst snd returned];
      [discriminate | intros _; eapply pull_raises, E].
  - discriminate.
  - discriminate.
Qed.

Lemma raising_call_changes_nothing_witness :
  let q := snd (run (init empty_dir) [Push (str "kept")]) in
  let o := Push [0xD800%Z] in
  returned (fst (step q o)) = false /\ snd (step q o) = q.
Proof.
  intros q o.
  assert (H : returned (fst (step q o)) = false) by reflexivity.
  split; [exact H |].
  exact (raising_call_changes_nothing q o H).
Defined.

Lemma encode_not_text (m : pystr) :
  is_text m = false -> Utf8.encode m = Raise UnicodeEncodeError.
Proof.
  induction m as [|c m IH]; cbn [is_text forallb Utf8.encode]; [discriminate|].
  destruct (Utf8.encode_cp c) as [bs|] eqn:Ec; [|reflexivity].
  assert (is_scalar c = true) as -> by (apply encode_cp_scalar; eauto).
  cbn [andb]. intros H. unfold is_text in IH. now rewrite (IH H).
Qed.

(** X8.  [push] takes text and only text: a message that is text of less
    than 2^30 characters is appended and gets the next ordinal, the count
    grows by one and the ledger is untouched; a message that holds a
    surrogate or a number that is no code point raises
    [UnicodeEncodeError] and changes nothing. *)
Theorem push_takes_text_only (q : t) (m : pystr) :
  (is_text m = true ->
   (N.of_nat (List.length m) < 1073741824)%N ->
   exists q',
     push q m = (Ok (fst (message_count q)), q')
     /\ fst (message_count q') = S (fst (message_count q))
     /\ _offsets q' = _offsets q)
  /\ (is_text m = false -> push q m = (Raise UnicodeEncodeError, q)).
Proof.
  split.
  - intros Ht Hlen. destruct (encode_text m Ht) as [data Henc].
    pose proof (encode_length m data Henc) as Hl.
    unfold push. rewrite Henc, append_Ok by (unfold Framing.fits; lia).
    eexists. split; [reflexivity|].
    cbn [message_count fst _index _offsets]. rewrite length_app. simpl.
    split; [lia | reflexivity].
  - intros Ht. unfold push. now rewrite (encode_not_text m Ht).
Qed.

Lemma push_takes_text_only_witness :
  let q := init empty_dir in
  is_text (str "hello") = true
  /\ (N.of_nat (List.length (str "hello")) < 1073741824)%N
  /\ is_text [104; 0xDC00]%Z = false
  /\ (exists q', push q (str "hello") = (Ok 0, q'))
  /\ push q [104; 0xDC00]%Z = (Raise UnicodeEncodeError, q).
Proof.
  intros q.
  assert (H1 : is_text (str "hello") = true) by reflexivity.
  assert (H2 : (N.of_nat (List.length (str "hello")) < 1073741824)%N)
    by (vm_compute; reflexivity).
  assert (H3 : is_text [104; 0xDC00]%Z = false) by reflexivity.
  split; [exact H1 | split; [exact H2 | split; [exact H3 | split]]].
  - destruct (proj1 (push_takes_text_only q (str "hello")) H1 H2)
      as (q' & E & _).
    exists q'. exact E.
  - exact (proj2 (push_takes_text_only q [104; 0xDC00]%Z) H3).
Defined.

(** ** The queue, over any sequence of calls *)

Lemma push_offsets (q : t) (m : pystr) : _offsets (snd (push q m)) = _offsets q.
Proof.
  unfold push. destruct (Utf8.encode m); [|reflexivity].
  destruct (AppendLog.append _ _) as [[offset log']|e]; reflexivity.
Qed.

Lemma push_index (q : t) (m : pystr) :
  match fst (push q m) with
  | Ok i => i = List.length (_index q)
            /\ List.length (_index (snd (push q m))) = S (List.length (_index q))
  | Raise _ => snd (push q m) = q
  end.
Proof.
  unfold push. destruct (Utf8.encode m); [|reflexivity].
  destruct (AppendLog.append _ _) as [[offset log']|e]; [|reflexivity].
  cbn [fst snd _index]. rewrite length_app. simpl. lia.
Qed.

(** X9.  Over any sequence of calls, from any state, a consumer's cursor
    grows by exactly the number of messages delivered to it: one for each
    pull that returns a message, nothing for a pull that returns [None] or
    raises, nothing for the pulls of other consumers and for pushes.  So
    it never decreases. *)
Theorem cursor_counts_deliveries (q : t) (ops : list op) (c : pystr) :
  cursor (snd (run q ops)) c
  = (cursor q c + Z.of_nat (List.length (delivered c (fst (run q ops)))))%Z.
Proof.
  revert q. induction ops as [|o ops IH]; intros q; [cbn; lia|].
  cbn [run]. destruct (step q o) as [out q1] eqn:Es.
  specialize (IH q1). destruct (run q1 ops) as [outs q2].
  cbn [fst snd] in *. rewrite IH. clear IH.
  destruct o as [m|d| |d]; cbn [step] in Es.
  - pose proof (push_offsets q m) as Ho.
    destruct (push q m) as [r q']. injection Es as <- <-.
    cbn [snd] in Ho. unfold cursor. rewrite Ho. reflexivity.
  - destruct (pull q d) as [r q'] eqn:Ep. injection Es as <- <-.
    revert Ep. unfold pull.
    destruct (_ <=? _)%Z; [now intros [= <- <-]|].
    destruct (getitem _ _); [|now intros [= <- <-]].
    destruct (AppendLog.read_at _ _); [|now intros [= <- <-]].
    destruct (Utf8.decode _); intros [= <- <-]; [|reflexivity].
    cbn [delivered]. unfold cursor. cbn [_offsets].
    destruct (pystr_eqb d c) eqn:E.
    + apply pystr_eqb_eq in E. subst d. rewrite cursor_set_same.
      cbn [List.length]. lia.
    + apply pystr_eqb_neq in E. now rewrite cursor_set_other.
  - injection Es as <- <-. reflexivity.
  - injection Es as <- <-. reflexivity.
Qed.

(** X10.  Over any sequence of calls, from any state, the pushes that
    return get consecutive ordinals, starting at the message count of the
    state; the count afterwards is the count before plus the number of
    pushes that returned.  Pulls, and pushes that raise, do not change
    it. *)
Theorem count_and_ordinals (q : t) (ops : list op) :
  let outs := fst (run q ops) in
  History.ordinals outs
  = seq (fst (message_count q)) (List.length (History.ordinals outs))
  /\ fst (message_count (snd (run q ops)))
     = fst (message_count q) + List.length (History.ordinals outs).
Proof.
  cbn [message_count fst].
  revert q. induction ops as [|o ops IH]; intros q; [cbn; split; [reflexivity|lia]|].
  cbn [run]. destruct (step q o) as [out q1] eqn:Es.
  specialize (IH q1). destruct (run q1 ops) as [outs q2].
  cbn [fst snd] in *. destruct IH as [IH1 IH2].
  destruct o as [m|d| |d]; cbn [step] in Es.
  - pose proof (push_index q m) as Hp.
    destruct (push q m) as [[i|e] q']; injection Es as <- <-;
      cbn [fst snd] in Hp; cbn [History.ordinals List.length seq].
    + destruct Hp as [-> Hlen]. rewrite Hlen in IH1, IH2.
      split; [now rewrite <- IH1 | lia].
    + subst q'. now split.
  - destruct (pull q d) as [r q'] eqn:Ep. injection Es as <- <-.
    destruct (pull_frame _ _ _ _ Ep) as [_ Hi]. rewrite Hi in IH1, IH2.
    now split.
  - injection Es as <- <-. now split.
  - injection Es as <- <-. now split.
Qed.

Lemma firstn_S_nth {A} (l : list A) (i : nat) (x : A) :
  nth_error l i = Some x -> firstn (S i) l = firstn i l ++ [x].
Proof.
  revert i. induction l as [|y l IH]; intros [|i] H; try discriminate.
  - injection H as ->. reflexivity.
  - simpl in H. cbn [firstn app]. f_equal. exact (IH _ H).
Qed.

(** The queue and its history: the log and index hold the messages pushed
    so far, and what has been delivered to a consumer extends the
    messages below its cursor up to its new cursor. *)
Lemma run_history (ops : list op) :
  forall (q : t) (msgs0 : list pystr) (records0 : list bytes),
    holds q msgs0 records0 ->
    cursors_within (_offsets q) (List.length msgs0) ->
    let outs := fst (run q ops) in
    let q' := snd (run q ops) in
    let all := msgs0 ++ History.pushed ops outs in
    (exists records, holds q' all records)
    /\ cursors_within (_offsets q') (List.length all)
    /\ forallb returned (filter (fun o => match o with Pulled _ _ => true | _ => false end) outs) = true
    /\ forall c,
         firstn (Z.to_nat (cursor q' c)) all
         = firstn (Z.to_nat (cursor q c)) all ++ delivered c outs.
Proof.
  induction ops as [|o ops IH]; intros q msgs0 records0 H Hw.
  - cbn. rewrite app_nil_r. split; [eauto | split; [exact Hw | split; [reflexivity|]]].
    intros c. now rewrite app_nil_r.
  - cbn [run]. destruct o as [m|d| |d]; cbn [step].
    + (* push *)
      destruct (push q m) as [[i|e] q1] eqn:Ep.
      * destruct (push_returns _ _ _ _ _ _ H Ep) as (_ & Hoff & r & H1).
        assert (Hw1 : cursors_within (_offsets q1) (List.length (msgs0 ++ [m]))).
        { rewrite Hoff. eapply cursors_within_mono; [|exact Hw].
          rewrite length_app. lia. }
        specialize (IH q1 (msgs0 ++ [m]) (records0 ++ [r]) H1 Hw1).
        destruct (run q1 ops) as [outs q2]. cbn [fst snd] in *.
        cbn [History.pushed filter].
        rewrite <- app_assoc in IH. cbn [app] in IH.
        destruct IH as (Hh & Hw2 & Hret & Hd).
        split; [exact Hh | split; [exact Hw2 | split; [exact Hret|]]].
        intros c. rewrite Hd. unfold cursor. now rewrite Hoff.
      * apply push_raises in Ep. subst q1.
        specialize (IH q msgs0 records0 H Hw).
        destruct (run q ops) as [outs q2]. cbn [fst snd] in *.
        exact IH.
    + (* pull *)
      destruct (Z.leb_spec (Z.of_nat (List.length msgs0))
                  (OffsetStore.get (_offsets q) d)) as [Hfull|Hmore].
      * rewrite pull_empty
          by (destruct (holds_length _ _ _ H) as [-> _]; exact Hfull).
        specialize (IH q msgs0 records0 H Hw).
        destruct (run q ops) as [outs q2]. cbn [fst snd] in *.
        cbn [History.pushed filter forallb returned andb delivered].
        exact IH.
      * pose proof (Hw d) as Hd.
        set (i := Z.to_nat (OffsetStore.get (_offsets q) d)).
        assert (Hi : OffsetStore.get (_offsets q) d = Z.of_nat i)
          by (unfold i; lia).
        destruct (nth_error msgs0 i) as [m|] eqn:Em;
          [|apply nth_error_None in Em; lia].
        rewrite (pull_delivers q msgs0 records0 d i m H Hi Em).
        set (q1 := {| _log := _log q;
                      _offsets := OffsetStore.set (_offsets q) d (Z.of_nat i + 1);
                      _index := _index q |}).
        assert (H1 : holds q1 msgs0 records0)
          by (apply (holds_frame q q1); [reflexivity | reflexivity | exact H]).
        assert (Hw1 : cursors_within (_offsets q1) (List.length msgs0)).
        { unfold q1. cbn [_offsets]. apply cursors_within_set; [exact Hw | lia]. }
        specialize (IH q1 msgs0 records0 H1 Hw1).
        destruct (run q1 ops) as [outs q2]. cbn [fst snd] in *.
        cbn [History.pushed filter forallb returned andb delivered].
        destruct IH as (Hh & Hw2 & Hret & Hdel).
        split; [exact Hh | split; [exact Hw2 | split; [exact Hret|]]].
        intros c. rewrite Hdel. unfold cursor, q1. cbn [_offsets].
        destruct (pystr_eqb d c) eqn:E.
        -- apply pystr_eqb_eq in E. subst d. rewrite cursor_set_same. fold i.
           replace (Z.to_nat (Z.of_nat i + 1)) with (S i) by lia.
           rewrite (firstn_S_nth _ i m), <- app_assoc; [reflexivity|].
           rewrite nth_error_app1; [exact Em | apply nth_error_Some; congruence].
        -- apply pystr_eqb_neq in E. now rewrite cursor_set_other.
    + cbn [message_count]. specialize (IH q msgs0 records0 H Hw).
      destruct (run q ops) as [outs q2]. cbn [fst snd] in *.
      cbn [History.pushed filter delivered]. exact IH.
    + cbn [consumer_offset]. specialize (IH q msgs0 records0 H Hw).
      destruct (run q ops) as [outs q2]. cbn [fst snd] in *.
      cbn [History.pushed filter delivered]. exact IH.
Qed.

(** X11.  From an empty data directory, over any sequence of pushes,
    pulls, counts and cursor queries in any order: what has been
    delivered to a consumer is the beginning of the sequence of the
    messages pushed, in push order, as long as its cursor says (no message
    skipped, none repeated); no pull raises; and the count is the number
    of messages pushed. *)
Theorem delivered_is_prefix_of_pushed (ops : list op) (c : pystr) :
  let outs := fst (run (init empty_dir) ops) in
  let q := snd (run (init empty_dir) ops) in
  delivered c outs = firstn (Z.to_nat (cursor q c)) (History.pushed ops outs)
  /\ forallb returned
       (filter (fun o => match o with Pulled _ _ => true | _ => false end) outs)
     = true
  /\ fst (message_count q) = List.length (History.pushed ops outs).
Proof.
  destruct (run_history ops (init empty_dir) [] [] holds_empty_dir
              (cursors_within_empty_dir 0))
    as ((records & Hh) & _ & Hret & Hd).
  cbn [app] in *. split; [|split; [exact Hret|]].
  - specialize (Hd c). rewrite Hd. reflexivity.
  - apply (holds_length _ _ _ Hh).
Qed.

(** X12.  A consumer that has pulled [k] of the messages pushed so far,
    and then, after more messages have been pushed, pulls again, gets the
    messages from ordinal [k] on: the remaining ones of the first batch,
    then those of the second, none skipped and none repeated. *)
Theorem consumer_resumes_from_cursor
    (msgs1 msgs2 : list pystr) (c : pystr) (k n : nat) :
  let ops :=
    map Push msgs1 ++ repeat (Pull c) k ++ map Push msgs2 ++ repeat (Pull c) n in
  let q1 := snd (run (init empty_dir) (map Push msgs1)) in
  let q2 := snd (run q1 (repeat (Pull c) k)) in
  let q3 := snd (run q2 (map Push msgs2)) in
  forallb returned (fst (run (init empty_dir) (map Push msgs1))) = true ->
  forallb returned (fst (run q2 (map Push msgs2))) = true ->
  k <= List.length msgs1 ->
  k + n <= List.length (msgs1 ++ msgs2) ->
  fst (run q3 (repeat (Pull c) n))
  = map (fun m => Pulled c (Ok (Some m))) (firstn n (skipn k (msgs1 ++ msgs2)))
  /\ snd (run (init empty_dir) ops) = snd (run q3 (repeat (Pull c) n)).
Proof.
  intros ops q1 q2 q3 Hret1 Hret2 Hk Hn.
  destruct (run_pushes msgs1 (init empty_dir) [] [] holds_empty_dir Hret1)
    as (_ & Hoff1 & records1 & H1).
  fold q1 in Hoff1, H1. cbn [app] in H1.
  assert (Hc1 : cursor q1 c = Z.of_nat 0) by (unfold cursor; now rewrite Hoff1).
  destruct (run_pulls k q1 msgs1 records1 c 0 H1 Hc1 Hk) as (_ & H2 & Hc2).
  fold q2 in H2, Hc2. cbn [Nat.add] in Hc2.
  destruct (run_pushes msgs2 q2 msgs1 records1 H2 Hret2)
    as (_ & Hoff3 & records2 & H3).
  fold q3 in Hoff3, H3.
  assert (Hc3 : cursor q3 c = Z.of_nat k) by (unfold cursor; now rewrite Hoff3).
  destruct (run_pulls n q3 (msgs1 ++ msgs2) (records1 ++ records2) c k H3 Hc3 Hn)
    as (E & _ & _).
  split; [exact E|].
  subst ops. rewrite !run_app. reflexivity.
Qed.

Lemma consumer_resumes_from_cursor_witness :
  let msgs1 := [str "msg1"; str "msg2"; str "msg3"] in
  let msgs2 := [str "msg4"; str "msg5"] in
  let c := str "resuming-consumer" in
  let q1 := snd (run (init empty_dir) (map Push msgs1)) in
  let q2 := snd (run q1 (repeat (Pull c) 2)) in
  let q3 := snd (run q2 (map Push msgs2)) in
  forallb returned (fst (run (init empty_dir) (map Push msgs1))) = true
  /\ forallb returned (fst (run q2 (map Push msgs2))) = true
  /\ fst (run q3 (repeat (Pull c) 3))
     = [Pulled c (Ok (Some (str "msg3"))); Pulled c (Ok (Some (str "msg4")));
        Pulled c (Ok (Some (str "msg5")))].
Proof.
  intros msgs1 msgs2 c q1 q2 q3.
  assert (H1 : forallb returned (fst (run (init empty_dir) (map Push msgs1))) = true)
    by (vm_compute; reflexivity).
  assert (H2 : forallb returned (fst (run q2 (map Push msgs2))) = true)
    by (vm_compute; reflexivity).
  split; [exact H1 | split; [exact H2 |]].
  refine (proj1 (consumer_resumes_from_cursor msgs1 msgs2 c 2 3 H1 H2 _ _));
    vm_compute; lia.
Defined.

(** ** Decoding gives text *)

Lemma byte_of_Z_of_byte (b : byte) : Utf8.byte_of_Z (Utf8.Z_of_byte b) = b.
Proof.
  unfold Utf8.byte_of_Z, Utf8.Z_of_byte, Struct.byte_of_N.
  rewrite N2Z.id. pose proof (Byte.to_N_bounded b).
  rewrite N.mod_small by lia. now rewrite Byte.of_to_N.
Qed.

Lemma Z_of_byte_range (b : byte) : (0 <= Utf8.Z_of_byte b < 256)%Z.
Proof.
  unfold Utf8.Z_of_byte. pose proof (Byte.to_N_bounded b). lia.
Qed.

Lemma bind_Ok {A B} (r : result A) (k : A -> result B) (b : B) :
  bind r k = Ok b -> exists a, r = Ok a /\ k a = Ok b.
Proof. destruct r as [a|e]; [eauto | discriminate]. Qed.

Lemma Ok_inj {A} (a b : A) : Ok a = Ok b -> a = b.
Proof. congruence. Qed.

Lemma cons_inj {A} (a b : A) (l r : list A) : a :: l = b :: r -> a = b /\ l = r.
Proof. intros H. split; congruence. Qed.

(** What the decoder accepts is text, and encoding it gives the bytes
    back. *)
Lemma decode_Z_text (n : nat) :
  forall (bs : list Z) (s : pystr),
    List.length bs <= n ->
    Forall (fun b => 0 <= b < 256)%Z bs ->
    Utf8.decode_Z bs = Ok s ->
    is_text s = true /\ Utf8.encode s = Ok (map Utf8.byte_of_Z bs).
Proof.
  induction n as [|n IH]; intros bs s Hlen Hb.
  { destruct bs; [|simpl in Hlen; lia]. intros H. apply Ok_inj in H. subst s.
    now split. }
  destruct bs as [|b0 t0].
  { intros H. apply Ok_inj in H. subst s. now split. }
  apply Forall_cons_iff in Hb. destruct Hb as [Hb0 Hb].
  cbn [Utf8.decode_Z]. cbn [List.length] in Hlen.
  unfold Utf8.continuation, Utf8.between.
  destruct (Z.ltb_spec b0 0x80) as [H0|H0].
  { intros H. apply bind_Ok in H. destruct H as (s' & Hs' & H).
    apply Ok_inj in H. subst s.
    destruct (IH t0 s' ltac:(lia) Hb Hs') as [Ht He].
    cbn [is_text forallb Utf8.encode]. fold (is_text s'). rewrite Ht.
    split.
    - rewrite andb_true_r. apply is_scalar_spec. lia.
    - unfold Utf8.encode_cp. decide_tests. rewrite He. reflexivity. }
  destruct (andb (0xC2 <=? b0)%Z (b0 <=? 0xDF)%Z) eqn:E2.
  { apply andb_true_iff in E2. rewrite !Z.leb_le in E2.
    destruct t0 as [|b1 t1]; [discriminate|].
    apply Forall_cons_iff in Hb. destruct Hb as [Hb1 Hb].
    destruct (andb (0x80 <=? b1)%Z (b1 <=? 0xBF)%Z) eqn:E; [|discriminate].
    apply andb_true_iff in E. rewrite !Z.leb_le in E.
    intros H. apply bind_Ok in H. destruct H as (s' & Hs' & H).
    apply Ok_inj in H. subst s. cbn [List.length] in Hlen.
    destruct (IH t1 s' ltac:(lia) Hb Hs') as [Ht He].
    cbn [is_text forallb Utf8.encode]. fold (is_text s'). rewrite Ht.
    split.
    - rewrite andb_true_r. apply is_scalar_spec. lia.
    - unfold Utf8.encode_cp. decide_tests. rewrite He. cbn [bind map app].
      do 2 f_equal; [f_equal; lia | f_equal; f_equal; lia]. }
  destruct (andb (0xE0 <=? b0)%Z (b0 <=? 0xEF)%Z) eqn:E3.
  { apply andb_true_iff in E3. rewrite !Z.leb_le in E3.
    destruct t0 as [|b1 [|b2 t2]]; [discriminate|discriminate|].
    apply Forall_cons_iff in Hb. destruct Hb as [Hb1 Hb].
    apply Forall_cons_iff in Hb. destruct Hb as [Hb2 Hb].
    match goal with |- (if ?c then _ else _) = _ -> _ => destruct c eqn:E end;
      [|discriminate].
    apply andb_true_iff in E. destruct E as [E1 Ec2].
    apply andb_true_iff in E1. destruct E1 as [E1lo E1hi].
    apply andb_true_iff in Ec2. rewrite !Z.leb_le in Ec2.
    rewrite Z.leb_le in E1lo, E1hi.
    assert (Hlo : (0x80 <= b1 /\ (b0 = 0xE0 -> 0xA0 <= b1))%Z)
      by (destruct (Z.eqb_spec b0 0xE0); lia).
    assert (Hhi : (b1 <= 0xBF /\ (b0 = 0xED -> b1 <= 0x9F))%Z)
      by (destruct (Z.eqb_spec b0 0xED); lia).
    clear E1lo E1hi.
    intros H. apply bind_Ok in H. destruct H as (s' & Hs' & H).
    apply Ok_inj in H. subst s. cbn [List.length] in Hlen.
    destruct (IH t2 s' ltac:(lia) Hb Hs') as [Ht He].
    cbn [is_text forallb Utf8.encode]. fold (is_text s'). rewrite Ht.
    split.
    - rewrite andb_true_r. apply is_scalar_spec. lia.
    - unfold Utf8.encode_cp, is_surrogate. decide_tests.
      match goal with
      | |- context [andb ?a ?b] =>
          replace (andb a b) with false
            by (symmetry; apply andb_false_iff; rewrite !Z.leb_gt; lia)
      end.
      rewrite He. cbn [bind map app].
      do 2 f_equal; [f_equal; lia | f_equal; [f_equal; lia | f_equal; f_equal; lia]]. }
  destruct (andb (0xF0 <=? b0)%Z (b0 <=? 0xF4)%Z) eqn:E4; [|discriminate].
  apply andb_true_iff in E4. rewrite !Z.leb_le in E4.
  destruct t0 as [|b1 [|b2 [|b3 t3]]]; [discriminate|discriminate|discriminate|].
  apply Forall_cons_iff in Hb. destruct Hb as [Hb1 Hb].
  apply Forall_cons_iff in Hb. destruct Hb as [Hb2 Hb].
  apply Forall_cons_iff in Hb. destruct Hb as [Hb3 Hb].
  match goal with |- (if ?c then _ else _) = _ -> _ => destruct c eqn:E end;
    [|discriminate].
  apply andb_true_iff in E. destruct E as [E1 Ec3].
  apply andb_true_iff in E1. destruct E1 as [E1 Ec2].
  apply andb_true_iff in E1. destruct E1 as [E1lo E1hi].
  apply andb_true_iff in Ec2. apply andb_true_iff in Ec3.
  rewrite !Z.leb_le in Ec2, Ec3. rewrite Z.leb_le in E1lo, E1hi.
  assert (Hlo : (0x80 <= b1 /\ (b0 = 0xF0 -> 0x90 <= b1))%Z)
    by (destruct (Z.eqb_spec b0 0xF0); lia).
  assert (Hhi : (b1 <= 0xBF /\ (b0 = 0xF4 -> b1 <= 0x8F))%Z)
    by (destruct (Z.eqb_spec b0 0xF4); lia).
  clear E1lo E1hi.
  intros H. apply bind_Ok in H. destruct H as (s' & Hs' & H).
  apply Ok_inj in H. subst s. cbn [List.length] in Hlen.
  destruct (IH t3 s' ltac:(lia) Hb Hs') as [Ht He].
  cbn [is_text forallb Utf8.encode]. fold (is_text s'). rewrite Ht.
  split.
  - rewrite andb_true_r. apply is_scalar_spec. lia.
  - unfold Utf8.encode_cp, is_surrogate. decide_tests.
    rewrite He. cbn [bind map app].
    do 2 f_equal; [f_equal; lia
                  | f_equal; [f_equal; lia
                             | f_equal; [f_equal; lia | f_equal; f_equal; lia]]].
Qed.

Lemma decode_text (b : bytes) (s : pystr) :
  Utf8.decode b = Ok s -> is_text s = true /\ Utf8.encode s = Ok b.
Proof.
  unfold Utf8.decode. intros H.
  destruct (decode_Z_text (List.length (map Utf8.Z_of_byte b))
              (map Utf8.Z_of_byte b) s (le_n _)) as [Ht He]; [|exact H|].
  - apply Forall_map, Forall_forall. intros x _. apply Z_of_byte_range.
  - split; [exact Ht|].
    rewrite He, map_map. f_equal.
    rewrite <- (map_id b) at 2. apply map_ext. apply byte_of_Z_of_byte.
Qed.

(** ** Stripping and splitting *)

Lemma is_text_app (a b : pystr) : is_text (a ++ b) = is_text a && is_text b.
Proof. apply forallb_app. Qed.

Lemma lstrip_decompose (s : pystr) :
  exists ws, s = ws ++ Protocol.lstrip s /\ forallb Protocol.is_space ws = true.
Proof.
  induction s as [|c s (ws & E & H)]; [now exists []|].
  cbn [Protocol.lstrip]. destruct (Protocol.is_space c) eqn:Ec.
  - exists (c :: ws). cbn [app forallb]. rewrite Ec, H. now rewrite <- E.
  - now exists [].
Qed.

Lemma lstrip_head (s r : pystr) (c : Z) :
  Protocol.lstrip s = c :: r -> Protocol.is_space c = false.
Proof.
  induction s as [|d s IH]; cbn [Protocol.lstrip]; [discriminate|].
  destruct (Protocol.is_space d) eqn:Ed; [exact IH|].
  intros H. apply cons_inj in H. destruct H as [<- _]. exact Ed.
Qed.

Lemma lstrip_idem (s : pystr) :
  Protocol.lstrip (Protocol.lstrip s) = Protocol.lstrip s.
Proof.
  destruct (Protocol.lstrip s) as [|c r] eqn:E; [reflexivity|].
  cbn [Protocol.lstrip]. now rewrite (lstrip_head _ _ _ E).
Qed.

Lemma rstrip_decompose (s : pystr) :
  exists ws, s = Protocol.rstrip s ++ ws /\ forallb Protocol.is_space ws = true.
Proof.
  destruct (lstrip_decompose (rev s)) as (ws & E & H).
  exists (rev ws). split.
  - unfold Protocol.rstrip. rewrite <- rev_app_distr, <- E.
    now rewrite rev_involutive.
  - rewrite forallb_forall in *. intros x Hx. apply H. now apply in_rev.
Qed.

Lemma rstrip_idem (s : pystr) :
  Protocol.rstrip (Protocol.rstrip s) = Protocol.rstrip s.
Proof.
  unfold Protocol.rstrip. now rewrite rev_involutive, lstrip_idem.
Qed.

Lemma rstrip_lstrip (s : pystr) :
  Protocol.lstrip (Protocol.rstrip (Protocol.lstrip s))
  = Protocol.rstrip (Protocol.lstrip s).
Proof.
  destruct (Protocol.lstrip s) as [|c r] eqn:E; [reflexivity|].
  pose proof (lstrip_head _ _ _ E) as Hc.
  destruct (rstrip_decompose (c :: r)) as (ws & Ed & Hws).
  destruct (Protocol.rstrip (c :: r)) as [|c' r'] eqn:Er; [reflexivity|].
  cbn [app] in Ed. apply cons_inj in Ed. destruct Ed as [<- _].
  cbn [Protocol.lstrip]. now rewrite Hc.
Qed.

(** Stripping twice is stripping once. *)
Lemma strip_idem (s : pystr) : Protocol.strip (Protocol.strip s) = Protocol.strip s.
Proof.
  unfold Protocol.strip. now rewrite rstrip_lstrip, rstrip_idem.
Qed.

Lemma strip_decompose (s : pystr) :
  exists l r,
    s = l ++ Protocol.strip s ++ r
    /\ forallb Protocol.is_space l = true
    /\ forallb Protocol.is_space r = true.
Proof.
  destruct (lstrip_decompose s) as (l & El & Hl).
  destruct (rstrip_decompose (Protocol.lstrip s)) as (r & Er & Hr).
  exists l, r. unfold Protocol.strip. now rewrite <- Er, <- El.
Qed.

Lemma strip_text (s : pystr) : is_text s = true -> is_text (Protocol.strip s) = true.
Proof.
  destruct (strip_decompose s) as (l & r & E & _). intros H.
  rewrite E, !is_text_app, !andb_true_iff in H. tauto.
Qed.

Lemma rstrip_length (s : pystr) : List.length (Protocol.rstrip s) <= List.length s.
Proof.
  destruct (rstrip_decompose s) as (ws & E & _).
  rewrite E at 2. rewrite length_app. lia.
Qed.

(** [split(" ", 1)] gives the whole string when it has no space, else
    what is before the first space and what is after it. *)
Lemma split_space_cases (s : pystr) :
  (Protocol.split_space s = [s] /\ Forall (fun c => c <> 32%Z) s)
  \/ exists a b,
       Protocol.split_space s = [a; b]
       /\ s = a ++ 32%Z :: b /\ Forall (fun c => c <> 32%Z) a.
Proof.
  induction s as [|c s IH]; [left; now split|].
  cbn [Protocol.split_space]. destruct (Z.eqb_spec c 32) as [->|Hc].
  - right. exists [], s. now split.
  - destruct IH as [[-> H] | (a & b & -> & E & H)].
    + left. split; [reflexivity | now constructor].
    + right. exists (c :: a), b. split; [reflexivity|].
      split; [now rewrite E | now constructor].
Qed.

(** An argument that is cut from a stripped line has no trailing
    whitespace. *)
Lemma stripped_argument (s part0 arg : pystr) :
  Protocol.rstrip s = s -> s = part0 ++ 32%Z :: arg -> arg <> [] ->
  Protocol.rstrip arg = arg.
Proof.
  intros Hs E Harg. subst s.
  destruct (Protocol.rstrip arg) as [|c r] eqn:Er.
  - exfalso. apply rstrip_nil in Er.
    change (part0 ++ 32%Z :: arg) with (part0 ++ [32%Z] ++ arg) in Hs.
    rewrite app_assoc, rstrip_spaces in Hs by exact Er.
    rewrite rstrip_spaces in Hs by reflexivity.
    pose proof (rstrip_length part0) as Hl. rewrite Hs in Hl.
    rewrite !length_app in Hl. simpl in Hl. lia.
  - change (part0 ++ 32%Z :: arg) with (part0 ++ [32%Z] ++ arg) in Hs.
    rewrite app_assoc, rstrip_app in Hs by (rewrite Er; discriminate).
    apply app_inv_head in Hs. now rewrite <- Er.
Qed.

(** ** The parser, whatever the line *)

Lemma parse_command_cases (unicode_upper : Z -> pystr) (line : pystr) :
  match Protocol.parse_command unicode_upper line with
  | Ok c =>
      exists part0 arg,
        Protocol.strip line = part0 ++ 32%Z :: arg
        /\ Forall (fun c => c <> 32%Z) part0
        /\ arg <> []
        /\ (Protocol.upper unicode_upper part0 = Protocol.PUSH
            \/ Protocol.upper unicode_upper part0 = Protocol.PULL)
        /\ c = {| Protocol.cmd := Protocol.upper unicode_upper part0;
                  Protocol.args := [arg] |}
  | Raise e =>
      (Protocol.strip line = [] /\ e = ProtocolError (str "Empty command"))
      \/ (exists part0 rest,
            Protocol.strip line = part0 ++ rest
            /\ e = ProtocolError (str "Unknown command: " ++ part0))
      \/ (exists keyword,
            (keyword = Protocol.PUSH \/ keyword = Protocol.PULL)
            /\ e = ProtocolError (keyword ++ str " requires an argument"))
  end.
Proof.
  unfold Protocol.parse_command.
  destruct (Protocol.strip line) as [|c0 s0] eqn:Es; [left; now split|].
  destruct (split_space_cases (c0 :: s0)) as [[-> _] | (a & b & -> & E & Ha)];
    cbn [nth].
  - destruct (pystr_eqb _ Protocol.PUSH) eqn:E1; cbn [orb negb].
    + apply pystr_eqb_eq in E1. rewrite E1. right. right.
      exists Protocol.PUSH. split; [now left | reflexivity].
    + destruct (pystr_eqb _ Protocol.PULL) eqn:E2; cbn [negb].
      * apply pystr_eqb_eq in E2. rewrite E2. right. right.
        exists Protocol.PULL. split; [now right | reflexivity].
      * right. left. exists (c0 :: s0), []. now rewrite app_nil_r.
  - assert (Hk : pystr_eqb (Protocol.upper unicode_upper a) Protocol.PUSH
                 || pystr_eqb (Protocol.upper unicode_upper a) Protocol.PULL = true
                 -> Protocol.upper unicode_upper a = Protocol.PUSH
                    \/ Protocol.upper unicode_upper a = Protocol.PULL)
      by (rewrite orb_true_iff, !pystr_eqb_eq; tauto).
    destruct (pystr_eqb _ Protocol.PUSH || pystr_eqb _ Protocol.PULL) eqn:E1;
      cbn [negb].
    + specialize (Hk eq_refl). destruct b as [|b0 b'].
      * right. right. exists (Protocol.upper unicode_upper a).
        split; [exact Hk | reflexivity].
      * exists a, (b0 :: b'). rewrite E.
        split; [reflexivity | split; [exact Ha | split; [discriminate|]]].
        split; [exact Hk | reflexivity].
    + right. left. exists a, (32%Z :: b). now rewrite E.
Qed.

(** X13.  Whatever the line, a command that [parse_command] returns is
    a PUSH or a PULL with exactly one argument; the argument is not
    empty, has no trailing whitespace, and is what follows the first
    space of the stripped line.  The parser raises nothing but
    [ProtocolError], and stripping the line beforehand changes
    nothing. *)
Theorem parse_command_result (unicode_upper : Z -> pystr) (line : pystr) :
  match Protocol.parse_command unicode_upper line with
  | Ok c =>
      (Protocol.cmd c = Protocol.PUSH \/ Protocol.cmd c = Protocol.PULL)
      /\ exists word arg,
           Protocol.args c = [arg]
           /\ arg <> []
           /\ Protocol.rstrip arg = arg
           /\ Forall (fun x => x <> 32%Z) word
           /\ Protocol.strip line = word ++ 32%Z :: arg
  | Raise e => exists msg, e = ProtocolError msg
  end
  /\ Protocol.parse_command unicode_upper (Protocol.strip line)
     = Protocol.parse_command unicode_upper line.
Proof.
  split.
  - pose proof (parse_command_cases unicode_upper line) as H.
    destruct (Protocol.parse_command unicode_upper line) as [c|e].
    + destruct H as (part0 & arg & Es & Hp & Harg & Hk & ->).
      cbn [Protocol.cmd Protocol.args]. split; [exact Hk|].
      exists part0, arg.
      split; [reflexivity | split; [exact Harg | split; [|now split]]].
      apply (stripped_argument (Protocol.strip line) part0 arg);
        [|exact Es | exact Harg].
      unfold Protocol.strip. apply rstrip_idem.
    + destruct H as [[_ ->] | [(p & r & _ & ->) | (k & _ & ->)]]; eauto.
  - unfold Protocol.parse_command. now rewrite strip_idem.
Qed.

(** ** The handler *)

Lemma pull_none (q q' : t) (c : pystr) : pull q c = (Ok None, q') -> q' = q.
Proof.
  unfold pull. destruct (_ <=? _)%Z; [congruence|].
  destruct (getitem _ _); [|discriminate].
  destruct (AppendLog.read_at _ _); [|discriminate].
  destruct (Utf8.decode _); discriminate.
Qed.

Lemma pull_text (q q' : t) (c m : pystr) :
  pull q c = (Ok (Some m), q') -> is_text m = true.
Proof.
  unfold pull. destruct (_ <=? _)%Z; [discriminate|].
  destruct (getitem _ _); [|discriminate].
  destruct (AppendLog.read_at _ _); [|discriminate].
  destruct (Utf8.decode _) as [m'|] eqn:E; [|discriminate].
  intros H. assert (m' = m) by congruence. subst m'.
  now apply decode_text in E.
Qed.

(** X14.  The response of [handle] and what it means for the queue: OK
    only when [push] returned, for the first argument of a PUSH; MSG and
    the message only when [pull] returned it, for the first argument of a
    PULL, the cursor then being advanced; EMPTY or an error reply only
    with the queue left as it was. *)
Theorem handle_reply_and_effect
    (exception_text : exn -> pystr) (q : t) (c : Protocol.ParsedCommand) :
  let response := fst (CommandHandler.handle exception_text q c) in
  let q' := snd (CommandHandler.handle exception_text q c) in
  (response = Replies.format_ok
   /\ Protocol.cmd c = Protocol.PUSH
   /\ exists message i,
        hd_error (Protocol.args c) = Some message
        /\ push q message = (Ok i, q'))
  \/ (exists message consumer_id,
        response = Replies.format_msg message
        /\ Protocol.cmd c = Protocol.PULL
        /\ hd_error (Protocol.args c) = Some consumer_id
        /\ pull q consumer_id = (Ok (Some message), q'))
  \/ (response = Replies.format_empty /\ q' = q)
  \/ (exists reason, response = Replies.format_error reason /\ q' = q).
Proof.
  unfold CommandHandler.handle.
  destruct (pystr_eqb (Protocol.cmd c) Protocol.PUSH) eqn:E1.
  { apply pystr_eqb_eq in E1.
    destruct (Protocol.args c) as [|arg0 rest];
      [right; right; right; cbn; eauto|].
    unfold CommandHandler._handle_push.
    destruct (push q arg0) as [[i|e] q1] eqn:Ep; cbn [fst snd].
    - left. split; [reflexivity | split; [exact E1|]].
      exists arg0, i. now split.
    - apply push_raises in Ep. subst q1. right. right. right. eauto. }
  destruct (pystr_eqb (Protocol.cmd c) Protocol.PULL) eqn:E2.
  { apply pystr_eqb_eq in E2.
    destruct (Protocol.args c) as [|arg0 rest];
      [right; right; right; cbn; eauto|].
    unfold CommandHandler._handle_pull.
    destruct (pull q arg0) as [[[m|]|e] q1] eqn:Ep; cbn [fst snd].
    - right. left. exists m, arg0. now repeat split.
    - apply pull_none in Ep. subst q1. right. right. left. now split.
    - apply pull_raises in Ep. subst q1. right. right. right. eauto. }
  right. right. right. cbn [fst snd]. eauto.
Qed.

(** ** One turn of the server *)

Lemma decode_Z_raises (n : nat) :
  forall (bs : list Z) (e : exn),
    List.length bs <= n -> Utf8.decode_Z bs = Raise e -> e = UnicodeDecodeError.
Proof.
  induction n as [|n IH]; intros bs e Hlen;
    (destruct bs as [|b0 t0]; [discriminate|]); cbn [List.length] in Hlen;
    [lia|].
  cbn [Utf8.decode_Z].
  assert (K : forall (t : list Z) (k : pystr -> result pystr),
             List.length t <= n -> (forall s, k s <> Raise e) ->
             bind (Utf8.decode_Z t) k = Raise e -> e = UnicodeDecodeError).
  { intros t k Ht Hk H. destruct (Utf8.decode_Z t) as [s|e'] eqn:E.
    - now apply Hk in H.
    - cbn [bind] in H. assert (e' = e) by congruence. subst e'.
      exact (IH t e Ht E). }
  destruct (b0 <? 128)%Z; [apply K; [lia | discriminate]|].
  destruct (Utf8.between 194 223 b0).
  { destruct t0 as [|b1 t1]; [congruence|].
    destruct (Utf8.continuation b1); [|congruence].
    apply K; [cbn [List.length] in Hlen; lia | discriminate]. }
  destruct (Utf8.between 224 239 b0).
  { destruct t0 as [|b1 [|b2 t2]]; [congruence|congruence|].
    match goal with |- (if ?c then _ else _) = _ -> _ => destruct c end;
      [|congruence].
    apply K; [cbn [List.length] in Hlen; lia | discriminate]. }
  destruct (Utf8.between 240 244 b0); [|congruence].
  destruct t0 as [|b1 [|b2 [|b3 t3]]]; [congruence|congruence|congruence|].
  match goal with |- (if ?c then _ else _) = _ -> _ => destruct c end;
    [|congruence].
  apply K; [cbn [List.length] in Hlen; lia | discriminate].
Qed.

Lemma decode_raises (b : bytes) (e : exn) :
  Utf8.decode b = Raise e -> e = UnicodeDecodeError.
Proof. apply (decode_Z_raises _ _ _ (le_n _)). Qed.

Lemma write_response_text
    (response : pystr) (q : t) :
  is_text response = true ->
  exists data,
    Utf8.encode response = Ok data
    /\ PyQueueServer.write_response response q = (PyQueueServer.Reply data, q).
Proof.
  intros H. destruct (encode_text _ H) as [data E].
  exists data. unfold PyQueueServer.write_response. now rewrite E.
Qed.

Lemma format_error_text (reason : pystr) :
  is_text reason = true -> is_text (Replies.format_error reason) = true.
Proof.
  intros H. unfold Replies.format_error. now rewrite !is_text_app, H.
Qed.

Lemma format_msg_text (message : pystr) :
  is_text message = true -> is_text (Replies.format_msg message) = true.
Proof.
  intros H. unfold Replies.format_msg. now rewrite !is_text_app, H.
Qed.

Lemma handle_text
    (exception_text : exn -> pystr) (q : t) (c : Protocol.ParsedCommand) :
  (forall e, is_text (exception_text e) = true) ->
  is_text (Protocol.cmd c) = true ->
  is_text (fst (CommandHandler.handle exception_text q c)) = true.
Proof.
  intros Het Hc. unfold CommandHandler.handle.
  destruct (pystr_eqb (Protocol.cmd c) Protocol.PUSH).
  { destruct (Protocol.args c) as [|arg0 rest];
      [apply format_error_text, Het|].
    unfold CommandHandler._handle_push.
    destruct (push q arg0) as [[i|e] q1]; cbn [fst];
      [reflexivity | apply format_error_text, Het]. }
  destruct (pystr_eqb (Protocol.cmd c) Protocol.PULL).
  { destruct (Protocol.args c) as [|arg0 rest];
      [apply format_error_text, Het|].
    unfold CommandHandler._handle_pull.
    destruct (pull q arg0) as [[[m|]|e] q1] eqn:Ep; cbn [fst];
      [|reflexivity | apply format_error_text, Het].
    apply format_msg_text. exact (pull_text _ _ _ _ Ep). }
  cbn [fst]. apply format_error_text. now rewrite is_text_app, Hc.
Qed.

Lemma handle_is_reply
    (exception_text : exn -> pystr) (q : t) (c : Protocol.ParsedCommand) :
  is_reply (fst (CommandHandler.handle exception_text q c)).
Proof.
  unfold CommandHandler.handle, is_reply.
  destruct (pystr_eqb (Protocol.cmd c) Protocol.PUSH).
  { destruct (Protocol.args c) as [|arg0 rest]; [cbn [fst]; eauto 6|].
    unfold CommandHandler._handle_push.
    destruct (push q arg0) as [[i|e] q1]; cbn [fst]; eauto 6. }
  destruct (pystr_eqb (Protocol.cmd c) Protocol.PULL).
  { destruct (Protocol.args c) as [|arg0 rest]; [cbn [fst]; eauto 6|].
    unfold CommandHandler._handle_pull.
    destruct (pull q arg0) as [[[m|]|e] q1]; cbn [fst]; eauto 6. }
  cbn [fst]. eauto 6.
Qed.

(** A turn on a line that is not empty: nothing written for a blank
    line, else one reply. *)
Lemma turn_cases
    (unicode_upper : Z -> pystr) (exception_text : exn -> pystr)
    (q : t) (line : bytes) :
  (forall e, is_text (exception_text e) = true) ->
  line <> [] ->
  match PyQueueServer.turn unicode_upper exception_text q line with
  | (PyQueueServer.Skip, q') =>
      q' = q
      /\ exists text, Utf8.decode line = Ok text /\ Protocol.strip text = []
  | (PyQueueServer.Reply data, q') =>
      (exists response, is_reply response /\ Utf8.encode response = Ok data)
      /\ (forall e, Utf8.decode line = Raise e ->
          q' = q
          /\ Utf8.encode (Replies.format_error (str "Invalid UTF-8 encoding"))
             = Ok data)
  | (PyQueueServer.Stop, _) | (PyQueueServer.Abort _, _) => False
  end.
Proof.
  intros Het Hline. unfold PyQueueServer.turn.
  destruct line as [|b0 line']; [congruence|]. clear Hline.
  set (line := b0 :: line'). unfold PyQueueServer.respond.
  destruct (Utf8.decode line) as [text|e] eqn:Ed; cbn [bind].
  - destruct (decode_text _ _ Ed) as [Ht _].
    pose proof (strip_text _ Ht) as Hs.
    destruct (Protocol.strip text) as [|c0 s0] eqn:Es; [split; eauto|].
    rewrite <- Es in *.
    pose proof (parse_command_cases unicode_upper (Protocol.strip text)) as Hp.
    rewrite strip_idem in Hp.
    destruct (Protocol.parse_command unicode_upper (Protocol.strip text))
      as [c|e]; cbn [bind].
    + destruct Hp as (part0 & arg & E & _ & _ & Hk & Hc).
      assert (Hcmd : is_text (Protocol.cmd c) = true)
        by (subst c; cbn [Protocol.cmd]; destruct Hk as [-> | ->]; reflexivity).
      pose proof (handle_text exception_text q c Het Hcmd) as Hr.
      pose proof (handle_is_reply exception_text q c) as Hi.
      destruct (CommandHandler.handle exception_text q c) as [response q1].
      cbn [fst] in Hr, Hi.
      destruct (write_response_text response q1 Hr) as (data & He & ->).
      split; [eauto | discriminate].
    + assert (exists msg, e = ProtocolError msg /\ is_text msg = true)
        as (msg & -> & Hm).
      { destruct Hp as [[_ ->] | [(p & r & E & ->) | (k & Hk & ->)]].
        - now eexists.
        - eexists. split; [reflexivity|].
          rewrite E, is_text_app, andb_true_iff in Hs.
          now rewrite is_text_app, (proj1 Hs).
        - eexists. split; [reflexivity|]. now destruct Hk as [-> | ->]. }
      destruct (write_response_text (Replies.format_error msg) q
                  (format_error_text _ Hm)) as (data & He & ->).
      split; [|discriminate].
      exists (Replies.format_error msg). split; [|exact He].
      unfold is_reply. eauto 6.
  - apply decode_raises in Ed as ->.
    destruct (write_response_text
                (Replies.format_error (str "Invalid UTF-8 encoding")) q
                eq_refl) as (data & He & ->).
    split.
    + eexists. split; [|exact He]. unfold is_reply. eauto 6.
    + intros _ _. now split.
Qed.

(** X15.  When the text of every exception is text that UTF-8 can
    encode, a turn of the server on a line that is not empty never ends
    the connection: either the line decodes to whitespace only and
    nothing is written, the queue being left as it was, or exactly one
    of the four replies of the protocol is written.  A line that is not
    valid UTF-8 is answered with an error reply, the queue being left as
    it was. *)
Theorem turn_always_answers
    (unicode_upper : Z -> pystr) (exception_text : exn -> pystr)
    (q : t) (line : bytes) :
  (forall e, is_text (exception_text e) = true) ->
  line <> [] ->
  match PyQueueServer.turn unicode_upper exception_text q line with
  | (PyQueueServer.Skip, q') =>
      q' = q
      /\ exists text, Utf8.decode line = Ok text /\ Protocol.strip text = []
  | (PyQueueServer.Reply data, q') =>
      (exists response, is_reply response /\ Utf8.encode response = Ok data)
      /\ (forall e, Utf8.decode line = Raise e ->
          q' = q
          /\ Utf8.encode (Replies.format_error (str "Invalid UTF-8 encoding"))
             = Ok data)
  | (PyQueueServer.Stop, _) | (PyQueueServer.Abort _, _) => False
  end.
Proof. exact (turn_cases unicode_upper exception_text q line). Qed.

Lemma turn_always_answers_witness :
  let exception_text := fun _ : exn => str "error" in
  (forall e, is_text (exception_text e) = true)
  /\ [x80] <> ([] : bytes)
  /\ match PyQueueServer.turn (fun c => [c]) exception_text (init empty_dir) [x80] with
     | (PyQueueServer.Skip, q') =>
         q' = init empty_dir
         /\ exists text, Utf8.decode [x80] = Ok text /\ Protocol.strip text = []
     | (PyQueueServer.Reply data, q') =>
         (exists response, is_reply response /\ Utf8.encode response = Ok data)
         /\ (forall e, Utf8.decode [x80] = Raise e ->
             q' = init empty_dir
             /\ Utf8.encode (Replies.format_error (str "Invalid UTF-8 encoding"))
                = Ok data)
     | (PyQueueServer.Stop, _) | (PyQueueServer.Abort _, _) => False
     end.
Proof.
  intros exception_text.
  assert (H1 : forall e, is_text (exception_text e) = true)
    by (intros e; reflexivity).
  assert (H2 : [x80] <> ([] : bytes)) by discriminate.
  split; [exact H1 | split; [exact H2 |]].
  exact (turn_always_answers (fun c => [c]) exception_text (init empty_dir)
           [x80] H1 H2).
Defined.

(** ** Lines on the wire *)

Lemma encode_app (a b : pystr) :
  Utf8.encode (a ++ b)
  = (x <- Utf8.encode a ;; y <- Utf8.encode b ;; Ok (x ++ y))%py.
Proof.
  induction a as [|c a IH]; cbn [app Utf8.encode].
  - cbn [bind]. destruct (Utf8.encode b); reflexivity.
  - destruct (Utf8.encode_cp c); [|reflexivity]. rewrite IH.
    destruct (Utf8.encode a); cbn [bind]; [|reflexivity].
    destruct (Utf8.encode b); cbn [bind]; [|reflexivity].
    now rewrite app_assoc.
Qed.

Lemma encode_Ok_text (s : pystr) (b : bytes) :
  Utf8.encode s = Ok b -> is_text s = true.
Proof.
  intros H. destruct (is_text s) eqn:E; [reflexivity|].
  apply encode_not_text in E. congruence.
Qed.

Lemma byte_of_Z_line_feed (z : Z) :
  (0 <= z < 256)%Z -> z <> 10%Z -> Utf8.byte_of_Z z <> x0a.
Proof.
  intros Hz Hn E. apply Hn.
  rewrite <- (Z_of_byte_of_Z z Hz), E. reflexivity.
Qed.

(** No byte of the encoding of a character other than the line feed is
    a line feed. *)
Lemma encode_cp_line_feed (c : Z) (bs : list Z) :
  Utf8.encode_cp c = Some bs -> c <> 10%Z ->
  Forall (fun x => x <> x0a) (map Utf8.byte_of_Z bs).
Proof.
  intros H Hc. apply Forall_map.
  assert (K : Forall (fun z => (0 <= z < 256)%Z /\ z <> 10%Z) bs).
  { revert H. unfold Utf8.encode_cp, is_surrogate.
    repeat match goal with
           | |- context [(?a <? ?b)%Z] => destruct (Z.ltb_spec a b)
           | |- context [(?a <=? ?b)%Z] => destruct (Z.leb_spec a b)
           end; cbn [andb]; intros E; try discriminate;
      apply Some_inj in E; subst bs;
      repeat (apply Forall_cons; [lia|]); apply Forall_nil. }
  eapply Forall_impl; [|exact K].
  intros z [Hz Hn]. now apply byte_of_Z_line_feed.
Qed.

Lemma encode_line_feed (s : pystr) (b : bytes) :
  Utf8.encode s = Ok b -> has_newline s = false ->
  Forall (fun x => x <> x0a) b.
Proof.
  revert b. induction s as [|c s IH]; intros b; cbn [Utf8.encode].
  - intros H _. apply Ok_inj in H. subst b. constructor.
  - unfold has_newline. cbn [existsb]. rewrite orb_false_iff.
    destruct (Utf8.encode_cp c) as [bs|] eqn:Ec; [|discriminate].
    intros H [Hc Hs]. apply bind_Ok in H. destruct H as (r & Er & H).
    apply Ok_inj in H. subst b. apply Forall_app. split.
    + apply (encode_cp_line_feed c bs Ec). intros ->. discriminate.
    + now apply IH.
Qed.

(** A line: text without a line feed, then a line feed. *)
Lemma encode_line (body : pystr) (data : bytes) :
  Utf8.encode (body ++ [10%Z]) = Ok data ->
  has_newline body = false ->
  exists b, data = b ++ [x0a] /\ Forall (fun x => x <> x0a) b
            /\ Utf8.encode body = Ok b.
Proof.
  rewrite encode_app. intros H Hn.
  apply bind_Ok in H. destruct H as (b & Eb & H).
  cbn in H. apply Ok_inj in H. subst data.
  exists b. split; [reflexivity | split; [|exact Eb]].
  exact (encode_line_feed _ _ Eb Hn).
Qed.

Lemma encode_text_line (body : pystr) :
  is_text body = true -> exists data, Utf8.encode (body ++ [10%Z]) = Ok data.
Proof.
  intros H. apply encode_text. now rewrite is_text_app, H.
Qed.

Lemma has_newline_app (a b : pystr) :
  has_newline (a ++ b) = has_newline a || has_newline b.
Proof. apply existsb_app. Qed.


(** ** The client's calls *)

Lemma receive_loop_line (body rest : bytes) :
  Forall (fun x => x <> x0a) body ->
  forall data,
    PyQueueClient._receive_loop (body ++ x0a :: rest) data
    = Some (data ++ body ++ [x0a], rest).
Proof.
  induction 1 as [|x body Hx _ IH]; intros data;
    cbn [app PyQueueClient._receive_loop].
  - reflexivity.
  - destruct (Byte.eqb x x0a) eqn:E;
      [apply Byte.byte_dec_bl in E; contradiction|].
    rewrite IH, <- app_assoc. reflexivity.
Qed.

Lemma send_connected (sent incoming request : bytes) (data : pystr) :
  Utf8.encode data = Ok request ->
  PyQueueClient._send (connected sent incoming) data
  = (PyQueueClient.Returned tt, connected (sent ++ request) incoming).
Proof.
  intros H. unfold PyQueueClient._send, connected.
  cbn [PyQueueClient._socket PyQueueClient.sent PyQueueClient.incoming].
  now rewrite H.
Qed.

(** The client receives a reply of one line as it was formatted. *)
Lemma receive_connected (sent rest reply : bytes) (body : pystr) :
  Utf8.encode (body ++ [10%Z]) = Ok reply ->
  has_newline body = false ->
  PyQueueClient._receive (connected sent (reply ++ rest))
  = (PyQueueClient.Returned (body ++ [10%Z]), connected sent rest).
Proof.
  intros H Hn. destruct (encode_line _ _ H Hn) as (b & -> & Hb & _).
  unfold PyQueueClient._receive, connected.
  cbn [PyQueueClient._socket PyQueueClient.sent PyQueueClient.incoming].
  rewrite <- app_assoc. cbn [app].
  rewrite receive_loop_line by exact Hb. cbn [app].
  now rewrite (decode_encode _ _ H).
Qed.

(** ** A request line at the server *)

Lemma parse_keyword_line
    (unicode_upper : Z -> pystr) (keyword arg : pystr) :
  keyword = Protocol.PUSH \/ keyword = Protocol.PULL ->
  Protocol.strip (keyword ++ 32%Z :: arg ++ [10%Z])
  = match Protocol.rstrip arg with
    | [] => keyword
    | _ :: _ => keyword ++ 32%Z :: Protocol.rstrip arg
    end
  /\ Protocol.parse_command unicode_upper (keyword ++ 32%Z :: arg ++ [10%Z])
     = match Protocol.rstrip arg with
       | [] => Raise (ProtocolError (keyword ++ str " requires an argument"))
       | _ :: _ =>
           Ok {| Protocol.cmd := keyword; Protocol.args := [Protocol.rstrip arg] |}
       end.
Proof.
  intros Hk.
  assert (Hl : forall rest, Protocol.lstrip (keyword ++ rest) = keyword ++ rest)
    by (intros rest; destruct Hk as [-> | ->]; reflexivity).
  assert (Hr : Protocol.rstrip keyword = keyword)
    by (destruct Hk as [-> | ->]; reflexivity).
  assert (Hs : forall rest,
             Protocol.split_space (keyword ++ 32%Z :: rest) = [keyword; rest])
    by (intros rest; destruct Hk as [-> | ->]; reflexivity).
  assert (Hs1 : Protocol.split_space keyword = [keyword])
    by (destruct Hk as [-> | ->]; reflexivity).
  assert (Hu : Protocol.upper unicode_upper keyword = keyword)
    by (destruct Hk as [-> | ->]; reflexivity).
  assert (He : pystr_eqb keyword Protocol.PUSH || pystr_eqb keyword Protocol.PULL
               = true)
    by (destruct Hk as [-> | ->]; reflexivity).
  assert (Es : Protocol.strip (keyword ++ 32%Z :: arg ++ [10%Z])
               = match Protocol.rstrip arg with
                 | [] => keyword
                 | _ :: _ => keyword ++ 32%Z :: Protocol.rstrip arg
                 end).
  { unfold Protocol.strip. rewrite Hl.
    change (keyword ++ 32%Z :: arg ++ [10%Z])
      with (keyword ++ (32%Z :: arg) ++ [10%Z]).
    rewrite app_assoc, rstrip_spaces by reflexivity.
    destruct (Protocol.rstrip arg) as [|c r] eqn:Ea.
    - apply rstrip_nil in Ea.
      rewrite rstrip_spaces by (cbn [forallb]; now rewrite Ea).
      exact Hr.
    - change (keyword ++ 32%Z :: arg) with (keyword ++ [32%Z] ++ arg).
      rewrite app_assoc, rstrip_app by (rewrite Ea; discriminate).
      rewrite Ea, <- app_assoc. reflexivity. }
  split; [exact Es|].
  unfold Protocol.parse_command. rewrite Es.
  destruct (Protocol.rstrip arg) as [|c r].
  - rewrite Hs1. cbn [nth]. rewrite Hu, He.
    destruct Hk as [-> | ->]; reflexivity.
  - rewrite Hs. cbn [nth]. rewrite Hu, He.
    destruct Hk as [-> | ->]; reflexivity.
Qed.

Lemma parse_command_strip (unicode_upper : Z -> pystr) (line : pystr) :
  Protocol.parse_command unicode_upper (Protocol.strip line)
  = Protocol.parse_command unicode_upper line.
Proof. unfold Protocol.parse_command. now rewrite strip_idem. Qed.

(** The turn of the server on a request line: a keyword, a space, an
    argument and a line feed. *)
Lemma turn_request
    (unicode_upper : Z -> pystr) (exception_text : exn -> pystr)
    (q : t) (keyword arg : pystr) (request : bytes) :
  keyword = Protocol.PUSH \/ keyword = Protocol.PULL ->
  Utf8.encode (keyword ++ 32%Z :: arg ++ [10%Z]) = Ok request ->
  PyQueueServer.turn unicode_upper exception_text q request
  = match Protocol.rstrip arg with
    | [] =>
        PyQueueServer.write_response
          (Replies.format_error (keyword ++ str " requires an argument")) q
    | _ :: _ =>
        let (response, q') :=
          CommandHandler.handle exception_text q
            {| Protocol.cmd := keyword; Protocol.args := [Protocol.rstrip arg] |} in
        PyQueueServer.write_response response q'
    end.
Proof.
  intros Hk He. pose proof (decode_encode _ _ He) as Hd.
  destruct (parse_keyword_line unicode_upper keyword arg Hk) as [Es Ep].
  unfold PyQueueServer.turn.
  destruct request as [|b0 request'].
  { exfalso. cbn in Hd. apply Ok_inj in Hd.
    destruct Hk as [-> | ->]; discriminate. }
  unfold PyQueueServer.respond. rewrite Hd. cbn [bind].
  rewrite parse_command_strip, Ep.
  destruct (Protocol.strip (keyword ++ 32%Z :: arg ++ [10%Z])) as [|c0 s0] eqn:E.
  { exfalso. destruct (Protocol.rstrip arg); destruct Hk as [-> | ->];
      discriminate. }
  destruct (Protocol.rstrip arg) as [|a0 ar]; cbn [bind]; [reflexivity|].
  destruct (CommandHandler.handle _ _ _) as [response q']. reflexivity.
Qed.

Lemma rstrip_text (s : pystr) : is_text s = true -> is_text (Protocol.rstrip s) = true.
Proof.
  destruct (rstrip_decompose s) as (ws & E & _). intros H.
  rewrite E, is_text_app, andb_true_iff in H. tauto.
Qed.


(** ** Client and server *)

(** [push] of the client against a turn of the server, on the request
    taken as a line. *)
Lemma push_exchange
    (unicode_upper : Z -> pystr) (exception_text : exn -> pystr)
    (q : t) (msgs : list pystr) (records : list bytes)
    (message : pystr) (sent rest : bytes) :
  holds q msgs records ->
  is_text message = true ->
  has_newline message = false ->
  (N.of_nat (List.length message) < 1073741824)%N ->
  exists request,
    Utf8.encode (str "PUSH " ++ message ++ [10%Z]) = Ok request
    /\ (not_blank message ->
        exists reply q' record,
          PyQueueServer.turn unicode_upper exception_text q request
          = (PyQueueServer.Reply reply, q')
          /\ holds q' (msgs ++ [Protocol.rstrip message]) (records ++ [record])
          /\ _offsets q' = _offsets q
          /\ PyQueueClient.push (connected sent (reply ++ rest)) message
             = (PyQueueClient.Returned true, connected (sent ++ request) rest))
    /\ (Protocol.rstrip message = [] ->
        exists reply,
          PyQueueServer.turn unicode_upper exception_text q request
          = (PyQueueServer.Reply reply, q)
          /\ PyQueueClient.push (connected sent (reply ++ rest)) message
             = (PyQueueClient.Raised
                  (PyQueueClient.PyQueueError (str "PUSH requires an argument")),
                connected (sent ++ request) rest)).
Proof.
  intros Hh Ht Hn Hlen.
  destruct (encode_text_line (str "PUSH " ++ message)) as [request Er].
  { now rewrite is_text_app, Ht. }
  rewrite <- app_assoc in Er.
  exists request. split; [exact Er|].
  assert (Hturn := turn_request unicode_upper exception_text q
                     Protocol.PUSH message request (or_introl eq_refl) Er).
  assert (Hsend : forall incoming,
             PyQueueClient._send (connected sent incoming)
               (str "PUSH " ++ message ++ [10%Z])
             = (PyQueueClient.Returned tt, connected (sent ++ request) incoming))
    by (intros incoming; now apply send_connected).
  split.
  - intros Hnb. unfold not_blank in Hnb.
    destruct (push_text q (Protocol.rstrip message) (rstrip_text _ Ht))
      as [q' Ep].
    { pose proof (rstrip_length message). lia. }
    destruct (push_returns _ _ _ _ _ _ Hh Ep) as (_ & Hoff & record & Hh').
    destruct (write_response_text Replies.format_ok q' eq_refl)
      as (reply & Ereply & Ew).
    exists reply, q', record.
    split; [|split; [exact Hh' | split; [exact Hoff|]]].
    + rewrite Hturn.
      destruct (Protocol.rstrip message) as [|a0 ar] eqn:Ea; [congruence|].
      unfold CommandHandler.handle. cbn [Protocol.cmd Protocol.args].
      rewrite pystr_eqb_refl. unfold CommandHandler._handle_push.
      rewrite Ep. exact Ew.
    + unfold PyQueueClient.push. fold (has_newline message). rewrite Hn, Hsend.
      rewrite (receive_connected _ _ _ (str "OK") Ereply eq_refl).
      reflexivity.
  - intros Hb.
    destruct (write_response_text
                (Replies.format_error (Protocol.PUSH ++ str " requires an argument"))
                q eq_refl) as (reply & Ereply & Ew).
    exists reply. split.
    + rewrite Hturn, Hb. exact Ew.
    + unfold PyQueueClient.push. fold (has_newline message). rewrite Hn, Hsend.
      rewrite (receive_connected _ _ _
                 (str "ERR " ++ Protocol.PUSH ++ str " requires an argument")
                 Ereply eq_refl).
      reflexivity.
Qed.


(** ** A connection *)

Lemma turn_blank
    (unicode_upper : Z -> pystr) (exception_text : exn -> pystr)
    (q : t) (line : bytes) :
  line <> [] -> is_blank_line line = true ->
  PyQueueServer.turn unicode_upper exception_text q line = (PyQueueServer.Skip, q).
Proof.
  intros Hl. unfold is_blank_line, PyQueueServer.turn, PyQueueServer.respond.
  destruct line as [|b0 line']; [congruence|].
  destruct (Utf8.decode (b0 :: line')) as [text|e]; [|discriminate].
  cbn [bind]. destruct (Protocol.strip text); [reflexivity | discriminate].
Qed.

Lemma find_line_feed (body rest : bytes) :
  Forall (fun b => b <> x0a) body ->
  StreamReader.find (body ++ x0a :: rest) = Some (List.length body).
Proof.
  induction 1 as [|b body Hb _ IH]; cbn [app StreamReader.find List.length].
  - reflexivity.
  - destruct (Byte.eqb b x0a) eqn:E;
      [apply Byte.byte_dec_bl in E; contradiction|].
    now rewrite IH.
Qed.

(** A line within the limit is what [readline] returns, with the bytes
    after it left to read. *)
Lemma readline_line (line rest : bytes) :
  is_line line ->
  StreamReader.readline (line ++ rest) = Ok (line, rest).
Proof.
  intros (body & -> & Hb & Hlen). rewrite <- app_assoc. cbn [app].
  unfold StreamReader.readline. rewrite (find_line_feed body rest Hb).
  rewrite (proj2 (N.ltb_ge _ _)) by exact Hlen.
  change (body ++ x0a :: rest) with (body ++ [x0a] ++ rest).
  rewrite app_assoc.
  replace (S (List.length body)) with (List.length (body ++ [x0a]))
    by (rewrite length_app; simpl; lia).
  now rewrite firstn_length_app, skipn_length_app.
Qed.

(** A line whose line feed lies beyond the limit makes [readline]
    raise. *)
Lemma readline_overlong (body rest : bytes) :
  Forall (fun b => b <> x0a) body ->
  (StreamReader._DEFAULT_LIMIT < N.of_nat (List.length body))%N ->
  exists e, StreamReader.readline (body ++ x0a :: rest) = Raise e.
Proof.
  intros Hb Hlen. unfold StreamReader.readline.
  rewrite (find_line_feed body rest Hb).
  rewrite (proj2 (N.ltb_lt _ _)) by exact Hlen. eauto.
Qed.

Lemma readline_splits (buffer line rest : bytes) :
  StreamReader.readline buffer = Ok (line, rest) -> buffer = line ++ rest.
Proof.
  unfold StreamReader.readline.
  destruct (StreamReader.find buffer) as [isep|].
  - destruct (_ <? _)%N; [discriminate|].
    intros H. apply Ok_inj in H.
    assert (line = firstn (S isep) buffer /\ rest = skipn (S isep) buffer)
      as [-> ->] by (split; congruence).
    symmetry. apply firstn_skipn.
  - destruct (_ <? _)%N; [discriminate|].
    intros H. apply Ok_inj in H.
    assert (line = buffer /\ rest = []) as [-> ->] by (split; congruence).
    now rewrite app_nil_r.
Qed.

(** More turns than the client sends bytes add nothing. *)
Lemma handle_client_fuel
    (unicode_upper : Z -> pystr) (exception_text : exn -> pystr)
    (fuel1 : nat) :
  forall (fuel2 : nat) (q : t) (buffer : bytes),
    List.length buffer < fuel1 -> List.length buffer < fuel2 ->
    PyQueueServer._handle_client_loop unicode_upper exception_text fuel1 q buffer
    = PyQueueServer._handle_client_loop unicode_upper exception_text fuel2 q buffer.
Proof.
  induction fuel1 as [|fuel1 IH]; intros fuel2 q buffer H1 H2; [lia|].
  destruct fuel2 as [|fuel2]; [lia|].
  cbn [PyQueueServer._handle_client_loop].
  destruct (StreamReader.readline buffer) as [[line rest]|e] eqn:Er;
    [|reflexivity].
  apply readline_splits in Er. subst buffer.
  destruct line as [|b0 line']; [reflexivity|].
  rewrite length_app in H1, H2. cbn [List.length] in H1, H2.
  destruct (PyQueueServer.turn unicode_upper exception_text q (b0 :: line'))
    as [[| |data|e] q1]; try reflexivity.
  - apply IH; lia.
  - rewrite (IH fuel2 q1 rest) by lia. reflexivity.
Qed.

Lemma handle_client_nil
    (unicode_upper : Z -> pystr) (exception_text : exn -> pystr) (q : t) :
  PyQueueServer._handle_client unicode_upper exception_text q [] = ([], q).
Proof. reflexivity. Qed.

(** The connection on a line within the limit and what follows it. *)
Lemma handle_client_line
    (unicode_upper : Z -> pystr) (exception_text : exn -> pystr)
    (q : t) (line more : bytes) :
  is_line line ->
  let serve := PyQueueServer._handle_client unicode_upper exception_text in
  serve q (line ++ more)
  = match PyQueueServer.turn unicode_upper exception_text q line with
    | (PyQueueServer.Stop, q') => ([], q')
    | (PyQueueServer.Skip, q') => serve q' more
    | (PyQueueServer.Reply data, q') =>
        (data :: fst (serve q' more), snd (serve q' more))
    | (PyQueueServer.Abort _, q') => ([], q')
    end.
Proof.
  intros Hl serve. subst serve. unfold PyQueueServer._handle_client at 1.
  cbn [PyQueueServer._handle_client_loop].
  rewrite (readline_line line more Hl).
  assert (Hlen : List.length more < List.length (line ++ more)).
  { destruct Hl as (body & -> & _). rewrite !length_app. simpl. lia. }
  destruct (PyQueueServer.turn unicode_upper exception_text q line)
    as [[| |data|e] q1]; try reflexivity.
  - unfold PyQueueServer._handle_client. apply handle_client_fuel; lia.
  - unfold PyQueueServer._handle_client.
    rewrite (handle_client_fuel unicode_upper exception_text
               (List.length (line ++ more)) (S (List.length more)) q1 more)
      by lia.
    now destruct (PyQueueServer._handle_client_loop _ _ _ q1 more).
Qed.

Lemma is_line_not_nil (line : bytes) : is_line line -> line <> [].
Proof. intros (body & -> & _). now destruct body. Qed.

(** X18.  Lines within the limit of the reader never end a connection:
    when the text of every exception is text that UTF-8 can encode, over
    any lines of at most 64 KiB before their line feed the loop of
    [_handle_client] writes exactly one reply for each line that is not
    blank, none for a blank one, and then goes on with the bytes that
    follow. *)
Theorem connection_answers_every_line
    (unicode_upper : Z -> pystr) (exception_text : exn -> pystr)
    (lines : list bytes) (more : bytes) (q : t) :
  (forall e, is_text (exception_text e) = true) ->
  Forall is_line lines ->
  let serve := PyQueueServer._handle_client unicode_upper exception_text in
  List.length (fst (serve q (concat lines)))
  = List.length (filter (fun line => negb (is_blank_line line)) lines)
  /\ serve q (concat lines ++ more)
     = (fst (serve q (concat lines)) ++ fst (serve (snd (serve q (concat lines))) more),
        snd (serve (snd (serve q (concat lines))) more)).
Proof.
  intros Het Hl serve. subst serve. revert q.
  induction Hl as [|line lines Hline _ IH]; intros q.
  - cbn [concat app filter List.length]. rewrite handle_client_nil.
    cbn [fst snd app]. split; [reflexivity|].
    now destruct (PyQueueServer._handle_client _ _ q more).
  - cbn [concat filter]. rewrite <- app_assoc.
    rewrite !(handle_client_line unicode_upper exception_text q line) by exact Hline.
    pose proof (turn_cases unicode_upper exception_text q line Het
                  (is_line_not_nil _ Hline)) as Hc.
    destruct (is_blank_line line) eqn:Eb.
    + rewrite (turn_blank _ _ _ _ (is_line_not_nil _ Hline) Eb).
      cbn [negb]. apply IH.
    + destruct (PyQueueServer.turn unicode_upper exception_text q line)
        as [[| |data|e] q1]; try contradiction.
      * exfalso. destruct Hc as (_ & text & Ed & Es).
        unfold is_blank_line in Eb. rewrite Ed, Es in Eb. discriminate.
      * cbn [negb]. destruct (IH q1) as [IH1 IH2]. rewrite IH2.
        cbn [fst snd List.length app]. split; [now rewrite IH1 | reflexivity].
Qed.

Lemma connection_answers_every_line_witness :
  let exception_text := fun _ : exn => str "error" in
  let lines := [[x50; x55; x53; x48; x20; x68; x69; x0a]; [x20; x0a]; [xff; x0a]] in
  (forall e, is_text (exception_text e) = true)
  /\ Forall is_line lines
  /\ List.length
       (fst (PyQueueServer._handle_client (fun c => [c]) exception_text
               (init empty_dir) (concat lines)))
     = 2.
Proof.
  intros exception_text lines.
  assert (H1 : forall e, is_text (exception_text e) = true)
    by (intros e; reflexivity).
  assert (H2 : Forall is_line lines).
  { assert (K : forall body,
               Forall (fun b => b <> x0a) body ->
               (N.of_nat (List.length body) <= StreamReader._DEFAULT_LIMIT)%N ->
               is_line (body ++ [x0a]))
      by (intros body Hb Hn; exists body; auto).
    unfold lines.
    apply Forall_cons;
      [apply (K [x50; x55; x53; x48; x20; x68; x69]);
       [repeat (apply Forall_cons; [discriminate|]); apply Forall_nil
       | vm_compute; discriminate]|].
    apply Forall_cons;
      [apply (K [x20]);
       [repeat (apply Forall_cons; [discriminate|]); apply Forall_nil
       | vm_compute; discriminate]|].
    apply Forall_cons;
      [apply (K [xff]);
       [repeat (apply Forall_cons; [discriminate|]); apply Forall_nil
       | vm_compute; discriminate]|].
    apply Forall_nil. }
  split; [exact H1 | split; [exact H2|]].
  exact (proj1 (connection_answers_every_line (fun c => [c]) exception_text
                  lines [] (init empty_dir) H1 H2)).
Defined.

(** X22.  A line too long for the reader ends the connection: when more
    than 64 KiB come before the line feed, [readline] raises, nothing is
    written for that line or for anything after it, and the queue is
    left as it was. *)
Theorem overlong_line_ends_connection
    (unicode_upper : Z -> pystr) (exception_text : exn -> pystr)
    (q : t) (body rest : bytes) :
  Forall (fun b => b <> x0a) body ->
  (StreamReader._DEFAULT_LIMIT < N.of_nat (List.length body))%N ->
  PyQueueServer._handle_client unicode_upper exception_text q
    (body ++ x0a :: rest)
  = ([], q).
Proof.
  intros Hb Hlen. unfold PyQueueServer._handle_client.
  cbn [PyQueueServer._handle_client_loop].
  destruct (readline_overlong body rest Hb Hlen) as [e ->]. reflexivity.
Qed.

Lemma overlong_line_ends_connection_witness :
  let body := repeat x61 (N.to_nat 65537) in
  let rest := [x50; x55; x53; x48; x20; x68; x69; x0a] in
  Forall (fun b => b <> x0a) body
  /\ (StreamReader._DEFAULT_LIMIT < N.of_nat (List.length body))%N
  /\ PyQueueServer._handle_client (fun c => [c]) (fun _ => str "error")
       (init empty_dir) (body ++ x0a :: rest)
     = ([], init empty_dir).
Proof.
  intros body rest.
  assert (H1 : Forall (fun b => b <> x0a) body).
  { apply Forall_forall. intros b Hb. apply repeat_spec in Hb. subst b.
    discriminate. }
  assert (H2 : (StreamReader._DEFAULT_LIMIT < N.of_nat (List.length body))%N).
  { unfold body. rewrite repeat_length, N2Nat.id. reflexivity. }
  split; [exact H1 | split; [exact H2|]].
  exact (overlong_line_ends_connection (fun c => [c]) (fun _ => str "error")
           (init empty_dir) body rest H1 H2).
Defined.

(** ** Client and server, over a connection *)

Lemma encode_cp_length (c : Z) (bs : list Z) :
  Utf8.encode_cp c = Some bs -> 1 <= List.length bs.
Proof.
  unfold Utf8.encode_cp.
  repeat match goal with
         | |- context [if ?b then _ else _] => destruct b
         end; intros H; try discriminate; apply Some_inj in H; subst bs;
    simpl; lia.
Qed.

Lemma encode_length_ge (s : pystr) (b : bytes) :
  Utf8.encode s = Ok b -> List.length s <= List.length b.
Proof.
  revert b. induction s as [|c s IH]; intros b; cbn [Utf8.encode].
  - intros H. apply Ok_inj in H. subst b. simpl. lia.
  - destruct (Utf8.encode_cp c) as [bs|] eqn:Ec; [|discriminate].
    intros H. apply bind_Ok in H. destruct H as (r & Er & H).
    apply Ok_inj in H. subst b.
    pose proof (encode_cp_length _ _ Ec). specialize (IH _ Er).
    rewrite length_app, length_map. simpl. lia.
Qed.

(** A request of the client within the limit is a line for the reader
    of the server. *)
Lemma request_is_line (keyword arg : pystr) (request : bytes) :
  has_newline (keyword ++ arg) = false ->
  Utf8.encode (keyword ++ arg ++ [10%Z]) = Ok request ->
  (N.of_nat (List.length request) <= StreamReader._DEFAULT_LIMIT + 1)%N ->
  is_line request.
Proof.
  intros Hn He Hlen. rewrite app_assoc in He.
  destruct (encode_line _ _ He Hn) as (b & -> & Hb & _).
  exists b. split; [reflexivity | split; [exact Hb|]].
  rewrite length_app in Hlen. cbn [List.length] in Hlen.
  unfold StreamReader._DEFAULT_LIMIT in *. lia.
Qed.

(** X16.  [push] of the client against the server, over a connection.
    For a message without a line feed whose request (PUSH, a space, the
    message and a line feed, in UTF-8) has no more than 64 KiB before
    its line feed: when the message has a character that is no
    whitespace, the server appends the message without its trailing
    whitespace to the queue and writes one reply, and the client,
    receiving the reply, returns [True]; when the message is empty or
    whitespace only, the server leaves the queue as it was and the
    client raises [PyQueueError] with the text
    [PUSH requires an argument]. *)
Theorem client_push_over_the_wire
    (unicode_upper : Z -> pystr) (exception_text : exn -> pystr)
    (q : t) (msgs : list pystr) (records : list bytes)
    (message : pystr) (request sent rest : bytes) :
  holds q msgs records ->
  has_newline message = false ->
  Utf8.encode (str "PUSH " ++ message ++ [10%Z]) = Ok request ->
  (N.of_nat (List.length request) <= StreamReader._DEFAULT_LIMIT + 1)%N ->
  (not_blank message ->
   exists reply q' record,
     PyQueueServer._handle_client unicode_upper exception_text q request
     = ([reply], q')
     /\ holds q' (msgs ++ [Protocol.rstrip message]) (records ++ [record])
     /\ _offsets q' = _offsets q
     /\ PyQueueClient.push (connected sent (reply ++ rest)) message
        = (PyQueueClient.Returned true, connected (sent ++ request) rest))
  /\ (Protocol.rstrip message = [] ->
      exists reply,
        PyQueueServer._handle_client unicode_upper exception_text q request
        = ([reply], q)
        /\ PyQueueClient.push (connected sent (reply ++ rest)) message
           = (PyQueueClient.Raised
                (PyQueueClient.PyQueueError (str "PUSH requires an argument")),
              connected (sent ++ request) rest)).
Proof.
  intros Hh Hn He Hlen.
  assert (Ht : is_text message = true).
  { pose proof (encode_Ok_text _ _ He) as H.
    rewrite !is_text_app, !andb_true_iff in H. tauto. }
  assert (Hm : (N.of_nat (List.length message) < 1073741824)%N).
  { pose proof (encode_length_ge _ _ He) as H.
    rewrite !length_app in H. unfold StreamReader._DEFAULT_LIMIT in Hlen. lia. }
  assert (Hline : is_line request)
    by (apply (request_is_line (str "PUSH ") message request);
        [rewrite has_newline_app, Hn; reflexivity | exact He | exact Hlen]).
  destruct (push_exchange unicode_upper exception_text q msgs records message
              sent rest Hh Ht Hn Hm) as (request' & He' & Hpush & Hblank).
  assert (request' = request) by congruence. subst request'.
  pose proof (handle_client_line unicode_upper exception_text q request []
                Hline) as Hserve.
  cbv zeta in Hserve. rewrite app_nil_r in Hserve.
  split.
  - intros Hnb. destruct (Hpush Hnb) as (reply & q' & record & Et & H1 & H2 & H3).
    exists reply, q', record. rewrite Hserve, Et. cbv beta iota.
    rewrite handle_client_nil.
    split; [reflexivity | split; [exact H1 | split; [exact H2 | exact H3]]].
  - intros Hb. destruct (Hblank Hb) as (reply & Et & H1).
    exists reply. rewrite Hserve, Et. cbv beta iota.
    rewrite handle_client_nil. split; [reflexivity | exact H1].
Qed.

Lemma client_push_over_the_wire_witness :
  let q := init empty_dir in
  let message := str "  hello world  " in
  exists request,
    holds q [] []
    /\ has_newline message = false
    /\ Utf8.encode (str "PUSH " ++ message ++ [10%Z]) = Ok request
    /\ (N.of_nat (List.length request) <= StreamReader._DEFAULT_LIMIT + 1)%N
    /\ not_blank message
    /\ exists reply q' record,
         PyQueueServer._handle_client (fun c => [c]) (fun _ => str "error")
           q request
         = ([reply], q')
         /\ holds q' [str "  hello world"] [record]
         /\ PyQueueClient.push (connected [] reply) message
            = (PyQueueClient.Returned true, connected request []).
Proof.
  intros q message.
  destruct (Utf8.encode (str "PUSH " ++ message ++ [10%Z])) as [request|e] eqn:He;
    [|vm_compute in He; discriminate].
  exists request.
  assert (H2 : has_newline message = false) by reflexivity.
  assert (H3 : (N.of_nat (List.length request) <= StreamReader._DEFAULT_LIMIT + 1)%N).
  { vm_compute in He. apply Ok_inj in He. subst request. vm_compute. discriminate. }
  assert (H4 : not_blank message) by (vm_compute; discriminate).
  split; [exact holds_empty_dir|].
  split; [exact H2 | split; [reflexivity | split; [exact H3 | split; [exact H4|]]]].
  destruct (proj1 (client_push_over_the_wire (fun c => [c]) (fun _ => str "error")
                     q [] [] message request [] [] holds_empty_dir H2 He H3) H4)
    as (reply & q' & record & Eserve & Hh & _ & Eclient).
  exists reply, q', record.
  rewrite app_nil_r in Eclient.
  split; [exact Eserve | split; [exact Hh | exact Eclient]].
Defined.



(** ** A log that ends in a fragment *)






(** The offsets that [replay] yields from a position on: the position
    itself, then only offsets past the record that starts there. *)
Lemma replay_loop_offsets (fuel : nat) (f : bytes) (offset o : nat) (d : bytes) :
  In (o, d) (AppendLog.replay_loop fuel f offset) ->
  o = offset
  \/ exists n,
       Struct.unpack_u32 (firstn 4 f) = Ok n
       /\ offset + (AppendLog.HEADER_SIZE + N.to_nat n) <= o.
Proof.
  assert (Hge : forall fuel f offset,
             In (o, d) (AppendLog.replay_loop fuel f offset) -> offset <= o).
  { clear. induction fuel as [|fuel IH]; intros f offset; [contradiction|].
    cbn [AppendLog.replay_loop].
    destruct (File.read (N.of_nat AppendLog.HEADER_SIZE) f) as [header f1].
    destruct (List.length header =? 0); [contradiction|].
    destruct (List.length header <? AppendLog.HEADER_SIZE); [contradiction|].
    destruct (Struct.unpack_u32 header) as [n|]; [|contradiction].
    destruct (File.read n f1) as [data f2].
    destruct (N.of_nat (List.length data) <? n)%N; [contradiction|].
    intros [E | H].
    - injection E as <- _. lia.
    - apply IH in H. lia. }
  destruct fuel as [|fuel]; [contradiction|].
  cbn [AppendLog.replay_loop].
  destruct (File.read (N.of_nat AppendLog.HEADER_SIZE) f) as [header f1] eqn:Er.
  destruct (List.length header =? 0); [contradiction|].
  destruct (List.length header <? AppendLog.HEADER_SIZE) eqn:El; [contradiction|].
  destruct (read_header _ _ _ Er El) as (b3 & b2 & b1 & b0 & -> & ->).
  cbn [firstn].
  destruct (Struct.unpack_u32 [b3; b2; b1; b0]) as [n|]; [|contradiction].
  destruct (File.read n f1) as [data f2].
  destruct (N.of_nat (List.length data) <? n)%N; [contradiction|].
  intros [E | H].
  - left. now injection E as <- _.
  - right. exists n. split; [reflexivity|]. exact (Hge _ _ _ H).
Qed.

(** X20.  An append after a write that was cut short.  When the log
    starts on a file that ends in a fragment that is not empty, [append]
    writes the next record after the fragment and returns the offset of
    the end of the file; [read_at] finds the record there; but [replay]
    never yields that offset, so that a queue restarted on the file does
    not have the record in its index. *)
Theorem append_after_torn_tail
    (records : list bytes) (fragment data : bytes) :
  Forall Framing.fits records ->
  Framing.is_fragment fragment = true ->
  fragment <> [] ->
  Framing.fits data ->
  let existing := Framing.frames records ++ fragment in
  exists self',
    AppendLog.append (AppendLog.init existing) data
    = Ok (List.length existing, self')
    /\ AppendLog.file self' = existing ++ Framing.frame data
    /\ AppendLog.read_at self' (List.length existing) = Ok data
    /\ ~ In (List.length existing) (map fst (AppendLog.replay self')).
Proof.
  intros Hfits Hfrag Hne Hdata existing.
  eexists. split; [apply (append_Ok (AppendLog.init existing) data Hdata)|].
  cbn [AppendLog.init AppendLog.file AppendLog._write_offset].
  split; [reflexivity|]. split.
  - apply (read_at_frame _ existing [] data Hdata).
    cbn [AppendLog.file]. now rewrite app_nil_r.
  - intros Hin. apply in_map_iff in Hin. destruct Hin as ([o d] & Eo & Hin).
    cbn [fst] in Eo. subst o.
    unfold AppendLog.replay, File.open_rb in Hin. cbn [AppendLog.file] in Hin.
    unfold existing in Hin. rewrite <- app_assoc in Hin.
    rewrite replay_loop_frames in Hin; [|exact Hfits|].
    2:{ rewrite !length_app. pose proof (frames_length_ge records). lia. }
    fold existing in Hin. cbn [Nat.add] in Hin.
    assert (Hlen : List.length existing
                   = List.length (Framing.frames records) + List.length fragment)
      by (unfold existing; apply length_app).
    assert (Hpos : 0 < List.length fragment)
      by (destruct fragment; [congruence | simpl; lia]).
    apply in_app_iff in Hin. destruct Hin as [Hin | Hin].
    + apply frames_at_In in Hin.
      destruct Hin as (before & after & Ef & Eo & _).
      apply (f_equal (@List.length byte)) in Ef.
      rewrite !length_app, frame_length in Ef. lia.
    + apply replay_loop_offsets in Hin. destruct Hin as [E | (n & En & Hn)]; [lia|].
      unfold AppendLog.HEADER_SIZE in Hn.
      destruct fragment as [|b3 [|b2 [|b1 [|b0 payload]]]];
        try (cbn [List.length] in *; lia).
      cbn [app firstn] in En. cbn [Framing.is_fragment] in Hfrag.
      rewrite En in Hfrag. apply N.ltb_lt in Hfrag.
      cbn [List.length] in *. lia.
Qed.

Lemma append_after_torn_tail_witness :
  let records := [[x61]] in
  let fragment := [x00; x00] in
  let data := [x62] in
  let existing := Framing.frames records ++ fragment in
  Forall Framing.fits records
  /\ Framing.is_fragment fragment = true
  /\ fragment <> []
  /\ Framing.fits data
  /\ exists self',
       AppendLog.append (AppendLog.init existing) data = Ok (7, self')
       /\ ~ In 7 (map fst (AppendLog.replay self')).
Proof.
  intros records fragment data existing.
  assert (H1 : Forall Framing.fits records)
    by (repeat constructor; vm_compute; reflexivity).
  assert (H2 : Framing.is_fragment fragment = true) by reflexivity.
  assert (H3 : fragment <> []) by discriminate.
  assert (H4 : Framing.fits data) by (vm_compute; reflexivity).
  split; [exact H1 | split; [exact H2 | split; [exact H3 | split; [exact H4|]]]].
  destruct (append_after_torn_tail records fragment data H1 H2 H3 H4)
    as (self' & Ea & _ & _ & Hr).
  exists self'. split; [exact Ea | exact Hr].
Defined.

(** X21.  Whatever the message, [push] of a connected client sends
    either nothing (the message has a line feed, or is no text that
    UTF-8 can encode) or exactly one line: bytes without a line feed,
    then one line feed.  So the broker never reads a pushed message as
    more than one request. *)
Theorem push_sends_one_line (sent incoming : bytes) (message : pystr) :
  let self' := snd (PyQueueClient.push (connected sent incoming) message) in
  exists request incoming',
    self' = connected (sent ++ request) incoming'
    /\ (request = []
        \/ (has_newline message = false
            /\ Utf8.encode (str "PUSH " ++ message ++ [10%Z]) = Ok request
            /\ exists body,
                 request = body ++ [x0a] /\ Forall (fun b => b <> x0a) body)).
Proof.
  unfold PyQueueClient.push. fold (has_newline message).
  destruct (has_newline message) eqn:Hn.
  { exists [], incoming. rewrite app_nil_r. cbn [snd]. split; [reflexivity | now left]. }
  destruct (Utf8.encode (str "PUSH " ++ message ++ [10%Z])) as [request|e] eqn:Ee.
  - rewrite (send_connected _ _ _ _ Ee).
    assert (Hone : exists body,
               request = body ++ [x0a] /\ Forall (fun b => b <> x0a) body).
    { rewrite app_assoc in Ee.
      destruct (encode_line (str "PUSH " ++ message) request Ee) as (b & E & Hb & _).
      - now rewrite has_newline_app, Hn.
      - now exists b. }
    unfold PyQueueClient._receive, connected.
    cbn [PyQueueClient._socket PyQueueClient.sent PyQueueClient.incoming].
    destruct (PyQueueClient._receive_loop incoming []) as [[data rest]|].
    + exists request, rest.
      split; [|right; split; [reflexivity | split; [reflexivity | exact Hone]]].
      destruct (Utf8.decode data) as [response|e]; [|reflexivity].
      destruct (PyQueueClient.startswith response (str "OK")); [reflexivity|].
      destruct (PyQueueClient.startswith response (str "ERR")); reflexivity.
    + exists request, [].
      split; [reflexivity | right; split; [reflexivity | split; [reflexivity | exact Hone]]].
  - exists [], incoming. rewrite app_nil_r. split; [|now left].
    unfold PyQueueClient._send, connected.
    cbn [PyQueueClient._socket PyQueueClient.sent PyQueueClient.incoming].
    rewrite Ee. reflexivity.
Qed.

(** ** The bound on the cursors *)

(** X23.  Each of the four operations (push, pull, count, cursor query),
    from any state where every consumer's cursor lies between 0 and the
    length of the index, leads to a state where it does; so in every
    state reached from an empty data directory by these operations
    alone, without a restart, every cursor lies between 0 and the length
    of the index. *)
Theorem calls_keep_cursor_within_index (ops : list op) (q : t) (o : op) :
  (forall c,
     let reached := snd (run (init empty_dir) ops) in
     (0 <= cursor reached c <= Z.of_nat (List.length (_index reached)))%Z)
  /\ ((forall c, (0 <= cursor q c <= Z.of_nat (List.length (_index q)))%Z) ->
      forall c,
        let q' := snd (step q o) in
        (0 <= cursor q' c <= Z.of_nat (List.length (_index q')))%Z).
Proof.
  split.
  - intros c reached. unfold cursor. subst reached. revert c.
    apply run_cursors_within. apply cursors_within_empty_dir.
  - intros H c q'. unfold cursor. subst q'. revert c.
    apply step_cursors_within. exact H.
Qed.

Lemma calls_keep_cursor_within_index_witness :
  let ops := [Push (str "a"); Pull (str "c1"); Pull (str "c1"); Push (str "b")] in
  let q := snd (run (init empty_dir) [Push (str "a")]) in
  let c := str "c1" in
  (forall c, (0 <= cursor q c <= Z.of_nat (List.length (_index q)))%Z)
  /\ (0 <= cursor (snd (run (init empty_dir) ops)) c <= 2)%Z
  /\ (0 <= cursor (snd (step q (Pull c))) c <= 1)%Z.
Proof.
  intros ops q c.
  assert (H : forall c, (0 <= cursor q c <= Z.of_nat (List.length (_index q)))%Z)
    by (intros c0; vm_compute; split; discriminate).
  split; [exact H | split].
  - exact (proj1 (calls_keep_cursor_within_index ops q (Pull c)) c).
  - exact (proj2 (calls_keep_cursor_within_index ops q (Pull c)) H c).
Defined.
